(** * app.js: accounts, session and pet profiles over localStorage

    A shallow embedding of [src/app.js] and the properties of its data
    layer.  The script keeps every account in one JSON array stored under
    the localStorage key [users], the session under [currentUser], and
    saves a pet profile once all the selected files have been read.

    Conventions of the embedding.
    - A JavaScript string is a [string]: a sequence of 8-bit units, the
      bytes of its UTF-8 encoding.
    - The built-in methods [String.prototype.trim] and
      [String.prototype.toLowerCase], and the conversion to a number of
      an operand of [>] that is a string, an array or an object, belong
      to the JavaScript engine and not to the script: they are the
      methods of an [Engine], and every property is proved for every
      engine.  Where a property depends on a law of the Unicode case
      mapping, the law is a hypothesis of the theorem.
    - A JavaScript number is an exact decimal [mant / 10^scale]; binary
      rounding and overflow to Infinity are not modelled.
    - A JavaScript value is a [JSVal] tree.  The values the script shares
      between closures ([vetObj], [photos]) live in the state of the save
      that owns them.
    - A handler is a function of the [World] in the monad [M]: it ends
      with [Ok] or with a thrown [TypeError].  [Beyond] is the outcome of
      an operation that the embedding leaves out; no handler of the
      script ends with it. *)

From Stdlib Require Import ZArith NArith List Ascii String Bool Lia.
From stdpp Require Import base option gmap strings list.

Local Open Scope string_scope.
Local Open Scope N_scope.

(** ** Strings *)

Module JSString.

Definition dquote : ascii := "034"%char.
Definition backslash : ascii := "092"%char.

(** [s === ''], the only way a string is falsy *)
Definition is_empty (s : string) : bool :=
  match s with EmptyString => true | _ => false end.

End JSString.
Export JSString.

(** ** Numbers *)

Module JSNumber.

(** The number [mant / 10^scale]. *)
Record Number : Type := mkNumber { mant : Z; scale : nat }.

Definition of_Z (z : Z) : Number := mkNumber z 0.

Definition digit_char (d : N) : ascii := ascii_of_N (48 + d).

Definition digit_val (c : ascii) : option N :=
  let n := N_of_ascii c in
  if (48 <=? n) && (n <=? 57) then Some (n - 48) else None.

(** The [k] low-order decimal digits of [n], most significant first. *)
Fixpoint pad_digits (k : nat) (n : N) : string :=
  match k with
  | O => EmptyString
  | S k' => String (digit_char ((n / 10 ^ N.of_nat k') mod 10)) (pad_digits k' n)
  end.

Fixpoint strip_zeros (s : string) : string :=
  match s with
  | String c (String _ _ as t) => if Ascii.eqb c "0" then strip_zeros t else s
  | _ => s
  end.

(** Decimal digits of [n], without leading zeros. *)
Definition N_to_string (n : N) : string :=
  strip_zeros (pad_digits (S (N.to_nat (N.log2 n))) n).

(** Trailing zeros of a fraction are dropped: the canonical form has
    [scale = 0] or a mantissa that 10 does not divide. *)
Fixpoint strip_scale (m : Z) (k : nat) : Number :=
  match k with
  | O => mkNumber m 0
  | S k' => if (m mod 10 =? 0)%Z then strip_scale (m / 10) k' else mkNumber m k
  end.

(** The number [m * 10^e] in canonical form. *)
Definition make (m : Z) (e : Z) : Number :=
  if (0 <=? e)%Z then mkNumber (m * 10 ^ e) 0 else strip_scale m (Z.to_nat (- e)).

Definition is_zero (x : Number) : bool := (mant x =? 0)%Z.

Definition sign_prefix (x : Number) : string :=
  if (mant x <? 0)%Z then "-" else EmptyString.

Definition magnitude (x : Number) : N := Z.abs_N (mant x).

(** [10^21 <= |x|] *)
Definition is_huge (x : Number) : bool :=
  10 ^ (21 + N.of_nat (scale x)) <=? magnitude x.

(** [|x| < 10^-6] *)
Definition is_tiny (x : Number) : bool :=
  magnitude x * 10 ^ 6 <? 10 ^ N.of_nat (scale x).

(** Plain decimal notation: integer part, then the [scale] fraction
    digits. *)
Definition plain (x : Number) : string :=
  let p := 10 ^ N.of_nat (scale x) in
  N_to_string (magnitude x / p) +:+
  match scale x with
  | O => EmptyString
  | S _ => "." +:+ pad_digits (scale x) (magnitude x)
  end.

Fixpoint drop_trailing_zeros (fuel : nat) (n : N) : N * nat :=
  match fuel with
  | O => (n, O)
  | S f =>
      if (n mod 10 =? 0) && negb (n =? 0)
      then let '(s, z) := drop_trailing_zeros f (n / 10) in (s, S z)
      else (n, O)
  end.

(** Exponent notation [d.ddde+n], which [Number::toString] uses outside
    [10^-6 <= |x| < 10^21]. *)
Definition exponential (x : Number) : string :=
  let '(s, z) := drop_trailing_zeros (S (N.to_nat (N.log2 (magnitude x)))) (magnitude x) in
  let ds := N_to_string s in
  let e := (Z.of_nat (String.length ds) - 1 + Z.of_nat z - Z.of_nat (scale x))%Z in
  match ds with
  | EmptyString => EmptyString
  | String d rest =>
      String d (match rest with EmptyString => EmptyString | _ => "." +:+ rest end)
      +:+ "e" +:+ (if (e <? 0)%Z then "-" else "+") +:+ N_to_string (Z.abs_N e)
  end.

(** [Number::toString] (radix 10) *)
Definition toString (x : Number) : string :=
  if is_zero x then "0"
  else sign_prefix x +:+
       (if is_huge x || is_tiny x then exponential x else plain x).

(** [Number.prototype.toFixed(fd)]: the magnitude is rounded to [fd]
    fraction digits, ties going to the larger integer; a number of
    magnitude [10^21] or more is printed by [toString]. *)
Definition toFixed (fd : nat) (x : Number) : string :=
  if is_huge x then toString x
  else
    let p := 10 ^ N.of_nat (scale x) in
    let n := (magnitude x * 10 ^ N.of_nat fd * 2 + p) / (2 * p) in
    sign_prefix x +:+ N_to_string (n / 10 ^ N.of_nat fd) +:+
    match fd with
    | O => EmptyString
    | S _ => "." +:+ pad_digits fd n
    end.

End JSNumber.
Export JSNumber.

(** ** Values *)

(** A JavaScript value as the script meets them: what [JSON.parse]
    builds, what the handlers construct, and [undefined].  An object keeps
    its properties in insertion order. *)
#[warnings="-register-all"] Inductive JSVal : Type :=
  | VUndef
  | VNull
  | VBool (b : bool)
  | VNum (n : Number)
  | VStr (s : string)
  | VArr (elems : list JSVal)
  | VObj (props : list (string * JSVal)).

(** [o[k] = v] on the property list of an object: an existing property
    keeps its place, a new one goes last. *)
Fixpoint obj_set (k : string) (v : JSVal) (ps : list (string * JSVal))
  : list (string * JSVal) :=
  match ps with
  | [] => [(k, v)]
  | (k', v') :: r =>
      if String.eqb k' k then (k, v) :: r else (k', v') :: obj_set k v r
  end.

Fixpoint obj_get (k : string) (ps : list (string * JSVal)) : JSVal :=
  match ps with
  | [] => VUndef
  | (k', v') :: r => if String.eqb k' k then v' else obj_get k r
  end.

(** ToBoolean *)
Definition truthy (v : JSVal) : bool :=
  match v with
  | VUndef | VNull => false
  | VBool b => b
  | VNum n => negb (is_zero n)
  | VStr s => negb (is_empty s)
  | VArr _ | VObj _ => true
  end.

(** [a === b].  Two objects or arrays are equal when they are the same
    reference; the operands the script compares come from different
    [JSON.parse] results or from a string, so they never are. *)
Definition strict_eq (a b : JSVal) : bool :=
  match a, b with
  | VUndef, VUndef | VNull, VNull => true
  | VBool x, VBool y => Bool.eqb x y
  | VNum x, VNum y =>
      (mant x * 10 ^ Z.of_nat (scale y) =? mant y * 10 ^ Z.of_nat (scale x))%Z
  | VStr x, VStr y => String.eqb x y
  | _, _ => false
  end.

(** ** JSON *)

Module JSON.

Definition hex_digit (n : N) : ascii :=
  if n <? 10 then ascii_of_N (48 + n) else ascii_of_N (87 + n).

(** QuoteJSONString, one unit at a time *)
Definition quote_char (c : ascii) : string :=
  let n := N_of_ascii c in
  if n =? 34 then String backslash (String dquote EmptyString)
  else if n =? 92 then String backslash (String backslash EmptyString)
  else if n =? 8 then String backslash "b"
  else if n =? 9 then String backslash "t"
  else if n =? 10 then String backslash "n"
  else if n =? 12 then String backslash "f"
  else if n =? 13 then String backslash "r"
  else if n <? 32 then
    String backslash
      (String "u" (String "0" (String "0"
         (String (hex_digit (n / 16)) (String (hex_digit (n mod 16)) EmptyString)))))
  else String c EmptyString.

Fixpoint quote_body (s : string) : string :=
  match s with
  | EmptyString => EmptyString
  | String c r => quote_char c +:+ quote_body r
  end.

Definition quote (s : string) : string :=
  String dquote (quote_body s +:+ String dquote EmptyString).

(** SerializeJSONProperty: [None] is the result [undefined]. *)
Fixpoint serialize (v : JSVal) : option string :=
  match v with
  | VUndef => None
  | VNull => Some "null"
  | VBool b => Some (if b then "true" else "false")
  | VNum n => Some (JSNumber.toString n)
  | VStr s => Some (quote s)
  | VArr l =>
      Some ("[" +:+ String.concat ","
              (map (fun x => default "null" (serialize x)) l) +:+ "]")
  | VObj ps =>
      Some ("{" +:+ String.concat ","
              (omap (fun p => match p with
                              | (k, x) => (fun t => quote k +:+ ":" +:+ t) <$> serialize x
                              end) ps) +:+ "}")
  end.

(** [JSON.stringify(v)] for a value that is not [undefined] at the top. *)
Definition stringify (v : JSVal) : string := default "undefined" (serialize v).

(** White space between tokens: TAB, LF, CR, SPACE. *)
Definition is_ws (c : ascii) : bool :=
  let n := N_of_ascii c in (n =? 9) || (n =? 10) || (n =? 13) || (n =? 32).

Fixpoint skip_ws (s : string) : string :=
  match s with
  | String c r => if is_ws c then skip_ws r else s
  | EmptyString => EmptyString
  end.

Definition hex_val (c : ascii) : option N :=
  let n := N_of_ascii c in
  if (48 <=? n) && (n <=? 57) then Some (n - 48)
  else if (97 <=? n) && (n <=? 102) then Some (n - 87)
  else if (65 <=? n) && (n <=? 70) then Some (n - 55)
  else None.

(** The units of the code point [u] of an escape [\uXXXX]. *)
Definition encode_unit (u : N) : string :=
  if u <? 128 then String (ascii_of_N u) EmptyString
  else if u <? 2048 then
    String (ascii_of_N (192 + u / 64)) (String (ascii_of_N (128 + u mod 64)) EmptyString)
  else
    String (ascii_of_N (224 + u / 4096))
      (String (ascii_of_N (128 + (u / 64) mod 64))
         (String (ascii_of_N (128 + u mod 64)) EmptyString)).

Definition unescape (c : ascii) : option ascii :=
  let n := N_of_ascii c in
  if (n =? 34) || (n =? 92) || (n =? 47) then Some c
  else if n =? 98 then Some (ascii_of_N 8)
  else if n =? 102 then Some (ascii_of_N 12)
  else if n =? 110 then Some (ascii_of_N 10)
  else if n =? 114 then Some (ascii_of_N 13)
  else if n =? 116 then Some (ascii_of_N 9)
  else None.

(** The characters of a string literal after its opening quote, up to
    the closing one. *)
Fixpoint parse_chars (s : string) : option (string * string) :=
  match s with
  | EmptyString => None
  | String c r =>
      if Ascii.eqb c dquote then Some (EmptyString, r)
      else if Ascii.eqb c backslash then
        match r with
        | String e r1 =>
            if Ascii.eqb e "u" then
              match r1 with
              | String h1 (String h2 (String h3 (String h4 r2))) =>
                  match hex_val h1, hex_val h2, hex_val h3, hex_val h4 with
                  | Some a, Some b, Some c', Some d =>
                      match parse_chars r2 with
                      | Some (t, rest) =>
                          Some (encode_unit (((a * 16 + b) * 16 + c') * 16 + d) +:+ t, rest)
                      | None => None
                      end
                  | _, _, _, _ => None
                  end
              | _ => None
              end
            else
              match unescape e with
              | Some c' =>
                  match parse_chars r1 with
                  | Some (t, rest) => Some (String c' t, rest)
                  | None => None
                  end
              | None => None
              end
        | EmptyString => None
        end
      else if N_of_ascii c <? 32 then None
      else
        match parse_chars r with
        | Some (t, rest) => Some (String c t, rest)
        | None => None
        end
  end.

(** A run of decimal digits: its value on top of [acc], how many there
    are, and what follows. *)
Fixpoint scan_digits (s : string) (acc : N) (cnt : nat) : N * nat * string :=
  match s with
  | String c r =>
      match digit_val c with
      | Some d => scan_digits r (10 * acc + d) (S cnt)
      | None => (acc, cnt, s)
      end
  | EmptyString => (acc, cnt, s)
  end.

Definition parse_sign (s : string) : bool * string :=
  match s with
  | String c r => if Ascii.eqb c "-" then (true, r) else (false, s)
  | EmptyString => (false, s)
  end.

(** Integer part: [0], or a digit from 1 to 9 and more digits. *)
Definition parse_int (s : string) : option (N * string) :=
  match s with
  | String c r =>
      match digit_val c with
      | Some 0 => Some (0, r)
      | Some d => let '(n, _, rest) := scan_digits r d 1 in Some (n, rest)
      | None => None
      end
  | EmptyString => None
  end.

(** Optional fraction: the digits' value and their count. *)
Definition parse_frac (s : string) : option (N * nat * string) :=
  match s with
  | String c r =>
      if Ascii.eqb c "." then
        match scan_digits r 0 0 with
        | (_, O, _) => None
        | res => Some res
        end
      else Some (0, O, s)
  | EmptyString => Some (0, O, s)
  end.

(** Optional exponent. *)
Definition parse_exp (s : string) : option (Z * string) :=
  match s with
  | String c r =>
      if Ascii.eqb c "e" || Ascii.eqb c "E" then
        let '(neg, r1) :=
          match r with
          | String sg r' =>
              if Ascii.eqb sg "-" then (true, r')
              else if Ascii.eqb sg "+" then (false, r')
              else (false, r)
          | EmptyString => (false, r)
          end in
        match scan_digits r1 0 0 with
        | (_, O, _) => None
        | (n, _, rest) => Some (if neg then (- Z.of_N n)%Z else Z.of_N n, rest)
        end
      else Some (0%Z, s)
  | EmptyString => Some (0%Z, s)
  end.

Definition parse_number (s : string) : option (Number * string) :=
  let '(neg, s1) := parse_sign s in
  match parse_int s1 with
  | None => None
  | Some (ip, s2) =>
      match parse_frac s2 with
      | None => None
      | Some (fp, cnt, s3) =>
          match parse_exp s3 with
          | None => None
          | Some (e, s4) =>
              let m := Z.of_N (ip * 10 ^ N.of_nat cnt + fp) in
              Some (JSNumber.make (if neg then - m else m) (e - Z.of_nat cnt), s4)
          end
      end
  end.

Fixpoint strip_prefix (p s : string) : option string :=
  match p, s with
  | EmptyString, _ => Some s
  | String a p', String b s' => if Ascii.eqb a b then strip_prefix p' s' else None
  | String _ _, EmptyString => None
  end.

Inductive PResult (A : Type) : Type :=
  | POk (a : A) (rest : string)
  | PSyntaxError
  | POutOfFuel.
Arguments POk {A} a rest.
Arguments PSyntaxError {A}.
Arguments POutOfFuel {A}.

Definition literal (lit : string) (v : JSVal) (s : string) : PResult JSVal :=
  match strip_prefix lit s with
  | Some rest => POk v rest
  | None => PSyntaxError
  end.

(** Recursive descent over the JSON grammar.  [fuel] bounds the number
    of nested calls; [JSON_parse] gives enough of it. *)
Fixpoint parse_value (fuel : nat) (s : string) : PResult JSVal :=
  match fuel with
  | O => POutOfFuel
  | S f =>
      match skip_ws s with
      | EmptyString => PSyntaxError
      | String c r =>
          if Ascii.eqb c "[" then
            match skip_ws r with
            | String c1 r1 =>
                if Ascii.eqb c1 "]" then POk (VArr []) r1
                else match parse_elements f r with
                     | POk vs rest => POk (VArr vs) rest
                     | PSyntaxError => PSyntaxError
                     | POutOfFuel => POutOfFuel
                     end
            | EmptyString => PSyntaxError
            end
          else if Ascii.eqb c "{" then
            match skip_ws r with
            | String c1 r1 =>
                if Ascii.eqb c1 "}" then POk (VObj []) r1
                else match parse_members f r with
                     | POk ms rest =>
                         POk (VObj (fold_left (fun o m => obj_set (fst m) (snd m) o) ms [])) rest
                     | PSyntaxError => PSyntaxError
                     | POutOfFuel => POutOfFuel
                     end
            | EmptyString => PSyntaxError
            end
          else if Ascii.eqb c dquote then
            match parse_chars r with
            | Some (t, rest) => POk (VStr t) rest
            | None => PSyntaxError
            end
          else if Ascii.eqb c "t" then literal "true" (VBool true) (String c r)
          else if Ascii.eqb c "f" then literal "false" (VBool false) (String c r)
          else if Ascii.eqb c "n" then literal "null" VNull (String c r)
          else
            match parse_number (String c r) with
            | Some (n, rest) => POk (VNum n) rest
            | None => PSyntaxError
            end
      end
  end
with parse_elements (fuel : nat) (s : string) : PResult (list JSVal) :=
  match fuel with
  | O => POutOfFuel
  | S f =>
      match parse_value f s with
      | POk v r =>
          match skip_ws r with
          | String c r1 =>
              if Ascii.eqb c "," then
                match parse_elements f r1 with
                | POk vs rest => POk (v :: vs) rest
                | e => e
                end
              else if Ascii.eqb c "]" then POk [v] r1
              else PSyntaxError
          | EmptyString => PSyntaxError
          end
      | PSyntaxError => PSyntaxError
      | POutOfFuel => POutOfFuel
      end
  end
with parse_members (fuel : nat) (s : string) : PResult (list (string * JSVal)) :=
  match fuel with
  | O => POutOfFuel
  | S f =>
      match skip_ws s with
      | String q r =>
          if Ascii.eqb q dquote then
            match parse_chars r with
            | Some (k, r1) =>
                match skip_ws r1 with
                | String c r2 =>
                    if Ascii.eqb c ":" then
                      match parse_value f r2 with
                      | POk v r3 =>
                          match skip_ws r3 with
                          | String c' r4 =>
                              if Ascii.eqb c' "," then
                                match parse_members f r4 with
                                | POk ms rest => POk ((k, v) :: ms) rest
                                | e => e
                                end
                              else if Ascii.eqb c' "}" then POk [(k, v)] r4
                              else PSyntaxError
                          | EmptyString => PSyntaxError
                          end
                      | PSyntaxError => PSyntaxError
                      | POutOfFuel => POutOfFuel
                      end
                    else PSyntaxError
                | EmptyString => PSyntaxError
                end
            | None => PSyntaxError
            end
          else PSyntaxError
      | EmptyString => PSyntaxError
      end
  end.

(** [JSON.parse(text)]: [None] when it throws a SyntaxError. *)
Definition parse (text : string) : option JSVal :=
  match parse_value (2 * String.length text + 1) text with
  | POk v rest => if is_empty (skip_ws rest) then Some v else None
  | _ => None
  end.

End JSON.

Import JSON.

(** ** The engine *)

(** What the script takes from the JavaScript engine:
    [String.prototype.trim], which strips the white space and the line
    terminators of Unicode from both ends; [String.prototype.toLowerCase],
    the lower-case mapping of Unicode; and, for [v > 0] with [v] a string,
    an array or an object, whether the number [v] converts to is above
    zero. *)
Class Engine : Type := mkEngine {
  trim : string -> string;
  toLowerCase : string -> string;
  above_zero : JSVal -> bool
}.

(** ** The browser: storage, page and pending saves *)

Inductive Exn : Type := TypeError.

(** A file of a file input: its name and the data URL that
    [readAsDataURL] produces for its content when the read succeeds. *)
Record File : Type := mkFile { file_name : string; file_dataURL : string }.

(** A node the script creates with [document.createElement]: its tag, the
    properties assigned to it and the children appended to it. *)
#[warnings="-register-all"] Inductive Node : Type :=
  | Elem (tag : string) (props : list (string * JSVal)) (kids : list Node).

(** An element of the page, found by its id. *)
Record Element : Type := mkElement {
  value : string;
  files : list File;
  textContent : string;
  style_display : string;
  childNodes : list Node
}.

Inductive TaskKind : Type := Certificate | Photo.
Inductive ReadState : Type := Reading | Loaded | Failed.

(** One entry of [readerTasks]: the promise around a [FileReader]. *)
Record ReaderTask : Type := mkTask {
  task_kind : TaskKind;
  task_file : File;
  task_state : ReadState
}.

(** The variables one call of [savePetInfo] closes over. *)
Record SaveJob : Type := mkJob {
  job_user : JSVal;
  job_name : string;
  job_desc : string;
  job_vetObj : JSVal;
  job_photos : list JSVal;
  job_tasks : list ReaderTask;
  job_done : bool
}.

Inductive Listener : Type :=
  | OnSignup
  | OnLogin
  | OnSubmitPet (user : JSVal)
  | OnLogout.

Record World : Type := mkWorld {
  localStorage : gmap string string;
  document : gmap string Element;
  console : list string;
  navigations : list string;
  listeners : list (string * Listener);
  saves : list SaveJob
}.

Inductive Outcome (A : Type) : Type :=
  | Ok (a : A) (w : World)
  | Throw (e : Exn) (w : World)
  | Beyond.
Arguments Ok {A} a w.
Arguments Throw {A} e w.
Arguments Beyond {A}.

Definition M (A : Type) : Type := World -> Outcome A.

#[global] Instance M_ret : MRet M := fun A a w => Ok a w.
#[global] Instance M_bind : MBind M := fun A B f m w =>
  match m w with
  | Ok a w' => f a w'
  | Throw e w' => Throw e w'
  | Beyond => Beyond
  end.

Definition throw {A : Type} (e : Exn) : M A := fun w => Throw e w.
Definition beyond {A : Type} : M A := fun _ => Beyond.
Definition gets {A : Type} (f : World -> A) : M A := fun w => Ok (f w) w.
Definition modify (f : World -> World) : M unit := fun w => Ok tt (f w).

(** The world a handler leaves behind, when it returns or throws. *)
Definition final_world {A : Type} (o : Outcome A) : option World :=
  match o with
  | Ok _ w | Throw _ w => Some w
  | Beyond => None
  end.

Definition set_localStorage (f : gmap string string -> gmap string string) (w : World) : World :=
  mkWorld (f (localStorage w)) (document w) (console w) (navigations w) (listeners w) (saves w).
Definition set_document (f : gmap string Element -> gmap string Element) (w : World) : World :=
  mkWorld (localStorage w) (f (document w)) (console w) (navigations w) (listeners w) (saves w).
Definition set_console (f : list string -> list string) (w : World) : World :=
  mkWorld (localStorage w) (document w) (f (console w)) (navigations w) (listeners w) (saves w).
Definition set_navigations (f : list string -> list string) (w : World) : World :=
  mkWorld (localStorage w) (document w) (console w) (f (navigations w)) (listeners w) (saves w).
Definition set_listeners (f : list (string * Listener) -> list (string * Listener)) (w : World) : World :=
  mkWorld (localStorage w) (document w) (console w) (navigations w) (f (listeners w)) (saves w).
Definition set_saves (f : list SaveJob -> list SaveJob) (w : World) : World :=
  mkWorld (localStorage w) (document w) (console w) (navigations w) (listeners w) (f (saves w)).

(** *** localStorage, console, location *)

Definition getItem (k : string) : M (option string) :=
  gets (fun w => localStorage w !! k).
Definition setItem (k v : string) : M unit :=
  modify (set_localStorage (insert k v)).
Definition removeItem (k : string) : M unit :=
  modify (set_localStorage (delete k)).

Definition console_error (msg : string) : M unit :=
  modify (set_console (fun l => (l ++ [msg])%list)).

(** [window.location.href = url] *)
Definition navigate (url : string) : M unit :=
  modify (set_navigations (fun l => (l ++ [url])%list)).

(** *** document *)

Definition getElementById (id : string) : M (option Element) :=
  gets (fun w => document w !! id).

(** [document.getElementById(id).value]; reading a property of [null]
    throws. *)
Definition input_value (id : string) : M string :=
  el ← getElementById id;
  match el with
  | Some e => mret (value e)
  | None => throw TypeError
  end.

Definition input_files (id : string) : M (list File) :=
  el ← getElementById id;
  match el with
  | Some e => mret (files e)
  | None => throw TypeError
  end.

Definition with_textContent (t : string) (e : Element) : Element :=
  mkElement (value e) (files e) t (style_display e) (childNodes e).
Definition with_display (d : string) (e : Element) : Element :=
  mkElement (value e) (files e) (textContent e) d (childNodes e).
Definition with_childNodes (f : list Node -> list Node) (e : Element) : Element :=
  mkElement (value e) (files e) (textContent e) (style_display e) (f (childNodes e)).
Definition update_element (id : string) (f : Element -> Element) : M unit :=
  el ← getElementById id;
  match el with
  | Some e => modify (set_document (insert id (f e)))
  | None => throw TypeError
  end.

Definition set_textContent (id t : string) : M unit :=
  update_element id (with_textContent t).

Section Script.

Context {engine : Engine}.

(** *** Reading values *)

(** [v.k] for the property names the script reads, none of which is
    inherited from a prototype. *)
Definition get_prop (v : JSVal) (k : string) : M JSVal :=
  match v with
  | VUndef | VNull => throw TypeError
  | VObj ps => mret (obj_get k ps)
  | VArr l =>
      mret (if String.eqb k "length" then VNum (of_Z (Z.of_nat (length l))) else VUndef)
  | VStr s =>
      mret (if String.eqb k "length" then VNum (of_Z (Z.of_nat (String.length s))) else VUndef)
  | VBool _ | VNum _ => mret VUndef
  end.

(** [v[0]] *)
Definition get_first (v : JSVal) : M JSVal :=
  match v with
  | VUndef | VNull => throw TypeError
  | VObj ps => mret (obj_get "0" ps)
  | VArr l => mret (hd VUndef l)
  | VStr (String c _) => mret (VStr (String c EmptyString))
  | VStr EmptyString | VBool _ | VNum _ => mret VUndef
  end.

(** [v > 0].  The left operand is converted to a number: [undefined] to
    NaN, [null] to 0, a boolean to 0 or 1, and a string, an array or an
    object by the engine. *)
Definition gt_zero (v : JSVal) : M bool :=
  match v with
  | VUndef | VNull => mret false
  | VBool b => mret b
  | VNum n => mret (0 <? mant n)%Z
  | VStr _ | VArr _ | VObj _ => mret (above_zero v)
  end.

(** The receiver of [find], [some], [findIndex], [forEach], [push]: only
    an array has these methods. *)
Definition as_array (v : JSVal) : M (list JSVal) :=
  match v with
  | VArr l => mret l
  | _ => throw TypeError
  end.

(** [v.toFixed(2)]: only a number has the method. *)
Definition call_toFixed (v : JSVal) : M string :=
  match v with
  | VNum n => mret (toFixed 2 n)
  | _ => throw TypeError
  end.

Fixpoint array_find (p : JSVal -> M bool) (l : list JSVal) : M JSVal :=
  match l with
  | [] => mret VUndef
  | u :: r => b ← p u; if b : bool then mret u else array_find p r
  end.

Fixpoint array_some (p : JSVal -> M bool) (l : list JSVal) : M bool :=
  match l with
  | [] => mret false
  | u :: r => b ← p u; if b : bool then mret true else array_some p r
  end.

(** [findIndex], counting from [i]; [None] is the result [-1]. *)
Fixpoint array_findIndex (p : JSVal -> M bool) (l : list JSVal) (i : nat) : M (option nat) :=
  match l with
  | [] => mret None
  | u :: r => b ← p u; if b : bool then mret (Some i) else array_findIndex p r (S i)
  end.

Fixpoint array_forEach (f : JSVal -> M unit) (l : list JSVal) : M unit :=
  match l with
  | [] => mret tt
  | u :: r => f u;; array_forEach f r
  end.

(** [target.k = v]; assigning to a property of [undefined] or [null]
    throws, and on a primitive the assignment is dropped. *)
Definition set_prop (target : JSVal) (k : string) (v : JSVal) : M JSVal :=
  match target with
  | VUndef | VNull => throw TypeError
  | VObj ps => mret (VObj (obj_set k v ps))
  | other => mret other
  end.

(** ** The script *)

(** *** Utility functions over localStorage *)

Definition getUsers : M JSVal :=
  data ← getItem "users";
  match data with
  | Some text =>
      if is_empty text then mret (VArr [])
      else
        match JSON.parse text with
        | Some v => mret v
        | None =>
            console_error "Error parsing users from localStorage";;
            mret (VArr [])
        end
  | None => mret (VArr [])
  end.

Definition setUsers (users : JSVal) : M unit :=
  setItem "users" (JSON.stringify users).

Definition getCurrentUserEmail : M (option string) := getItem "currentUser".

Definition setCurrentUserEmail (email : string) : M unit :=
  setItem "currentUser" email.

(** [u => u.email === email] *)
Definition email_is (email : JSVal) (u : JSVal) : M bool :=
  e ← get_prop u "email"; mret (strict_eq e email).

Definition findUser (email : string) : M JSVal :=
  users ← getUsers;
  l ← as_array users;
  array_find (email_is (VStr email)) l.

(** *** Sign up *)

Definition msg_fields_required : string := "Veuillez remplir tous les champs.".
Definition msg_mismatch : string := "Les mots de passe ne correspondent pas.".
Definition msg_exists : string := "Un compte avec cet e‑mail existe déjà.".
Definition msg_invalid : string := "Identifiants invalides.".
Definition msg_pet_required : string :=
  "Veuillez indiquer le nom et la description du chien.".

Definition new_user (email password : string) : JSVal :=
  VObj [("email", VStr email); ("password", VStr password);
        ("fund", VNum (of_Z 4)); ("pet", VNull)].

Definition handleSignup : M unit :=
  raw ← input_value "signup-email";
  let email := toLowerCase (trim raw) in
  password ← input_value "signup-password";
  confirm ← input_value "signup-confirm";
  set_textContent "signup-error" EmptyString;;
  if is_empty email || is_empty password || is_empty confirm then
    set_textContent "signup-error" msg_fields_required
  else if negb (String.eqb password confirm) then
    set_textContent "signup-error" msg_mismatch
  else
    users ← getUsers;
    l ← as_array users;
    taken ← array_some (email_is (VStr email)) l;
    if taken : bool then set_textContent "signup-error" msg_exists
    else
      setUsers (VArr (l ++ [new_user email password])%list);;
      setCurrentUserEmail email;;
      navigate "dashboard.html".

(** *** Login and logout *)

Definition handleLogin : M unit :=
  raw ← input_value "login-email";
  let email := toLowerCase (trim raw) in
  password ← input_value "login-password";
  set_textContent "login-error" EmptyString;;
  user ← findUser email;
  rejected ← (if truthy user
              then p ← get_prop user "password"; mret (negb (strict_eq p (VStr password)))
              else mret true);
  if rejected : bool then set_textContent "login-error" msg_invalid
  else
    setCurrentUserEmail email;;
    navigate "dashboard.html".

Definition logout : M unit :=
  removeItem "currentUser";;
  navigate "index.html".

(** *** The pet of the dashboard *)

Definition appendChild (id : string) (n : Node) : M unit :=
  update_element id (with_childNodes (fun l => (l ++ [n])%list)).

Definition photo_img (ph : JSVal) : M Node :=
  src ← get_prop ph "data";
  alt ← get_prop ph "name";
  mret (Elem "img" [("src", src); ("alt", alt)] []).

Fixpoint photo_imgs (l : list JSVal) : M (list Node) :=
  match l with
  | [] => mret []
  | ph :: r => n ← photo_img ph; ns ← photo_imgs r; mret (n :: ns)
  end.

Definition displayPetInfo (pet : JSVal) : M unit :=
  infoEl ← getElementById "pet-info";
  match infoEl with
  | None => mret tt
  | Some _ =>
      update_element "pet-info" (with_childNodes (fun _ => []));;
      name ← get_prop pet "name";
      appendChild "pet-info" (Elem "h3" [("textContent", name)] []);;
      description ← get_prop pet "description";
      appendChild "pet-info" (Elem "p" [("textContent", description)] []);;
      vetFile ← get_prop pet "vetFile";
      (if truthy vetFile then
         href ← get_prop vetFile "data";
         download ← get_prop vetFile "name";
         appendChild "pet-info"
           (Elem "a" [("href", href); ("download", download);
                      ("textContent", VStr "Télécharger le certificat vétérinaire");
                      ("style.display", VStr "block");
                      ("style.marginBottom", VStr "0.5rem")] [])
       else mret tt);;
      photos ← get_prop pet "photos";
      if truthy photos then
        len ← get_prop photos "length";
        some ← gt_zero len;
        if some : bool then
          l ← as_array photos;
          imgs ← photo_imgs l;
          appendChild "pet-info" (Elem "div" [("className", VStr "pet-photos")] imgs)
        else mret tt
      else mret tt
  end.

Definition pet_object (name desc : string) (vetObj : JSVal) (photos : list JSVal) : JSVal :=
  VObj [("name", VStr name); ("description", VStr desc);
        ("vetFile", vetObj); ("photos", VArr photos)].

Definition file_record (f : File) : JSVal :=
  VObj [("name", VStr (file_name f)); ("data", VStr (file_dataURL f))].

(** The callback of [Promise.all(readerTasks).then]. *)
Definition save_callback (job : SaveJob) : M unit :=
  users ← getUsers;
  l ← as_array users;
  idx ← array_findIndex
          (fun u => e ← get_prop u "email";
                    mine ← get_prop (job_user job) "email";
                    mret (strict_eq e mine)) l 0;
  let petObj := pet_object (job_name job) (job_desc job) (job_vetObj job) (job_photos job) in
  let target := match idx with Some i => default VUndef (l !! i) | None => VUndef end in
  updated ← set_prop target "pet" petObj;
  let l' := match idx with Some i => <[i := updated]> l | None => l end in
  setUsers (VArr l');;
  displayPetInfo petObj;;
  (* document.getElementById('pet-form').reset(): what the inputs of the
     form go back to is decided by the markup of the page *)
  update_element "pet-form" (fun e => e).

Definition with_tasks (ts : list ReaderTask) (j : SaveJob) : SaveJob :=
  mkJob (job_user j) (job_name j) (job_desc j) (job_vetObj j) (job_photos j) ts (job_done j).
Definition with_vetObj (v : JSVal) (j : SaveJob) : SaveJob :=
  mkJob (job_user j) (job_name j) (job_desc j) v (job_photos j) (job_tasks j) (job_done j).
Definition with_photos (ps : list JSVal) (j : SaveJob) : SaveJob :=
  mkJob (job_user j) (job_name j) (job_desc j) (job_vetObj j) ps (job_tasks j) (job_done j).
Definition with_done (j : SaveJob) : SaveJob :=
  mkJob (job_user j) (job_name j) (job_desc j) (job_vetObj j) (job_photos j) (job_tasks j) true.

Definition is_loaded (t : ReaderTask) : bool :=
  match task_state t with Loaded => true | _ => false end.

(** A rejection of the promise that [then] returns is handled by nobody:
    the exception ends the callback and goes no further. *)
Definition unhandled (m : M unit) : M unit := fun w =>
  match m w with
  | Throw _ w' => Ok tt w'
  | o => o
  end.

(** [Promise.all(readerTasks).then]: once every reader task of save [j]
    has resolved, the callback runs, as a microtask: after the listener
    that resolved the last task has returned, and before any other event
    is handled. *)
Definition settle (j : nat) : M unit :=
  js ← gets saves;
  match js !! j with
  | Some job =>
      if forallb is_loaded (job_tasks job) && negb (job_done job) then
        modify (set_saves (fun js => <[j := with_done job]> js));;
        unhandled (save_callback job)
      else mret tt
  | None => mret tt
  end.

Definition savePetInfo (user : JSVal) : M unit :=
  rawName ← input_value "pet-name";
  let name := trim rawName in
  rawDesc ← input_value "pet-desc";
  let desc := trim rawDesc in
  errorEl ← getElementById "pet-error";
  (if errorEl is Some _ then set_textContent "pet-error" EmptyString else mret tt);;
  if is_empty name || is_empty desc then
    if errorEl is Some _ then set_textContent "pet-error" msg_pet_required else mret tt
  else
    vetFiles ← input_files "pet-vet";
    let vetTasks := match vetFiles with
                    | f :: _ => [mkTask Certificate f Reading]
                    | [] => []
                    end in
    photoFiles ← input_files "pet-photos";
    let photoTasks := map (fun f => mkTask Photo f Reading) photoFiles in
    modify (set_saves (fun js =>
      (js ++ [mkJob user name desc VNull [] (vetTasks ++ photoTasks) false])%list)).

(** The submit listener of the pet form, [savePetInfo(user)], and the
    microtasks that follow it: the save it has started is the last one,
    and its callback runs at once when it has no file to read. *)
Definition submit_pet (user : JSVal) : M unit :=
  js ← gets saves;
  savePetInfo user;;
  settle (length js).

(** [fr.onload] of reader task [i] of save [j]. *)
Definition file_loaded (j i : nat) : M unit :=
  js ← gets saves;
  match js !! j with
  | Some job =>
      match job_tasks job !! i with
      | Some t =>
          match task_state t with
          | Reading =>
              let rec := file_record (task_file t) in
              let job1 := match task_kind t with
                          | Certificate => with_vetObj rec job
                          | Photo => with_photos (job_photos job ++ [rec])%list job
                          end in
              let job2 :=
                with_tasks (<[i := mkTask (task_kind t) (task_file t) Loaded]> (job_tasks job)) job1 in
              modify (set_saves (fun js => <[j := job2]> js));;
              settle j
          | _ => mret tt
          end
      | None => mret tt
      end
  | None => mret tt
  end.

(** The read of task [i] of save [j] fails: the reader has no [onerror]
    handler and its promise stays pending. *)
Definition file_failed (j i : nat) : M unit :=
  js ← gets saves;
  match js !! j with
  | Some job =>
      match job_tasks job !! i with
      | Some t =>
          match task_state t with
          | Reading =>
              modify (set_saves (fun js =>
                <[j := with_tasks (<[i := mkTask (task_kind t) (task_file t) Failed]> (job_tasks job)) job]> js))
          | _ => mret tt
          end
      | None => mret tt
      end
  | None => mret tt
  end.

Definition addEventListener (id : string) (l : Listener) : M unit :=
  modify (set_listeners (fun ls => (ls ++ [(id, l)])%list)).

Definition euro : string := " €".

Definition loadDashboard : M unit :=
  email ← getCurrentUserEmail;
  match email with
  | None => navigate "login.html"
  | Some e =>
      if is_empty e then navigate "login.html"
      else
        user ← findUser e;
        if negb (truthy user) then navigate "login.html"
        else
          fundEl ← getElementById "fund-value";
          (if fundEl is Some _ then
             fund ← get_prop user "fund";
             t ← call_toFixed fund;
             set_textContent "fund-value" (t +:+ euro)
           else mret tt);;
          pet ← get_prop user "pet";
          (if truthy pet then displayPetInfo pet else mret tt);;
          petForm ← getElementById "pet-form";
          (if petForm is Some _ then addEventListener "pet-form" (OnSubmitPet user)
           else mret tt);;
          logoutBtn ← getElementById "logout-btn";
          if logoutBtn is Some _ then addEventListener "logout-btn" OnLogout
          else mret tt
  end.

(** *** The listing *)

Definition placeholder : string := "images/real2.jpg".

Definition card_image (pet : JSVal) : M JSVal :=
  photos ← get_prop pet "photos";
  if truthy photos then
    len ← get_prop photos "length";
    some ← gt_zero len;
    if some : bool then
      first ← get_first photos;
      get_prop first "data"
    else mret (VStr placeholder)
  else mret (VStr placeholder).

Definition dog_card (user pet : JSVal) : M Node :=
  src ← card_image pet;
  name ← get_prop pet "name";
  description ← get_prop pet "description";
  fund ← get_prop user "fund";
  amount ← call_toFixed fund;
  mret (Elem "div" [("className", VStr "card")]
          [Elem "img" [("src", src); ("alt", name)] [];
           Elem "div" [("className", VStr "card-content")]
             [Elem "h3" [("textContent", name)] [];
              Elem "p" [("textContent", description)] [];
              Elem "p" [("className", VStr "fund");
                        ("textContent", VStr ("Cagnotte: " +:+ amount +:+ euro))] []]]).

(** [users.forEach(user => ...)], threading [count]. *)
Fixpoint dogs_loop (l : list JSVal) (count : nat) : M nat :=
  match l with
  | [] => mret count
  | user :: r =>
      pet ← get_prop user "pet";
      if truthy pet then
        card ← dog_card user pet;
        appendChild "dogs-container" card;;
        dogs_loop r (S count)
      else dogs_loop r count
  end.

Definition loadDogsPage : M unit :=
  container ← getElementById "dogs-container";
  match container with
  | None => mret tt
  | Some _ =>
      users ← getUsers;
      l ← as_array users;
      count ← dogs_loop l 0;
      messageEl ← getElementById "no-dogs-message";
      match messageEl with
      | Some _ =>
          update_element "no-dogs-message"
            (with_display (if Nat.eqb count 0 then "block" else "none"))
      | None => mret tt
      end
  end.

(** *** DOMContentLoaded *)

Definition when_present (id : string) (m : M unit) : M unit :=
  el ← getElementById id;
  if el is Some _ then m else mret tt.

Definition main : M unit :=
  when_present "signup-form" (addEventListener "signup-form" OnSignup);;
  when_present "login-form" (addEventListener "login-form" OnLogin);;
  when_present "dashboard-page" loadDashboard;;
  when_present "dogs-page" loadDogsPage.

Definition run_listener (l : Listener) : M unit :=
  match l with
  | OnSignup => handleSignup
  | OnLogin => handleLogin
  | OnSubmitPet user => submit_pet user
  | OnLogout => logout
  end.

(** ** Events of the page *)

Inductive Event : Type :=
  | EvLoad (doc : gmap string Element)
  | EvInput (id : string) (v : string)
  | EvSelect (id : string) (fs : list File)
  | EvFire (n : nat)
  | EvFileLoad (j i : nat)
  | EvFileError (j i : nat).

(** A page of the site is opened: a new document, no listener, no save
    in progress, and the DOMContentLoaded listener of the script runs. *)
Definition load_page (doc : gmap string Element) : M unit :=
  modify (fun w => mkWorld (localStorage w) doc (console w) (navigations w) [] []);;
  main.

Definition with_value (v : string) (e : Element) : Element :=
  mkElement v (files e) (textContent e) (style_display e) (childNodes e).
Definition with_files (fs : list File) (e : Element) : Element :=
  mkElement (value e) fs (textContent e) (style_display e) (childNodes e).

(** The visitor fills a field or picks files: nothing happens when the
    page has no such element. *)
Definition edit_element (id : string) (f : Element -> Element) : M unit :=
  modify (set_document (fun d => alter f id d)).

(** The event the [n]-th registered listener waits for. *)
Definition fire (n : nat) : M unit :=
  ls ← gets listeners;
  match ls !! n with
  | Some (_, l) => run_listener l
  | None => mret tt
  end.

Definition handle (ev : Event) : M unit :=
  match ev with
  | EvLoad doc => load_page doc
  | EvInput id v => edit_element id (with_value v)
  | EvSelect id fs => edit_element id (with_files fs)
  | EvFire n => fire n
  | EvFileLoad j i => file_loaded j i
  | EvFileError j i => file_failed j i
  end.

(** An exception that a listener lets escape ends that listener; the
    page goes on with the world as it is. *)
Definition step (ev : Event) (w : World) : option World :=
  final_world (handle ev w).

Fixpoint run (evs : list Event) (w : World) : option World :=
  match evs with
  | [] => Some w
  | ev :: r =>
      match step ev w with
      | Some w' => run r w'
      | None => None
      end
  end.

Definition initial : World := mkWorld ∅ ∅ [] [] [] [].

Inductive reachable : World -> Prop :=
  | reach_initial : reachable initial
  | reach_step w ev w' : reachable w -> step ev w = Some w' -> reachable w'.

(** ** The accounts behind the stored array *)

(** A pet profile: name, description, certificate and photos, each file
    record being the [File] it was read from.  The encodings below spell
    out the JSON objects that the storage is expected to hold; they do
    not go through the functions of the script. *)
Record Pet : Type := mkPet {
  pet_name : string;
  pet_description : string;
  pet_vetFile : option File;
  pet_photos : list File
}.

Record Account : Type := mkAccount {
  acc_email : string;
  acc_password : string;
  acc_fund : Number;
  acc_pet : option Pet
}.

(** The record [{name, data}] of a file that has been read. *)
Definition encode_file (f : File) : JSVal :=
  VObj [("name", VStr (file_name f)); ("data", VStr (file_dataURL f))].

Definition encode_vet (f : option File) : JSVal := from_option encode_file VNull f.

Definition encode_pet (p : Pet) : JSVal :=
  VObj [("name", VStr (pet_name p)); ("description", VStr (pet_description p));
        ("vetFile", encode_vet (pet_vetFile p));
        ("photos", VArr (encode_file <$> pet_photos p))].

Definition encode_account (a : Account) : JSVal :=
  VObj [("email", VStr (acc_email a)); ("password", VStr (acc_password a));
        ("fund", VNum (acc_fund a));
        ("pet", from_option encode_pet VNull (acc_pet a))].

Definition with_pet (p : Pet) (a : Account) : Account :=
  mkAccount (acc_email a) (acc_password a) (acc_fund a) (Some p).

(** The key [users] is absent and there is no account yet, or it holds
    the array of the accounts as [setUsers] writes it. *)
Definition stored (w : World) (accts : list Account) : Prop :=
  match localStorage w !! "users" with
  | None => accts = []
  | Some text => text = JSON.stringify (VArr (encode_account <$> accts))
  end.

(** An identifier as registration stores it: what the engine answers
    when an input is trimmed, then lower-cased. *)
Definition normalized (s : string) : Prop := exists raw, s = toLowerCase (trim raw).

Definition account_ok (a : Account) : Prop :=
  normalized (acc_email a) /\ acc_email a <> EmptyString /\ acc_fund a = of_Z 4.

(** The variables of a save hold what the readers have put there. *)
Definition job_ok (j : SaveJob) : Prop :=
  exists (vet : option File) (photos : list File),
    job_vetObj j = encode_vet vet /\ job_photos j = encode_file <$> photos.

Record Inv (w : World) (accts : list Account) : Prop := mkInv {
  inv_stored : stored w accts;
  inv_unique : NoDup (acc_email <$> accts);
  inv_accounts : Forall account_ok accts;
  inv_saves : Forall job_ok (saves w)
}.

(** The first account with the identifier [email]. *)
Definition find_account (email : string) (accts : list Account) : option Account :=
  List.find (fun a => String.eqb (acc_email a) email) accts.

(** A law of the lower-case mapping of Unicode: lower-casing twice is
    lower-casing once. *)
Definition lower_idempotent : Prop :=
  forall s, toLowerCase (toLowerCase s) = toLowerCase s.

(** The first account whose identifier is [email] up to letter case:
    the two are equal once lower-cased by the engine. *)
Definition find_ignoring_case (email : string) (accts : list Account) : option Account :=
  List.find (fun a => String.eqb (toLowerCase (acc_email a)) (toLowerCase email)) accts.

Definition has_value (w : World) (id v : string) : Prop :=
  exists e, document w !! id = Some e /\ value e = v.

Definition has_files (w : World) (id : string) (fs : list File) : Prop :=
  exists e, document w !! id = Some e /\ files e = fs.

Definition text_of (w : World) (id : string) : option string :=
  textContent <$> document w !! id.

(** ** Notions the properties are stated with *)

(** What may follow a value inside a JSON text. *)
Definition ends_value (rest : string) : bool :=
  match rest with
  | EmptyString => true
  | String c _ => Ascii.eqb c "," || Ascii.eqb c "]" || Ascii.eqb c "}"
  end.

(** The first character of a value is neither white space nor a closing
    bracket. *)
Definition starts_value (t : string) : bool :=
  match t with
  | EmptyString => false
  | String c _ => negb (is_ws c) && negb (Ascii.eqb c "]") && negb (Ascii.eqb c "}")
  end.

(** A number whose text [JSON.parse] reads back as the same number. *)
Definition number_ok (n : Number) : Prop :=
  starts_value (JSNumber.toString n) = true /\
  forall f rest, ends_value rest = true ->
    parse_value (S f) (JSNumber.toString n +:+ rest) = POk (VNum n) rest.

(** The values that [JSON.stringify] writes in full: no [undefined], no
    property named twice. *)
#[warnings="-register-all"] Inductive json_wf : JSVal -> Prop :=
  | wf_null : json_wf VNull
  | wf_bool b : json_wf (VBool b)
  | wf_num n : number_ok n -> json_wf (VNum n)
  | wf_str s : json_wf (VStr s)
  | wf_arr l : Forall json_wf l -> json_wf (VArr l)
  | wf_obj ps : NoDup ps.*1 -> Forall (fun p => json_wf p.2) ps -> json_wf (VObj ps).

(** The property the round trip is proved by induction for. *)
Definition roundtrips (v : JSVal) : Prop :=
  exists t, serialize v = Some t /\ starts_value t = true /\
    forall fuel rest, ends_value rest = true ->
      (2 * String.length (t +:+ rest) < fuel)%nat ->
      parse_value fuel (t +:+ rest) = POk v rest.

Definition text_of_value (x : JSVal) : string := default "null" (serialize x).

Definition elements_text (l : list JSVal) : string :=
  String.concat "," (text_of_value <$> l).

Definition member_text (p : string * JSVal) : string :=
  quote p.1 +:+ String ":" (text_of_value p.2).

Definition members_text (ps : list (string * JSVal)) : string :=
  String.concat "," (member_text <$> ps).

Definition consumes {A} (res : PResult A) (s : string) : Prop :=
  res <> POutOfFuel /\
  forall a r, res = POk a r -> (String.length r < String.length s)%nat.

(** The stored accounts and the saves in progress are the same in [w']
    as in [w]. *)
Definition frame (w w' : World) : Prop :=
  localStorage w' !! "users" = localStorage w !! "users" /\ saves w' = saves w.

Definition framed {A : Type} (m : M A) : Prop :=
  forall w, match m w with
            | Ok _ w' | Throw _ w' => frame w w'
            | Beyond => True
            end.

(** [get_prop] does not depend on the world. *)
Definition prop_of (v : JSVal) (k : string) : option JSVal :=
  match v with
  | VUndef | VNull => None
  | VObj ps => Some (obj_get k ps)
  | VArr l =>
      Some (if String.eqb k "length" then VNum (of_Z (Z.of_nat (length l))) else VUndef)
  | VStr s =>
      Some (if String.eqb k "length" then VNum (of_Z (Z.of_nat (String.length s))) else VUndef)
  | VBool _ | VNum _ => Some VUndef
  end.

Definition preserves {A : Type} (m : M A) : Prop :=
  forall w accts w', Inv w accts -> final_world (m w) = Some w' ->
  exists accts', Inv w' accts'.

Definition photo_node (f : File) : Node :=
  Elem "img" [("src", VStr (file_dataURL f)); ("alt", VStr (file_name f))] [].

(** The nodes [displayPetInfo] puts under the element [pet-info]. *)
Definition render_pet (p : Pet) : list Node :=
  [Elem "h3" [("textContent", VStr (pet_name p))] [];
   Elem "p" [("textContent", VStr (pet_description p))] []]
  ++ match pet_vetFile p with
     | Some f =>
         [Elem "a" [("href", VStr (file_dataURL f)); ("download", VStr (file_name f));
                    ("textContent", VStr "Télécharger le certificat vétérinaire");
                    ("style.display", VStr "block");
                    ("style.marginBottom", VStr "0.5rem")] []]
     | None => []
     end
  ++ match pet_photos p with
     | [] => []
     | fs => [Elem "div" [("className", VStr "pet-photos")] (photo_node <$> fs)]
     end.

Definition job_pet (job : SaveJob) (vet : option File) (photos : list File) : Pet :=
  mkPet (job_name job) (job_desc job) vet photos.

(** The index [findIndex] answers over the stored accounts. *)
Fixpoint index_of (mine : JSVal) (accts : list Account) (i : nat) : option nat :=
  match accts with
  | [] => None
  | a :: r => if strict_eq (VStr (acc_email a)) mine then Some i else index_of mine r (S i)
  end.

(** The part of [handleSignup] that follows the validation of the
    fields. *)
Definition register (email password : string) : M unit :=
  users ← getUsers;
  l ← as_array users;
  taken ← array_some (email_is (VStr email)) l;
  if taken : bool then set_textContent "signup-error" msg_exists
  else
    setUsers (VArr (l ++ [new_user email password])%list);;
    setCurrentUserEmail email;;
    navigate "dashboard.html".

(** The account that a registration with [email] and [password]
    creates: a fund of 4, no pet. *)
Definition registered (email password : string) : Account :=
  mkAccount email password (of_Z 4) None.

(** The world after a successful registration. *)
Definition signed_up (email password : string) (accts : list Account) (w : World) : World :=
  set_navigations (fun l => (l ++ ["dashboard.html"])%list)
    (set_localStorage (insert "currentUser" email)
       (set_localStorage
          (insert "users"
             (JSON.stringify (VArr (encode_account <$> (accts ++ [registered email password])%list))))
          w)).

(** The world once [msg] is shown in the element [id]. *)
Definition shows (id msg : string) (el : Element) (w : World) : World :=
  set_document (insert id (with_textContent msg el)) w.

(** The world after a successful login. *)
Definition logged_in (email : string) (w : World) : World :=
  set_navigations (fun l => (l ++ ["dashboard.html"])%list)
    (set_localStorage (insert "currentUser" email) w).

Definition parse_error_logged (w : World) : World :=
  set_console (fun l => (l ++ ["Error parsing users from localStorage"])%list) w.

Definition credentials_match (accts : list Account) (email pw : string) : Prop :=
  exists a, a ∈ accts /\ acc_email a = email /\ acc_password a = pw.

(** The handler ends by showing [msg]; nothing else of the world
    changes. *)
Definition rejected (msg : string) (el : Element) (w w' : World) : Prop :=
  w' = shows "signup-error" msg el w.

Definition card_src (p : Pet) : string :=
  match pet_photos p with
  | f :: _ => file_dataURL f
  | [] => placeholder
  end.

(** The card of the account [a] with the profile [p]. *)
Definition pet_card (a : Account) (p : Pet) : Node :=
  Elem "div" [("className", VStr "card")]
    [Elem "img" [("src", VStr (card_src p)); ("alt", VStr (pet_name p))] [];
     Elem "div" [("className", VStr "card-content")]
       [Elem "h3" [("textContent", VStr (pet_name p))] [];
        Elem "p" [("textContent", VStr (pet_description p))] [];
        Elem "p" [("className", VStr "fund");
                  ("textContent", VStr ("Cagnotte: " +:+ toFixed 2 (acc_fund a) +:+ euro))] []]].

Definition dog_cards (accts : list Account) : list Node :=
  omap (fun a => pet_card a <$> acc_pet a) accts.

(** What [fr.onload] of the reader task [t], number [i], does to the
    variables of its save. *)
Definition load_task (i : nat) (t : ReaderTask) (job : SaveJob) : SaveJob :=
  with_tasks (<[i := mkTask (task_kind t) (task_file t) Loaded]> (job_tasks job))
    (match task_kind t with
     | Certificate => with_vetObj (encode_file (task_file t)) job
     | Photo => with_photos (job_photos job ++ [encode_file (task_file t)])%list job
     end).

Definition fail_task (i : nat) (t : ReaderTask) (job : SaveJob) : SaveJob :=
  with_tasks (<[i := mkTask (task_kind t) (task_file t) Failed]> (job_tasks job)) job.

(** The events of the readers of the save number [j]. *)
Definition for_save (j : nat) (ev : Event) : Prop :=
  match ev with
  | EvFileLoad j' _ | EvFileError j' _ => j' = j
  | _ => False
  end.

(** What holds of the save [j] while the events of its readers come in,
    in any order: as long as a task is not loaded the storage is the one
    of the start, [w0], and the callback has not run; a task that has
    failed stays failed. *)
Record waiting (w0 : World) (job0 : SaveJob) (j : nat) (w : World) : Prop := mkWaiting {
  waiting_inv : exists accts, Inv w accts;
  waiting_job : exists job, saves w !! j = Some job /\
    (forallb is_loaded (job_tasks job) = true \/
     (job_done job = false /\ localStorage w = localStorage w0)) /\
    (forall i t, job_tasks job0 !! i = Some t -> task_state t = Failed ->
                 job_tasks job !! i = Some t)
}.

(** The file of task [i] when it is a photo. *)
Definition photo_of (tasks : list ReaderTask) (i : nat) : option File :=
  t ← tasks !! i;
  match task_kind t with
  | Photo => Some (task_file t)
  | Certificate => None
  end.

(** The photos among the tasks that complete in the order [order], in
    that order. *)
Definition photo_files (tasks : list ReaderTask) (order : list nat) : list File :=
  omap (photo_of tasks) order.

(** [readerTasks] as [savePetInfo] fills it: the certificate first, when
    one is selected, then the photos in the order of the selection. *)
Definition reader_tasks (vetFiles photoFiles : list File) : list ReaderTask :=
  (match vetFiles with
   | f :: _ => [mkTask Certificate f Reading]
   | [] => []
   end ++ map (fun f => mkTask Photo f Reading) photoFiles)%list.

Definition new_job (user : JSVal) (rawName rawDesc : string)
    (vetFiles photoFiles : list File) : SaveJob :=
  mkJob user (trim rawName) (trim rawDesc) VNull [] (reader_tasks vetFiles photoFiles) false.

Definition blank : Element := mkElement EmptyString [] EmptyString EmptyString [].

Definition page (ids : list string) : gmap string Element :=
  list_to_map (map (fun id => (id, blank)) ids).

Definition field (v : string) : Element := mkElement v [] EmptyString EmptyString [].
Definition picker (fs : list File) : Element := mkElement EmptyString fs EmptyString EmptyString [].

Definition signup_page (email password confirm : string) : gmap string Element :=
  <["signup-email" := field email]>
    (<["signup-password" := field password]>
       (<["signup-confirm" := field confirm]> (page ["signup-form"; "signup-error"]))).

Definition login_page (email password : string) : gmap string Element :=
  <["login-email" := field email]>
    (<["login-password" := field password]> (page ["login-form"; "login-error"])).

Definition dogs_page : gmap string Element :=
  page ["dogs-page"; "dogs-container"; "no-dogs-message"].

Definition dashboard_page : gmap string Element :=
  page ["dashboard-page"; "fund-value"; "pet-form"; "pet-name"; "pet-desc";
        "pet-vet"; "pet-photos"; "pet-error"; "pet-info"; "logout-btn"].

Definition photo_a : File := mkFile "a.png" "data:image/png;base64,AAAA".
Definition photo_b : File := mkFile "b.png" "data:image/png;base64,BBBB".
Definition certificate : File := mkFile "vet.pdf" "data:application/pdf;base64,CCCC".

Definition alice : Account := mkAccount "a@x.com" "pw1" (of_Z 4) None.
Definition old_pet : Pet := mkPet "Rex" "old" (Some certificate) [photo_a].
Definition alice_with_pet : Account := with_pet old_pet alice.
Definition bob : Account := mkAccount "b@x.com" "pw2" (of_Z 4) None.
Definition emile : Account := mkAccount "émile@x.com" "pw3" (of_Z 4) None.

(** A world whose storage holds the accounts [accts], on the page
    [doc]. *)
Definition world_of (accts : list Account) (doc : gmap string Element)
    (js : list SaveJob) : World :=
  mkWorld (<["users" := JSON.stringify (VArr (encode_account <$> accts))]> ∅) doc [] [] [] js.

(** A save of alice's dashboard: a certificate and two photos. *)
Definition alice_job : SaveJob :=
  new_job (encode_account alice_with_pet) " Rex " "good dog" [certificate] [photo_a; photo_b].

(** The visit: register, open the dashboard, fill the pet form with a
    certificate and two photos, submit; the reads then complete, the
    second photo first. *)
Definition visit : list Event :=
  [EvLoad (signup_page "  A@X.com " "pw1" "pw1"); EvFire 0;
   EvLoad dashboard_page;
   EvInput "pet-name" " Rex "; EvInput "pet-desc" "good dog";
   EvSelect "pet-vet" [certificate]; EvSelect "pet-photos" [photo_a; photo_b];
   EvFire 0;
   EvFileLoad 0 2; EvFileLoad 0 0; EvFileLoad 0 1].

Definition visited : World := default initial (run visit initial).

Definition new_pet_job : SaveJob :=
  mkJob (encode_account alice) "Rex" "good dog" VNull [encode_file photo_b] [] false.

(** ** Notions the further properties are stated with *)

(** The world once the session is [e]. *)
Definition with_session (e : string) (w : World) : World :=
  set_localStorage (insert "currentUser" e) w.

(** The world after a redirection to [url]. *)
Definition redirected (url : string) (w : World) : World :=
  set_navigations (fun l => (l ++ [url])%list) w.

(** The number of nodes [displayPetInfo] puts under [pet-info]. *)
Definition render_size (p : Pet) : nat :=
  (2 + (if pet_vetFile p is Some _ then 1 else 0)
     + (if pet_photos p is [] then 0 else 1))%nat.

(** The save that a submit without any file starts, once its callback
    has run. *)
Definition done_job (user : JSVal) (rawName rawDesc : string) : SaveJob :=
  with_done (new_job user rawName rawDesc [] []).

(** The world a page load starts from: the storage, the console and the
    history are kept, the document is new. *)
Definition opened (doc : gmap string Element) (w : World) : World :=
  mkWorld (localStorage w) doc (console w) (navigations w) [] [].

(** The listeners [main] registers on a page that is neither the
    dashboard nor the listing. *)
Definition form_listeners (doc : gmap string Element) : list (string * Listener) :=
  ((if doc !! "signup-form" is Some _ then [("signup-form", OnSignup)] else [])
   ++ (if doc !! "login-form" is Some _ then [("login-form", OnLogin)] else []))%list.

(** The world after the registration page is opened and its form
    submitted with an identifier that is free. *)
Definition just_registered (raw pw : string) (accts : list Account) (w : World) : World :=
  signed_up (toLowerCase (trim raw)) pw accts
    (shows "signup-error" EmptyString blank
       (set_listeners (fun ls => (ls ++ [("signup-form", OnSignup)])%list)
          (opened (signup_page raw pw pw) w))).

(** What no handler changes of an account once it is stored. *)
Definition credentials (a : Account) : string * string * Number :=
  (acc_email a, acc_password a, acc_fund a).

(** The session, when there is one, is the identifier of a stored
    account. *)
Definition session_ok (w : World) (accts : list Account) : Prop :=
  forall e, localStorage w !! "currentUser" = Some e -> e ∈ acc_email <$> accts.

Record Sound (w : World) (accts : list Account) : Prop := mkSound {
  sound_inv : Inv w accts;
  sound_session : session_ok w accts
}.

(** The accounts [accts'] are the accounts [accts], with the same
    credentials, followed by those registered since. *)
Definition grows (accts accts' : list Account) : Prop :=
  (credentials <$> accts) `prefix_of` (credentials <$> accts').

(** A handler that writes neither to the storage nor to the saves,
    whether it returns or throws. *)
Definition quiet {A : Type} (m : M A) : Prop :=
  forall w, match m w with
            | Ok _ w' | Throw _ w' => localStorage w' = localStorage w /\ saves w' = saves w
            | Beyond => True
            end.

(** A handler that ends, by returning or by throwing, in every world. *)
Definition defined {A : Type} (m : M A) : Prop := forall w, m w <> Beyond.

Definition keeps {A : Type} (m : M A) : Prop :=
  forall w accts, Sound w accts ->
  exists w' accts', final_world (m w) = Some w' /\ Sound w' accts' /\ grows accts accts'.

(** The file of a task when it is the certificate. *)
Definition vet_file (t : ReaderTask) : option File :=
  match task_kind t with
  | Certificate => Some (task_file t)
  | Photo => None
  end.

(** The variable [vetObj] once the tasks of [order] have completed, in
    that order: the file of the last certificate among them, or what it
    held before. *)
Definition vet_after (tasks : list ReaderTask) (vet0 : option File) (order : list nat)
  : option File :=
  foldl (fun v i => from_option Some v (tasks !! i ≫= vet_file)) vet0 order.

(** The file of a task when it is a photo. *)
Definition photo_file (t : ReaderTask) : option File :=
  match task_kind t with
  | Photo => Some (task_file t)
  | Certificate => None
  end.

(** The dashboard page with its pet form filled. *)
Definition pet_form (name desc : string) (vet photos : list File) : gmap string Element :=
  <["pet-name" := field name]>
    (<["pet-desc" := field desc]>
       (<["pet-vet" := picker vet]> (<["pet-photos" := picker photos]> dashboard_page))).

(** A world whose key [users] holds the text [text]. *)
Definition world_with_text (text : string) (doc : gmap string Element) : World :=
  mkWorld (<["users" := text]> ∅) doc [] [] [] [].

(** A save of bob's dashboard, bob being no stored account. *)
Definition bob_job : SaveJob :=
  mkJob (encode_account bob) "Rex" "good dog" VNull [] [] false.


End Script.

(** ** A sample engine *)

(** An engine to run the examples with: the engine of a browser, on text
    whose letters are those of ASCII and of Latin-1.  [trim] strips the
    white space and the line terminators of Unicode, in their UTF-8
    encoding; [toLowerCase] maps [A-Z] and the capital letters U+00C0 to
    U+00DE, the only capital letters such a text has; and a string
    converts to the number it writes in the notation of JSON. *)
Module Sample.

Definition bytes (l : list N) : string :=
  fold_right (fun n s => String (ascii_of_N n) s) EmptyString l.

(** WhiteSpace and LineTerminator: TAB, LF, VT, FF, CR, SPACE, U+00A0,
    U+1680, U+2000 to U+200A, U+2028, U+2029, U+202F, U+205F, U+3000 and
    U+FEFF. *)
Definition white_space : list string :=
  (bytes <$> [[9]; [10]; [11]; [12]; [13]; [32]; [194; 160]; [225; 154; 128]])
  ++ ((fun k => bytes [226; 128; k]) <$> [128; 129; 130; 131; 132; 133; 134; 135; 136; 137; 138])
  ++ (bytes <$> [[226; 128; 168]; [226; 128; 169]; [226; 128; 175]; [226; 129; 159];
                 [227; 128; 128]; [239; 187; 191]]).

Fixpoint drop_prefix (p s : string) : option string :=
  match p, s with
  | EmptyString, _ => Some s
  | String a p', String b s' => if Ascii.eqb a b then drop_prefix p' s' else None
  | String _ _, EmptyString => None
  end.

(** [s] without the character of [ws] it starts with, if it starts with
    one. *)
Fixpoint drop_space (ws : list string) (s : string) : option string :=
  match ws with
  | [] => None
  | p :: r =>
      match drop_prefix p s with
      | Some t => Some t
      | None => drop_space r s
      end
  end.

Fixpoint drop_spaces (ws : list string) (fuel : nat) (s : string) : string :=
  match fuel with
  | O => s
  | S f =>
      match drop_space ws s with
      | Some t => drop_spaces ws f t
      | None => s
      end
  end.

Fixpoint reverse_onto (s acc : string) : string :=
  match s with
  | EmptyString => acc
  | String c r => reverse_onto r (String c acc)
  end.

Definition reverse (s : string) : string := reverse_onto s EmptyString.

Definition trimStart (s : string) : string :=
  drop_spaces white_space (String.length s) s.

Definition trimEnd (s : string) : string :=
  reverse (drop_spaces (reverse <$> white_space) (String.length s) (reverse s)).

Definition trim (s : string) : string := trimEnd (trimStart s).

Definition is_upper (c : ascii) : bool :=
  let n := N_of_ascii c in (65 <=? n) && (n <=? 90).

Definition lower_ascii (c : ascii) : ascii :=
  if is_upper c then ascii_of_N (N_of_ascii c + 32) else c.

(** After the byte 195, the second byte of a capital letter of Latin-1:
    U+00C0 to U+00DE, the multiplication sign U+00D7 excepted. *)
Definition is_upper_latin1 (c : ascii) : bool :=
  let n := N_of_ascii c in (128 <=? n) && (n <=? 158) && negb (n =? 151).

(** [after_lead] tells that the unit before was the byte 195. *)
Fixpoint lower_from (after_lead : bool) (s : string) : string :=
  match s with
  | EmptyString => EmptyString
  | String c r =>
      if after_lead && is_upper_latin1 c
      then String (ascii_of_N (N_of_ascii c + 32)) (lower_from false r)
      else String (lower_ascii c) (lower_from (N_of_ascii c =? 195) r)
  end.

Definition toLowerCase (s : string) : string := lower_from false s.

(** Whether [v], inside an array or alone, converts to a number above
    zero: an array converts as the text of its elements joined by
    commas, an object as [[object Object]]. *)
Fixpoint above_zero (v : JSVal) : bool :=
  match v with
  | VNum n => (0 <? mant n)%Z
  | VStr s =>
      match JSON.parse (trim s) with
      | Some (VNum n) => (0 <? mant n)%Z
      | _ => false
      end
  | VArr [x] => above_zero x
  | _ => false
  end.

End Sample.

Definition sample_engine : Engine :=
  mkEngine Sample.trim Sample.toLowerCase Sample.above_zero.

(** The no-break space U+00A0. *)
Definition nbsp : string := Sample.bytes [194; 160].

(** * Properties *)

Arguments JSON.parse : simpl never.
Arguments JSON.stringify : simpl never.

(** ** Strings *)

Ltac each_ascii c := destruct c as [[] [] [] [] [] [] [] []].

Section StringFacts.

Lemma app_String c (a b : string) : String c a +:+ b = String c (a +:+ b).
Proof. reflexivity. Qed.

Lemma app_Empty (b : string) : EmptyString +:+ b = b.
Proof. reflexivity. Qed.

Lemma app_assoc_s (a b c : string) : (a +:+ b) +:+ c = a +:+ (b +:+ c).
Proof.
  induction a as [|x a IH]; [reflexivity|].
  rewrite !app_String. now rewrite IH.
Qed.

Lemma app_empty_r (a : string) : a +:+ EmptyString = a.
Proof.
  induction a as [|x a IH]; [reflexivity|].
  rewrite app_String. now rewrite IH.
Qed.

Lemma length_app_s (a b : string) :
  String.length (a +:+ b) = (String.length a + String.length b)%nat.
Proof.
  induction a as [|x a IH]; [reflexivity|].
  rewrite app_String. simpl. now rewrite IH.
Qed.

Lemma is_empty_true s : is_empty s = true <-> s = EmptyString.
Proof. destruct s; simpl; split; congruence. Qed.

Lemma is_empty_false s : is_empty s = false <-> s <> EmptyString.
Proof. destruct s; simpl; split; congruence. Qed.

End StringFacts.

Section Normalized.

Context {engine : Engine}.

(** What registration and login compute from the typed identifier is
    trimmed and lower-cased. *)
Lemma normalized_normalize raw : normalized (toLowerCase (trim raw)).
Proof. now exists raw. Qed.

(** Where lower-casing twice is lower-casing once, a normalized
    identifier is its own lower case. *)
Lemma normalized_lower s :
  (forall x, toLowerCase (toLowerCase x) = toLowerCase x) ->
  normalized s -> toLowerCase s = s.
Proof. intros Hidem [raw ->]. apply Hidem. Qed.

End Normalized.

Ltac sapp :=
  repeat first [rewrite app_String | rewrite app_assoc_s | rewrite app_Empty].
Ltac slen :=
  repeat first [progress rewrite ?length_app_s in * | progress simpl String.length in *].
Ltac sapp_in H :=
  repeat first [rewrite app_String in H | rewrite app_assoc_s in H | rewrite app_Empty in H].

Section JSONFacts.

Lemma JSVal_nested_ind (P : JSVal -> Prop) :
  P VUndef -> P VNull -> (forall b, P (VBool b)) -> (forall n, P (VNum n)) ->
  (forall s, P (VStr s)) ->
  (forall l, Forall P l -> P (VArr l)) ->
  (forall ps, Forall (fun p => P p.2) ps -> P (VObj ps)) ->
  forall v, P v.
Proof.
  intros Hu Hn Hb Hnum Hs Ha Ho. fix IH 1. intros [| |b|n|s|l|ps].
  - exact Hu.
  - exact Hn.
  - apply Hb.
  - apply Hnum.
  - apply Hs.
  - apply Ha. induction l as [|x l IHl]; constructor; [apply IH | exact IHl].
  - apply Ho. induction ps as [|[k x] ps IHps]; constructor; [apply IH | exact IHps].
Qed.

Lemma parse_chars_quote_char c t :
  parse_chars (quote_char c +:+ t) =
  match parse_chars t with
  | Some (s, r) => Some (String c s, r)
  | None => None
  end.
Proof. each_ascii c; reflexivity. Qed.

Lemma parse_chars_quote s rest :
  parse_chars (quote_body s +:+ String dquote rest) = Some (s, rest).
Proof.
  induction s as [|c s IH]; [reflexivity|].
  simpl quote_body. rewrite app_assoc_s, parse_chars_quote_char, IH. reflexivity.
Qed.

Lemma parse_value_S f s :
  parse_value (S f) s =
  match skip_ws s with
  | EmptyString => PSyntaxError
  | String c r =>
      if Ascii.eqb c "[" then
        match skip_ws r with
        | String c1 r1 =>
            if Ascii.eqb c1 "]" then POk (VArr []) r1
            else match parse_elements f r with
                 | POk vs rest => POk (VArr vs) rest
                 | PSyntaxError => PSyntaxError
                 | POutOfFuel => POutOfFuel
                 end
        | EmptyString => PSyntaxError
        end
      else if Ascii.eqb c "{" then
        match skip_ws r with
        | String c1 r1 =>
            if Ascii.eqb c1 "}" then POk (VObj []) r1
            else match parse_members f r with
                 | POk ms rest =>
                     POk (VObj (fold_left (fun o m => obj_set (fst m) (snd m) o) ms [])) rest
                 | PSyntaxError => PSyntaxError
                 | POutOfFuel => POutOfFuel
                 end
        | EmptyString => PSyntaxError
        end
      else if Ascii.eqb c dquote then
        match parse_chars r with
        | Some (t, rest) => POk (VStr t) rest
        | None => PSyntaxError
        end
      else if Ascii.eqb c "t" then literal "true" (VBool true) (String c r)
      else if Ascii.eqb c "f" then literal "false" (VBool false) (String c r)
      else if Ascii.eqb c "n" then literal "null" VNull (String c r)
      else
        match parse_number (String c r) with
        | Some (n, rest) => POk (VNum n) rest
        | None => PSyntaxError
        end
  end.
Proof. reflexivity. Qed.

Lemma parse_elements_S f s :
  parse_elements (S f) s =
  match parse_value f s with
  | POk v r =>
      match skip_ws r with
      | String c r1 =>
          if Ascii.eqb c "," then
            match parse_elements f r1 with
            | POk vs rest => POk (v :: vs) rest
            | e => e
            end
          else if Ascii.eqb c "]" then POk [v] r1
          else PSyntaxError
      | EmptyString => PSyntaxError
      end
  | PSyntaxError => PSyntaxError
  | POutOfFuel => POutOfFuel
  end.
Proof. reflexivity. Qed.

Lemma parse_members_S f s :
  parse_members (S f) s =
  match skip_ws s with
  | String q r =>
      if Ascii.eqb q dquote then
        match parse_chars r with
        | Some (k, r1) =>
            match skip_ws r1 with
            | String c r2 =>
                if Ascii.eqb c ":" then
                  match parse_value f r2 with
                  | POk v r3 =>
                      match skip_ws r3 with
                      | String c' r4 =>
                          if Ascii.eqb c' "," then
                            match parse_members f r4 with
                            | POk ms rest => POk ((k, v) :: ms) rest
                            | e => e
                            end
                          else if Ascii.eqb c' "}" then POk [(k, v)] r4
                          else PSyntaxError
                      | EmptyString => PSyntaxError
                      end
                  | PSyntaxError => PSyntaxError
                  | POutOfFuel => POutOfFuel
                  end
                else PSyntaxError
            | EmptyString => PSyntaxError
            end
        | None => PSyntaxError
        end
      else PSyntaxError
  | EmptyString => PSyntaxError
  end.
Proof. reflexivity. Qed.

Lemma skip_ws_start t :
  starts_value t = true -> skip_ws t = t.
Proof.
  destruct t as [|c t]; [reflexivity|]. simpl.
  destruct (is_ws c); [discriminate | reflexivity].
Qed.

Lemma starts_value_app t u :
  starts_value t = true -> starts_value (t +:+ u) = true.
Proof. destruct t; [discriminate | exact id]. Qed.

Lemma starts_value_not_close t u c r :
  starts_value t = true -> t +:+ u = String c r ->
  is_ws c = false /\ Ascii.eqb c "]" = false /\ Ascii.eqb c "}" = false.
Proof.
  destruct t as [|d t]; [discriminate|]. rewrite app_String. intros H [= -> _].
  simpl in H. destruct (is_ws c), (Ascii.eqb c "]"), (Ascii.eqb c "}"); try discriminate.
  auto.
Qed.

Lemma elements_text_one x : elements_text [x] = text_of_value x.
Proof. reflexivity. Qed.

Lemma elements_text_more x y l :
  elements_text (x :: y :: l) = text_of_value x +:+ String "," (elements_text (y :: l)).
Proof. reflexivity. Qed.

Lemma parse_elements_roundtrip l :
  forall x, Forall roundtrips (x :: l) ->
  forall fuel rest,
    (2 * String.length (elements_text (x :: l) +:+ String "]" rest) + 1 < fuel)%nat ->
    parse_elements fuel (elements_text (x :: l) +:+ String "]" rest) = POk (x :: l) rest.
Proof.
  induction l as [|y l IH]; intros x Hall fuel rest Hfuel;
    (destruct fuel as [|f]; [lia|]); rewrite parse_elements_S;
    inversion Hall as [|? ? (t & Ht & Hst & Hparse) Hrest]; subst.
  - rewrite elements_text_one in *. unfold text_of_value in *. rewrite Ht in *.
    simpl default in *.
    rewrite Hparse by (try reflexivity; lia). reflexivity.
  - rewrite elements_text_more in *. unfold text_of_value at 1.
    unfold text_of_value at 1 in Hfuel. rewrite Ht in *. simpl default in *.
    rewrite app_assoc_s, app_String in *.
    rewrite Hparse; [| reflexivity | lia].
    rewrite length_app_s in Hfuel. simpl String.length in Hfuel.
    change (skip_ws (String "," ?r)) with (String "," r).
    cbv beta iota. change (Ascii.eqb "," ",") with true. cbv iota.
    rewrite IH; [reflexivity | exact Hrest | slen; lia].
Qed.

Lemma members_text_one p : members_text [p] = member_text p.
Proof. reflexivity. Qed.

Lemma members_text_more p q ps :
  members_text (p :: q :: ps) = member_text p +:+ String "," (members_text (q :: ps)).
Proof. reflexivity. Qed.

Lemma parse_members_roundtrip ps :
  forall p, Forall (fun p => roundtrips p.2) (p :: ps) ->
  forall fuel rest,
    (2 * String.length (members_text (p :: ps) +:+ String "}" rest) + 1 < fuel)%nat ->
    parse_members fuel (members_text (p :: ps) +:+ String "}" rest) = POk (p :: ps) rest.
Proof.
  induction ps as [|q ps IH]; intros [k x] Hall fuel rest Hfuel;
    (destruct fuel as [|f]; [lia|]); rewrite parse_members_S;
    inversion Hall as [|? ? (t & Ht & Hst & Hparse) Hrest]; subst; simpl in Ht.
  - rewrite members_text_one in *. unfold member_text, text_of_value, quote in *.
    simpl fst in *. simpl snd in *. rewrite Ht in *. simpl default in *.
    sapp. sapp_in Hfuel.
    change (skip_ws (String dquote ?r)) with (String dquote r).
    cbv beta iota. change (Ascii.eqb dquote dquote) with true. cbv iota.
    rewrite parse_chars_quote.
    change (skip_ws (String ":" ?r)) with (String ":" r).
    cbv beta iota. change (Ascii.eqb ":" ":") with true. cbv iota.
    rewrite Hparse; [reflexivity | reflexivity | slen; lia].
  - rewrite members_text_more in *. unfold member_text at 1.
    unfold member_text at 1 in Hfuel. unfold text_of_value, quote in *.
    simpl fst in *. simpl snd in *. rewrite Ht in *. simpl default in *.
    sapp. sapp_in Hfuel.
    change (skip_ws (String dquote ?r)) with (String dquote r).
    cbv beta iota. change (Ascii.eqb dquote dquote) with true. cbv iota.
    rewrite parse_chars_quote.
    change (skip_ws (String ":" ?r)) with (String ":" r).
    cbv beta iota. change (Ascii.eqb ":" ":") with true. cbv iota.
    rewrite Hparse; [| reflexivity | slen; lia].
    slen.
    change (skip_ws (String "," ?r)) with (String "," r).
    cbv beta iota. change (Ascii.eqb "," ",") with true. cbv iota.
    rewrite IH; [reflexivity | exact Hrest | slen; lia].
Qed.

Lemma obj_set_fresh k v (ps : list (string * JSVal)) :
  k ∉ ps.*1 -> obj_set k v ps = (ps ++ [(k, v)])%list.
Proof.
  induction ps as [|[k' v'] ps IH]; intros Hk; [reflexivity|].
  simpl in *. apply not_elem_of_cons in Hk as [Hne Hk].
  destruct (String.eqb_spec k' k); [congruence|]. now rewrite IH.
Qed.

Lemma obj_of_members ms :
  forall acc : list (string * JSVal),
  NoDup ((acc ++ ms)%list).*1 ->
  fold_left (fun o m => obj_set m.1 m.2 o) ms acc = (acc ++ ms)%list.
Proof.
  induction ms as [|[k v] ms IH]; intros acc Hnd; simpl.
  - now rewrite app_nil_r.
  - rewrite obj_set_fresh.
    + rewrite IH; rewrite <- app_assoc; [reflexivity | exact Hnd].
    + rewrite fmap_app in Hnd. apply NoDup_app in Hnd as (_ & Hdis & _).
      intros Hin. apply (Hdis k Hin). simpl. left.
Qed.

Lemma serialize_members ps :
  Forall (fun p => roundtrips p.2) ps ->
  omap (fun p : string * JSVal =>
          let (k, x) := p in (fun t => quote k +:+ ":" +:+ t) <$> serialize x) ps
  = member_text <$> ps.
Proof.
  induction 1 as [|[k x] ps (t & Ht & _) _ IH]; [reflexivity|].
  rewrite fmap_cons, <- IH. unfold member_text, text_of_value.
  simpl fst in *. simpl snd in *.
  cbn [omap list_omap]. rewrite Ht. reflexivity.
Qed.

Lemma serialize_elements l :
  map (fun x => default "null" (serialize x)) l = text_of_value <$> l.
Proof. reflexivity. Qed.

(** [JSON.parse] reads back what [JSON.stringify] wrote, whatever
    follows the value in the text. *)
Lemma json_roundtrip v : json_wf v -> roundtrips v.
Proof.
  induction v as [| |b|n|s|l IH|ps IH] using JSVal_nested_ind; intros Hwf;
    inversion Hwf; subst.
  - exists "null". repeat split. intros [|f] rest Hr Hf; [lia|]. reflexivity.
  - exists (if b then "true" else "false"). destruct b; repeat split;
      intros [|f] rest Hr Hf; try lia; reflexivity.
  - match goal with H : number_ok _ |- _ => destruct H as [Hst Hp] end.
    exists (JSNumber.toString n). repeat split; [exact Hst|].
    intros [|f] rest Hr Hf; [lia|]. now apply Hp.
  - exists (quote s). repeat split. intros [|f] rest Hr Hf; [lia|].
    rewrite parse_value_S. unfold quote.
    sapp.
    change (skip_ws (String dquote ?r)) with (String dquote r).
    cbv beta iota. change (Ascii.eqb dquote "[") with false.
    change (Ascii.eqb dquote "{") with false.
    change (Ascii.eqb dquote dquote) with true. cbv iota.
    now rewrite parse_chars_quote.
  - assert (Hall : Forall roundtrips l).
    { match goal with H : Forall json_wf l |- _ => revert H end.
      revert IH. rewrite !Forall_forall. intros IH Hw x Hx. apply IH; [exact Hx|].
      now apply Hw. }
    exists ("[" +:+ elements_text l +:+ "]"). split; [reflexivity|].
    split; [reflexivity|]. intros [|f] rest Hr Hf; [lia|].
    rewrite parse_value_S. sapp. sapp_in Hf.
    change (skip_ws (String "[" ?r)) with (String "[" r).
    cbv beta iota. change (Ascii.eqb "[" "[") with true. cbv iota.
    simpl String.length in Hf.
    destruct l as [|x l]; [reflexivity|].
    inversion Hall as [|? ? (t & Ht & Hst & _) _]; subst.
    assert (Hhead : exists c r, elements_text (x :: l) +:+ String "]" rest = String c r /\
                     is_ws c = false /\ Ascii.eqb c "]" = false).
    { assert (Hs : exists u, elements_text (x :: l) = t +:+ u).
      { destruct l; [rewrite elements_text_one | rewrite elements_text_more];
          unfold text_of_value; rewrite Ht; simpl default; eauto.
        exists EmptyString. now rewrite app_empty_r. }
      destruct Hs as [u ->]. destruct t as [|c t]; [discriminate|].
      exists c, ((t +:+ u) +:+ String "]" rest). split; [reflexivity|].
      simpl in Hst. destruct (is_ws c), (Ascii.eqb c "]"); try discriminate. auto. }
    destruct Hhead as (c & r & Heq & Hws & Hc). rewrite Heq.
    simpl skip_ws. rewrite Hws, Hc. rewrite <- Heq.
    rewrite parse_elements_roundtrip; [reflexivity | exact Hall | slen; lia].
  - assert (Hall : Forall (fun p => roundtrips p.2) ps).
    { match goal with H : Forall (fun p => json_wf p.2) ps |- _ => revert H end.
      revert IH. rewrite !Forall_forall. intros IH Hw x Hx. apply IH; [exact Hx|].
      now apply Hw. }
    exists ("{" +:+ members_text ps +:+ "}"). split.
    { simpl. rewrite serialize_members by exact Hall. reflexivity. }
    split; [reflexivity|]. intros [|f] rest Hr Hf; [lia|].
    rewrite parse_value_S. sapp. sapp_in Hf.
    change (skip_ws (String "{" ?r)) with (String "{" r).
    cbv beta iota. change (Ascii.eqb "{" "[") with false.
    change (Ascii.eqb "{" "{") with true. cbv iota.
    simpl String.length in Hf.
    destruct ps as [|p ps]; [reflexivity|].
    assert (Hhead : exists r, members_text (p :: ps) +:+ String "}" rest = String dquote r).
    { destruct ps; [rewrite members_text_one | rewrite members_text_more];
        unfold member_text, quote; rewrite !app_String; eauto. }
    destruct Hhead as (r & Heq). rewrite Heq.
    change (skip_ws (String dquote r)) with (String dquote r).
    cbv beta iota. change (Ascii.eqb dquote "}") with false. cbv iota.
    rewrite <- Heq.
    rewrite parse_members_roundtrip; [| exact Hall | slen; lia].
    rewrite (obj_of_members (p :: ps) []); [reflexivity | assumption].
Qed.

Theorem parse_stringify v : json_wf v -> JSON.parse (JSON.stringify v) = Some v.
Proof.
  intros Hwf. destruct (json_roundtrip v Hwf) as (t & Ht & _ & Hparse).
  unfold JSON.parse, JSON.stringify. rewrite Ht. simpl default.
  specialize (Hparse (2 * String.length t + 1)%nat EmptyString eq_refl).
  rewrite app_empty_r in Hparse. rewrite Hparse by lia. reflexivity.
Qed.

Lemma stringify_not_empty v : json_wf v -> is_empty (JSON.stringify v) = false.
Proof.
  intros Hwf. destruct (json_roundtrip v Hwf) as (t & Ht & Hst & _).
  unfold JSON.stringify. rewrite Ht. destruct t; [discriminate | reflexivity].
Qed.

End JSONFacts.

Section ParseTotal.

Lemma skip_ws_length s : (String.length (skip_ws s) <= String.length s)%nat.
Proof.
  induction s as [|c s IH]; simpl; [lia|]. destruct (is_ws c); simpl; lia.
Qed.

Lemma parse_chars_length s :
  forall t r, parse_chars s = Some (t, r) -> (String.length r < String.length s)%nat.
Proof.
  remember (String.length s) as n eqn:Hn. revert s Hn.
  induction n as [n IH] using lt_wf_ind. intros s -> t r.
  destruct s as [|c s]; [discriminate|]. simpl.
  destruct (Ascii.eqb c dquote); [intros [= _ <-]; lia|].
  destruct (Ascii.eqb c backslash).
  - destruct s as [|e s]; [discriminate|].
    destruct (Ascii.eqb e "u").
    + destruct s as [|h1 [|h2 [|h3 [|h4 s]]]]; try discriminate.
      destruct (hex_val h1), (hex_val h2), (hex_val h3), (hex_val h4); try discriminate.
      destruct (parse_chars s) as [[t' r']|] eqn:E; [|discriminate].
      intros [= _ <-]. apply (IH (String.length s)) in E; simpl; try reflexivity; lia.
    + destruct (unescape e); [|discriminate].
      destruct (parse_chars s) as [[t' r']|] eqn:E; [|discriminate].
      intros [= _ <-]. apply (IH (String.length s)) in E; simpl; try reflexivity; lia.
  - destruct (N_of_ascii c <? 32); [discriminate|].
    destruct (parse_chars s) as [[t' r']|] eqn:E; [|discriminate].
    intros [= _ <-]. apply (IH (String.length s)) in E; simpl; try reflexivity; lia.
Qed.

Lemma scan_digits_length s :
  forall acc cnt n c r, scan_digits s acc cnt = (n, c, r) ->
  (String.length r <= String.length s)%nat.
Proof.
  induction s as [|d s IH]; intros acc cnt n c r; simpl.
  - intros [= _ _ <-]. simpl. lia.
  - destruct (digit_val d).
    + intros H. apply IH in H. lia.
    + intros [= _ _ <-]. simpl. lia.
Qed.

Lemma parse_number_length s n r :
  parse_number s = Some (n, r) -> (String.length r < String.length s)%nat.
Proof.
  unfold parse_number.
  destruct (parse_sign s) as [neg s1] eqn:Hs.
  assert (H1 : (String.length s1 <= String.length s)%nat).
  { unfold parse_sign in Hs. destruct s as [|c s]; [injection Hs as _ <-; lia|].
    destruct (Ascii.eqb c "-"); injection Hs as _ <-; simpl; lia. }
  destruct (parse_int s1) as [[ip s2]|] eqn:Hi; [|discriminate].
  assert (H2 : (String.length s2 < String.length s1)%nat).
  { unfold parse_int in Hi. destruct s1 as [|c s1]; [discriminate|].
    destruct (digit_val c) as [[|p]|]; [| |discriminate].
    - injection Hi as _ <-. simpl. lia.
    - destruct (scan_digits s1 (N.pos p) 1) as [[a b] rest] eqn:E.
      injection Hi as _ <-. apply scan_digits_length in E. simpl. lia. }
  destruct (parse_frac s2) as [[[fp cnt] s3]|] eqn:Hf; [|discriminate].
  assert (H3 : (String.length s3 <= String.length s2)%nat).
  { unfold parse_frac in Hf. destruct s2 as [|c s2]; [injection Hf as _ _ <-; lia|].
    destruct (Ascii.eqb c ".").
    - destruct (scan_digits s2 0 0) as [[a b] rest] eqn:E.
      apply scan_digits_length in E.
      destruct b; [discriminate|]. injection Hf as _ _ <-. simpl. lia.
    - injection Hf as _ _ <-. simpl. lia. }
  destruct (parse_exp s3) as [[e s4]|] eqn:He; [|discriminate].
  assert (H4 : (String.length s4 <= String.length s3)%nat).
  { unfold parse_exp in He. destruct s3 as [|c s3]; [injection He as _ <-; lia|].
    destruct (Ascii.eqb c "e" || Ascii.eqb c "E").
    - match type of He with
      | (let '(_, _) := ?x in _) = _ => destruct x as [ng r1] eqn:Hsg
      end.
      assert (String.length r1 <= String.length s3)%nat.
      { destruct s3 as [|sg s3]; [injection Hsg as _ <-; lia|].
        destruct (Ascii.eqb sg "-"); [injection Hsg as _ <-; simpl; lia|].
        destruct (Ascii.eqb sg "+"); injection Hsg as _ <-; simpl; lia. }
      destruct (scan_digits r1 0 0) as [[a b] rest] eqn:E.
      apply scan_digits_length in E.
      destruct b; [discriminate|]. injection He as _ <-. simpl. lia.
    - injection He as _ <-. simpl. lia. }
  intros [= _ <-]. lia.
Qed.

Lemma strip_prefix_length p :
  forall s r, strip_prefix p s = Some r ->
  (String.length r + String.length p = String.length s)%nat.
Proof.
  induction p as [|a p IH]; intros s r; simpl.
  - intros [= ->]. lia.
  - destruct s as [|b s]; [discriminate|]. destruct (Ascii.eqb a b); [|discriminate].
    intros H. apply IH in H. simpl. lia.
Qed.

Lemma literal_length lit v s v' r :
  lit <> EmptyString -> literal lit v s = POk v' r ->
  (String.length r < String.length s)%nat.
Proof.
  unfold literal. intros Hl. destruct (strip_prefix lit s) eqn:E; [|discriminate].
  intros [= _ <-]. apply strip_prefix_length in E. destruct lit; [congruence|].
  simpl in E. lia.
Qed.

Lemma literal_fuel lit v s : literal lit v s <> POutOfFuel.
Proof. unfold literal. destruct (strip_prefix lit s); discriminate. Qed.

Lemma parse_fuel fuel :
  (forall s, (2 * String.length s < fuel)%nat -> consumes (parse_value fuel s) s) /\
  (forall s, (2 * String.length s + 1 < fuel)%nat -> consumes (parse_elements fuel s) s) /\
  (forall s, (2 * String.length s + 1 < fuel)%nat -> consumes (parse_members fuel s) s).
Proof.
  induction fuel as [|f (IHv & IHe & IHm)]; [repeat split; intros; lia|].
  split; [|split]; intros s Hf.
  - rewrite parse_value_S. pose proof (skip_ws_length s) as Hs.
    destruct (skip_ws s) as [|c r]; [split; [discriminate | intros; discriminate]|].
    simpl in Hs.
    destruct (Ascii.eqb c "[").
    { pose proof (skip_ws_length r) as Hr.
      destruct (skip_ws r) as [|c1 r1]; [split; [discriminate | intros; discriminate]|].
      simpl in Hr.
      destruct (Ascii.eqb c1 "]"); [split; [discriminate | intros ? ? [= _ <-]; lia]|].
      destruct (IHe r) as [He1 He2]; [lia|].
      destruct (parse_elements f r) as [vs rest| |]; [|split; [discriminate | intros; discriminate]|congruence].
      split; [discriminate|]. intros ? ? [= _ <-]. specialize (He2 _ _ eq_refl). lia. }
    destruct (Ascii.eqb c "{").
    { pose proof (skip_ws_length r) as Hr.
      destruct (skip_ws r) as [|c1 r1]; [split; [discriminate | intros; discriminate]|].
      simpl in Hr.
      destruct (Ascii.eqb c1 "}"); [split; [discriminate | intros ? ? [= _ <-]; lia]|].
      destruct (IHm r) as [He1 He2]; [lia|].
      destruct (parse_members f r) as [vs rest| |]; [|split; [discriminate | intros; discriminate]|congruence].
      split; [discriminate|]. intros ? ? [= _ <-]. specialize (He2 _ _ eq_refl). lia. }
    destruct (Ascii.eqb c dquote).
    { destruct (parse_chars r) as [[t rest]|] eqn:E; [|split; [discriminate | intros; discriminate]].
      apply parse_chars_length in E.
      split; [discriminate|]. intros ? ? [= _ <-]. lia. }
    destruct (Ascii.eqb c "t").
    { split; [apply literal_fuel|]. intros a r' H.
      apply literal_length in H; [simpl in H; lia | discriminate]. }
    destruct (Ascii.eqb c "f").
    { split; [apply literal_fuel|]. intros a r' H.
      apply literal_length in H; [simpl in H; lia | discriminate]. }
    destruct (Ascii.eqb c "n").
    { split; [apply literal_fuel|]. intros a r' H.
      apply literal_length in H; [simpl in H; lia | discriminate]. }
    destruct (parse_number (String c r)) as [[n rest]|] eqn:E;
      [|split; [discriminate | intros; discriminate]].
    apply parse_number_length in E. simpl in E.
    split; [discriminate|]. intros ? ? [= _ <-]. lia.
  - rewrite parse_elements_S. destruct (IHv s) as [Hv1 Hv2]; [lia|].
    destruct (parse_value f s) as [v r| |]; [|split; [discriminate | intros; discriminate]|congruence].
    specialize (Hv2 _ _ eq_refl). pose proof (skip_ws_length r) as Hr.
    destruct (skip_ws r) as [|c r1]; [split; [discriminate | intros; discriminate]|].
    simpl in Hr.
    destruct (Ascii.eqb c ",").
    { destruct (IHe r1) as [He1 He2]; [lia|].
      destruct (parse_elements f r1) as [vs rest| |]; [|split; [discriminate | intros; discriminate]|congruence].
      split; [discriminate|]. intros ? ? [= _ <-]. specialize (He2 _ _ eq_refl). lia. }
    destruct (Ascii.eqb c "]"); [|split; [discriminate | intros; discriminate]].
    split; [discriminate|]. intros ? ? [= _ <-]. lia.
  - rewrite parse_members_S. pose proof (skip_ws_length s) as Hs.
    destruct (skip_ws s) as [|q r]; [split; [discriminate | intros; discriminate]|].
    simpl in Hs.
    destruct (Ascii.eqb q dquote); [|split; [discriminate | intros; discriminate]].
    destruct (parse_chars r) as [[k r1]|] eqn:E; [|split; [discriminate | intros; discriminate]].
    apply parse_chars_length in E. pose proof (skip_ws_length r1) as Hr1.
    destruct (skip_ws r1) as [|c r2]; [split; [discriminate | intros; discriminate]|].
    simpl in Hr1.
    destruct (Ascii.eqb c ":"); [|split; [discriminate | intros; discriminate]].
    destruct (IHv r2) as [Hv1 Hv2]; [lia|].
    destruct (parse_value f r2) as [v r3| |]; [|split; [discriminate | intros; discriminate]|congruence].
    specialize (Hv2 _ _ eq_refl). pose proof (skip_ws_length r3) as Hr3.
    destruct (skip_ws r3) as [|c' r4]; [split; [discriminate | intros; discriminate]|].
    simpl in Hr3.
    destruct (Ascii.eqb c' ",").
    { destruct (IHm r4) as [He1 He2]; [lia|].
      destruct (parse_members f r4) as [vs rest| |]; [|split; [discriminate | intros; discriminate]|congruence].
      split; [discriminate|]. intros ? ? [= _ <-]. specialize (He2 _ _ eq_refl). lia. }
    destruct (Ascii.eqb c' "}"); [|split; [discriminate | intros; discriminate]].
    split; [discriminate|]. intros ? ? [= _ <-]. lia.
Qed.

(** The fuel [JSON.parse] gives is enough for every text: it answers
    with a value or with a syntax error. *)
Theorem parse_fuel_enough text :
  parse_value (2 * String.length text + 1) text <> POutOfFuel.
Proof. apply (parse_fuel (2 * String.length text + 1)). lia. Qed.

End ParseTotal.

Ltac nodup_keys :=
  simpl; repeat (apply NoDup_cons; split;
    [rewrite ?elem_of_cons, ?elem_of_nil; intuition discriminate|]);
  apply NoDup_nil; exact I.

Section EncodedAccounts.

Context {engine : Engine}.

Lemma number_ok_4 : number_ok (of_Z 4).
Proof.
  split; [reflexivity|]. intros f rest Hr.
  destruct rest as [|c r]; [reflexivity|]. simpl in Hr.
  destruct (Ascii.eqb_spec c ","); [subst; reflexivity|].
  destruct (Ascii.eqb_spec c "]"); [subst; reflexivity|].
  destruct (Ascii.eqb_spec c "}"); [subst; reflexivity|discriminate].
Qed.

Lemma encode_file_wf f : json_wf (encode_file f).
Proof.
  apply wf_obj; [nodup_keys|].
  apply List.Forall_cons; [apply wf_str|].
  apply List.Forall_cons; [apply wf_str|]. apply List.Forall_nil.
Qed.

Lemma encode_pet_wf p : json_wf (encode_pet p).
Proof.
  apply wf_obj; [nodup_keys|].
  apply List.Forall_cons; [apply wf_str|].
  apply List.Forall_cons; [apply wf_str|].
  apply List.Forall_cons.
  { simpl. destruct (pet_vetFile p) as [f|]; [exact (encode_file_wf f) | apply wf_null]. }
  apply List.Forall_cons; [|apply List.Forall_nil].
  apply wf_arr, Forall_fmap, Forall_forall. intros f _. apply encode_file_wf.
Qed.

Lemma encode_account_wf a : acc_fund a = of_Z 4 -> json_wf (encode_account a).
Proof.
  intros Hf. apply wf_obj; [nodup_keys|].
  apply List.Forall_cons; [apply wf_str|].
  apply List.Forall_cons; [apply wf_str|].
  apply List.Forall_cons; [apply wf_num; simpl; rewrite Hf; apply number_ok_4|].
  apply List.Forall_cons; [|apply List.Forall_nil].
  simpl. destruct (acc_pet a) as [p|]; [exact (encode_pet_wf p) | apply wf_null].
Qed.

Lemma encode_accounts_wf accts :
  Forall account_ok accts -> json_wf (VArr (encode_account <$> accts)).
Proof.
  intros H. constructor. apply Forall_fmap. eapply Forall_impl; [exact H|].
  intros a (_ & _ & Hf). now apply encode_account_wf.
Qed.

End EncodedAccounts.

(** ** Running the monad *)

Section Monad.

Context {engine : Engine}.

Context {A B : Type}.

Lemma bind_eq (m : M A) (f : A -> M B) w :
  (m ≫= f) w =
  match m w with
  | Ok a w' => f a w'
  | Throw e w' => Throw e w'
  | Beyond => Beyond
  end.
Proof. reflexivity. Qed.

Lemma mret_eq (a : A) (w : World) : (mret a : M A) w = Ok a w.
Proof. reflexivity. Qed.

Lemma bind_ok (m : M A) (f : A -> M B) w a w' :
  m w = Ok a w' -> (m ≫= f) w = f a w'.
Proof. intros H. now rewrite bind_eq, H. Qed.

Lemma bind_throw (m : M A) (f : A -> M B) w e w' :
  m w = Throw e w' -> (m ≫= f) w = Throw e w'.
Proof. intros H. now rewrite bind_eq, H. Qed.

End Monad.

(** Symbolic execution of a handler: the monad and the accessors of the
    world are unfolded, the operations on values are computed, the rest
    is kept. *)
Create HintDb monad.

#[global] Hint Unfold mbind M_bind mret M_ret gets modify throw beyond unhandled
  getItem setItem removeItem console_error navigate getElementById
  input_value input_files update_element set_textContent appendChild
  addEventListener setUsers setCurrentUserEmail getCurrentUserEmail
  get_prop get_first gt_zero as_array call_toFixed set_prop email_is : monad.

Ltac mcompute :=
  cbn [final_world truthy strict_eq obj_get obj_set
       encode_vet encode_pet encode_account pet_object file_record encode_file
       new_user with_pet from_option default
       String.eqb Ascii.eqb Bool.eqb negb andb orb
       localStorage document console navigations listeners saves
       set_localStorage set_document set_console set_navigations
       set_listeners set_saves
       value files textContent style_display childNodes
       with_textContent with_display with_childNodes with_value with_files
       acc_email acc_password acc_fund acc_pet
       pet_name pet_description pet_vetFile pet_photos
       file_name file_dataURL
       job_user job_name job_desc job_vetObj job_photos job_tasks job_done
       with_tasks with_vetObj with_photos with_done
       task_kind task_file task_state is_loaded].

Ltac msimpl := repeat (progress (autounfold with monad; mcompute)).

Section MonadFacts.

Context {engine : Engine}.

Lemma set_document_twice id (x y : Element) w :
  set_document (insert id x) (set_document (insert id y) w)
  = set_document (insert id x) w.
Proof. unfold set_document. simpl. now rewrite insert_insert_eq. Qed.

End MonadFacts.

Ltac mrun :=
  repeat (progress (msimpl;
                    rewrite ?lookup_insert_eq, ?insert_insert_eq, ?set_document_twice;
                    rewrite ?lookup_insert_ne by discriminate)).

(** ** What a handler leaves alone *)

Section Frame.

Context {engine : Engine}.

Lemma frame_refl w : frame w w.
Proof. split; reflexivity. Qed.

Lemma frame_trans w1 w2 w3 : frame w1 w2 -> frame w2 w3 -> frame w1 w3.
Proof. intros [H1 H2] [H3 H4]. split; congruence. Qed.

End Frame.

Create HintDb framed.

Section Framed.

Context {engine : Engine}.

Context {A B : Type}.

Lemma framed_ret (a : A) : framed (mret a).
Proof. intros w. apply frame_refl. Qed.

Lemma framed_throw e : framed (throw e : M A).
Proof. intros w. apply frame_refl. Qed.

Lemma framed_beyond : framed (beyond : M A).
Proof. intros w. exact I. Qed.

Lemma framed_gets (f : World -> A) : framed (gets f).
Proof. intros w. apply frame_refl. Qed.

Lemma framed_bind (m : M A) (f : A -> M B) :
  framed m -> (forall a, framed (f a)) -> framed (m ≫= f).
Proof.
  intros Hm Hf w. rewrite bind_eq. specialize (Hm w).
  destruct (m w) as [a w1|e w1|]; [|exact Hm|exact I].
  specialize (Hf a w1). destruct (f a w1); try exact I; eapply frame_trans; eauto.
Qed.

Lemma framed_modify (f : World -> World) :
  (forall w, frame w (f w)) -> framed (modify f).
Proof. intros H w. apply H. Qed.

End Framed.

#[local] Hint Resolve framed_ret framed_throw framed_beyond framed_gets : framed.

Ltac framed_step :=
  match goal with
  | |- framed (mbind _ _) => apply framed_bind; [|intros ?]
  | |- framed (match ?x with _ => _ end) => destruct x
  | |- framed (modify _) => apply framed_modify; intros ?; split; reflexivity
  | |- framed _ => solve [auto with framed]
  end.

Ltac framed_all := repeat framed_step.

Section FramedScript.

Context {engine : Engine}.

Lemma framed_getItem k : framed (getItem k).
Proof. apply framed_gets. Qed.

Lemma framed_console_error msg : framed (console_error msg).
Proof. unfold console_error. framed_all. Qed.

Lemma framed_navigate url : framed (navigate url).
Proof. unfold navigate. framed_all. Qed.

Lemma framed_getElementById id : framed (getElementById id).
Proof. apply framed_gets. Qed.

Hint Resolve framed_getItem framed_console_error framed_navigate
  framed_getElementById : framed.

Lemma framed_input_value id : framed (input_value id).
Proof. unfold input_value. framed_all. Qed.

Lemma framed_input_files id : framed (input_files id).
Proof. unfold input_files. framed_all. Qed.

Lemma framed_update_element id f : framed (update_element id f).
Proof. unfold update_element. framed_all. Qed.

Hint Resolve framed_input_value framed_input_files framed_update_element : framed.

Lemma framed_set_textContent id t : framed (set_textContent id t).
Proof. unfold set_textContent. framed_all. Qed.

Lemma framed_appendChild id n : framed (appendChild id n).
Proof. unfold appendChild. framed_all. Qed.

Lemma framed_get_prop v k : framed (get_prop v k).
Proof. unfold get_prop. framed_all. Qed.

Lemma framed_get_first v : framed (get_first v).
Proof. unfold get_first. framed_all. Qed.

Lemma framed_gt_zero v : framed (gt_zero v).
Proof. unfold gt_zero. framed_all. Qed.

Lemma framed_as_array v : framed (as_array v).
Proof. unfold as_array. framed_all. Qed.

Lemma framed_call_toFixed v : framed (call_toFixed v).
Proof. unfold call_toFixed. framed_all. Qed.

Lemma framed_set_prop t k v : framed (set_prop t k v).
Proof. unfold set_prop. framed_all. Qed.

Lemma framed_addEventListener id l : framed (addEventListener id l).
Proof. unfold addEventListener. framed_all. Qed.

Hint Resolve framed_set_textContent framed_appendChild framed_get_prop
  framed_get_first framed_gt_zero framed_as_array framed_call_toFixed
  framed_set_prop framed_addEventListener : framed.

Lemma framed_array_find p l :
  (forall u, framed (p u)) -> framed (array_find p l).
Proof. intros Hp. induction l; simpl; framed_all. Qed.

Lemma framed_array_some p l :
  (forall u, framed (p u)) -> framed (array_some p l).
Proof. intros Hp. induction l; simpl; framed_all. Qed.

Lemma framed_array_findIndex p l :
  (forall u, framed (p u)) -> forall i, framed (array_findIndex p l i).
Proof. intros Hp. induction l; intros i; simpl; framed_all. Qed.

Lemma framed_email_is e u : framed (email_is e u).
Proof. unfold email_is. framed_all. Qed.

Hint Resolve framed_email_is : framed.

Lemma framed_getUsers : framed getUsers.
Proof. unfold getUsers. framed_all. Qed.

Hint Resolve framed_getUsers : framed.

Lemma framed_findUser e : framed (findUser e).
Proof.
  unfold findUser. framed_all. apply framed_array_find. auto with framed.
Qed.

Lemma framed_setCurrentUserEmail e : framed (setCurrentUserEmail e).
Proof.
  unfold setCurrentUserEmail, setItem. apply framed_modify. intros w.
  split; [|reflexivity]. simpl. now rewrite lookup_insert_ne.
Qed.

Lemma framed_getCurrentUserEmail : framed getCurrentUserEmail.
Proof. apply framed_gets. Qed.

Hint Resolve framed_findUser framed_setCurrentUserEmail
  framed_getCurrentUserEmail : framed.

Lemma framed_handleLogin : framed handleLogin.
Proof. unfold handleLogin. framed_all. Qed.

Lemma framed_logout : framed logout.
Proof.
  unfold logout, removeItem. apply framed_bind; [|intros; auto with framed].
  apply framed_modify. intros w. split; [|reflexivity]. simpl.
  now rewrite lookup_delete_ne.
Qed.

Lemma framed_photo_imgs l : framed (photo_imgs l).
Proof. induction l; simpl; unfold photo_img; framed_all. Qed.

Hint Resolve framed_photo_imgs : framed.

Lemma framed_displayPetInfo pet : framed (displayPetInfo pet).
Proof. unfold displayPetInfo. framed_all. Qed.

Hint Resolve framed_displayPetInfo : framed.

Lemma framed_loadDashboard : framed loadDashboard.
Proof. unfold loadDashboard. framed_all. Qed.

Lemma framed_dog_card user pet : framed (dog_card user pet).
Proof. unfold dog_card, card_image. framed_all. Qed.

Hint Resolve framed_dog_card : framed.

Lemma framed_dogs_loop l : forall n, framed (dogs_loop l n).
Proof. induction l; intros n; simpl; framed_all. Qed.

Hint Resolve framed_dogs_loop : framed.

Lemma framed_loadDogsPage : framed loadDogsPage.
Proof. unfold loadDogsPage. framed_all. Qed.

Hint Resolve framed_loadDashboard framed_loadDogsPage framed_handleLogin
  framed_logout : framed.

Lemma framed_main : framed main.
Proof. unfold main, when_present. framed_all. Qed.

Lemma framed_edit_element id f : framed (edit_element id f).
Proof. unfold edit_element. framed_all. Qed.

End FramedScript.

(** ** The invariant of the stored accounts *)

Section Invariant.

Context {engine : Engine}.

Lemma Inv_frame w w' accts : frame w w' -> Inv w accts -> Inv w' accts.
Proof.
  intros [Hu Hs] [H1 H2 H3 H4]. split; try assumption.
  - unfold stored in *. now rewrite Hu.
  - now rewrite Hs.
Qed.

Lemma getUsers_stored w accts :
  stored w accts -> Forall account_ok accts ->
  getUsers w = Ok (VArr (encode_account <$> accts)) w.
Proof.
  intros Hst Hok. unfold getUsers, getItem, gets. rewrite bind_eq.
  unfold stored in Hst. destruct (localStorage w !! "users") as [text|]; subst.
  - rewrite stringify_not_empty, parse_stringify by now apply encode_accounts_wf.
    reflexivity.
  - reflexivity.
Qed.

Lemma get_prop_eq v k w :
  get_prop v k w =
  match prop_of v k with
  | Some x => Ok x w
  | None => Throw TypeError w
  end.
Proof. destruct v; reflexivity. Qed.

Lemma email_is_account e a w :
  email_is (VStr e) (encode_account a) w = Ok (String.eqb (acc_email a) e) w.
Proof. reflexivity. Qed.

Lemma array_some_accounts e accts w :
  array_some (email_is (VStr e)) (encode_account <$> accts) w
  = Ok (existsb (fun a => String.eqb (acc_email a) e) accts) w.
Proof.
  induction accts as [|a accts IH]; [reflexivity|].
  rewrite fmap_cons. simpl array_some. rewrite bind_eq, email_is_account.
  simpl existsb. destruct (String.eqb (acc_email a) e); [reflexivity | exact IH].
Qed.

Lemma array_find_accounts e accts w :
  array_find (email_is (VStr e)) (encode_account <$> accts) w
  = Ok (from_option encode_account VUndef (find_account e accts)) w.
Proof.
  induction accts as [|a accts IH]; [reflexivity|].
  rewrite fmap_cons. simpl array_find. rewrite bind_eq, email_is_account.
  unfold find_account. simpl List.find.
  destruct (String.eqb (acc_email a) e); [reflexivity | exact IH].
Qed.

Lemma findUser_stored w accts e :
  stored w accts -> Forall account_ok accts ->
  findUser e w = Ok (from_option encode_account VUndef (find_account e accts)) w.
Proof.
  intros Hst Hok. unfold findUser.
  rewrite (bind_ok _ _ _ _ _ (getUsers_stored w accts Hst Hok)).
  rewrite bind_eq. simpl as_array. apply array_find_accounts.
Qed.

Lemma existsb_email e accts :
  existsb (fun a => String.eqb (acc_email a) e) accts = true <-> e ∈ acc_email <$> accts.
Proof.
  rewrite existsb_exists, list_elem_of_fmap. split.
  - intros (a & Ha & He). apply String.eqb_eq in He. exists a.
    split; [now symmetry | now apply list_elem_of_In].
  - intros (a & -> & Ha). exists a. split; [now apply list_elem_of_In | apply String.eqb_refl].
Qed.

Lemma find_account_Some e accts a :
  find_account e accts = Some a -> a ∈ accts /\ acc_email a = e.
Proof.
  intros H. apply find_some in H as [Hin He]. apply String.eqb_eq in He.
  split; [now apply list_elem_of_In | exact He].
Qed.

Lemma find_account_None e accts :
  find_account e accts = None -> e ∉ acc_email <$> accts.
Proof.
  intros H Hin. apply list_elem_of_fmap in Hin as (a & -> & Ha).
  apply list_elem_of_In in Ha.
  pose proof (find_none _ _ H a Ha) as Hn. simpl in Hn.
  now rewrite String.eqb_refl in Hn.
Qed.

(** With unique identifiers the first match is the only one. *)
Lemma find_account_unique accts a :
  NoDup (acc_email <$> accts) -> a ∈ accts ->
  find_account (acc_email a) accts = Some a.
Proof.
  induction accts as [|b accts IH]; intros Hnd Hin; [now apply elem_of_nil in Hin|].
  rewrite fmap_cons in Hnd. apply NoDup_cons in Hnd as [Hb Hnd].
  unfold find_account. simpl. destruct (String.eqb_spec (acc_email b) (acc_email a)) as [He|He].
  - apply elem_of_cons in Hin as [->|Hin]; [reflexivity|].
    exfalso. apply Hb. rewrite He. apply list_elem_of_fmap. eauto.
  - apply elem_of_cons in Hin as [->|Hin]; [congruence|]. now apply IH.
Qed.

End Invariant.

(** ** Handlers keep the invariant *)

Section Preserves.

Context {engine : Engine}.

Context {A B : Type}.

Lemma preserves_framed (m : M A) : framed m -> preserves m.
Proof.
  intros Hm w accts w' Hinv Hw. specialize (Hm w). exists accts.
  destruct (m w); simpl in Hw; [| |discriminate]; injection Hw as <-;
    eapply Inv_frame; eauto.
Qed.

Lemma preserves_bind (m : M A) (f : A -> M B) :
  preserves m -> (forall a, preserves (f a)) -> preserves (m ≫= f).
Proof.
  intros Hm Hf w accts w' Hinv. rewrite bind_eq.
  specialize (Hm w accts). destruct (m w) as [a w1|e w1|]; simpl.
  - destruct (Hm w1 Hinv eq_refl) as [accts1 H1]. intros Hw. eapply Hf; eauto.
  - intros [= <-]. now apply Hm.
  - discriminate.
Qed.

(** What follows [gets saves] may rely on the saves being in order. *)
Lemma preserves_saves (f : list SaveJob -> M B) :
  (forall js, Forall job_ok js -> preserves (f js)) -> preserves (gets saves ≫= f).
Proof.
  intros Hf w accts w' Hinv. rewrite bind_eq. simpl. intros Hw.
  eapply (Hf (saves w)); [apply Hinv | exact Hinv | exact Hw].
Qed.

End Preserves.

(** ** Rendering a profile *)

Section Profiles.

Context {engine : Engine}.

Section Rendering.

Lemma update_element_eq id f w :
  update_element id f w =
  match document w !! id with
  | Some e => Ok tt (set_document (insert id (f e)) w)
  | None => Throw TypeError w
  end.
Proof.
  unfold update_element. rewrite bind_eq. simpl.
  destruct (document w !! id); reflexivity.
Qed.

Lemma ltb_length {A : Type} (l : list A) :
  (0 <? Z.of_nat (length l))%Z = match l with [] => false | _ => true end.
Proof. destruct l; reflexivity. Qed.

Lemma photo_imgs_files fs w :
  photo_imgs (encode_file <$> fs) w = Ok (photo_node <$> fs) w.
Proof.
  induction fs as [|f fs IH]; [reflexivity|].
  rewrite !fmap_cons. simpl photo_imgs. rewrite bind_eq.
  change (photo_img (encode_file f) w) with (Ok (photo_node f) w). cbv beta iota.
  rewrite bind_eq, IH. reflexivity.
Qed.

Lemma displayPetInfo_pet p w :
  displayPetInfo (encode_pet p) w =
  match document w !! "pet-info" with
  | Some el =>
      Ok tt (set_document (insert "pet-info" (with_childNodes (fun _ => render_pet p) el)) w)
  | None => Ok tt w
  end.
Proof.
  unfold displayPetInfo. msimpl.
  destruct (document w !! "pet-info") as [el|] eqn:Hel; [|reflexivity].
  destruct p as [name desc vet photos]. unfold render_pet.
  rewrite ?Hel. mrun.
  destruct vet as [f|]; mrun; cbn [of_Z mant]; rewrite ltb_length;
    (destruct photos as [|ph photos];
     [ rewrite fmap_nil; cbv iota; mrun; reflexivity
     | rewrite fmap_cons; cbv iota; mrun;
       rewrite <- fmap_cons, photo_imgs_files; mrun; reflexivity ]).
Qed.

End Rendering.

Section PreservesScript.

Lemma preserves_unhandled m : preserves m -> preserves (unhandled m).
Proof.
  intros Hm w accts w' Hinv. unfold unhandled. specialize (Hm w accts).
  destruct (m w) as [a w1|e w1|]; simpl; [| |discriminate];
    intros [= <-]; now apply Hm.
Qed.

Lemma preserves_set_saves f :
  (forall js, Forall job_ok js -> Forall job_ok (f js)) ->
  preserves (modify (set_saves f)).
Proof.
  intros Hf w accts w' [H1 H2 H3 H4]. simpl. intros [= <-].
  exists accts. split; try assumption. simpl. now apply Hf.
Qed.

Lemma array_findIndex_accounts user mine accts w :
  prop_of user "email" = Some mine ->
  forall i,
  array_findIndex (fun u => e ← get_prop u "email";
                           m ← get_prop user "email";
                           mret (strict_eq e m)) (encode_account <$> accts) i w
  = Ok (index_of mine accts i) w.
Proof.
  intros Hu. induction accts as [|a accts IH]; intros i; [reflexivity|].
  rewrite fmap_cons. cbn [array_findIndex index_of]. specialize (IH (S i)).
  destruct user; try discriminate; injection Hu as <-; msimpl;
    try match goal with
        | |- (if ?c then _ else _) _ = _ => destruct c
        end;
    first [reflexivity | exact IH].
Qed.

Lemma array_findIndex_throw user accts a w :
  prop_of user "email" = None ->
  forall i,
  array_findIndex (fun u => e ← get_prop u "email";
                           m ← get_prop user "email";
                           mret (strict_eq e m)) (encode_account <$> (a :: accts)) i w
  = Throw TypeError w.
Proof.
  intros Hu i. rewrite fmap_cons. cbn [array_findIndex].
  destruct user; try discriminate; reflexivity.
Qed.

Lemma index_of_Some mine accts :
  forall i k, index_of mine accts i = Some k ->
  exists a, accts !! (k - i)%nat = Some a /\ (i <= k)%nat /\ mine = VStr (acc_email a).
Proof.
  induction accts as [|a accts IH]; intros i k; cbn [index_of]; [discriminate|].
  destruct (strict_eq (VStr (acc_email a)) mine) eqn:E.
  - intros H. injection H as H. subst k. exists a. rewrite Nat.sub_diag.
    split; [reflexivity|]. split; [lia|].
    destruct mine; try discriminate. simpl in E. apply String.eqb_eq in E. now subst.
  - intros H. apply IH in H as (b & Hb & Hle & Hm). exists b.
    replace (k - i)%nat with (S (k - S i)) by lia. simpl. split; [exact Hb|]. split; [lia | exact Hm].
Qed.

Lemma index_of_first accts a k :
  NoDup (acc_email <$> accts) -> accts !! k = Some a ->
  forall i, index_of (VStr (acc_email a)) accts i = Some (i + k)%nat.
Proof.
  revert k. induction accts as [|b accts IH]; intros k Hnd Hk i; [discriminate|].
  rewrite fmap_cons in Hnd. apply NoDup_cons in Hnd as [Hb Hnd].
  cbn [index_of strict_eq].
  destruct k as [|k]; simpl in Hk.
  - injection Hk as ->. rewrite String.eqb_refl. f_equal. lia.
  - destruct (String.eqb_spec (acc_email b) (acc_email a)) as [He|He].
    + exfalso. apply Hb. rewrite He. apply list_elem_of_fmap. exists a.
      split; [reflexivity|]. eapply list_elem_of_lookup_2; eauto.
    + rewrite (IH k Hnd Hk). f_equal. lia.
Qed.

Lemma encode_with_pet a p :
  VObj (obj_set "pet" (encode_pet p)
          [("email", VStr (acc_email a)); ("password", VStr (acc_password a));
           ("fund", VNum (acc_fund a));
           ("pet", from_option encode_pet VNull (acc_pet a))])
  = encode_account (with_pet p a).
Proof. reflexivity. Qed.

Lemma set_pet_account a p w :
  set_prop (encode_account a) "pet" (encode_pet p) w
  = Ok (encode_account (with_pet p a)) w.
Proof. reflexivity. Qed.

Lemma Inv_with_pet w accts i a p w' :
  Inv w accts -> accts !! i = Some a ->
  localStorage w' =
    <["users" := JSON.stringify (VArr (encode_account <$> <[i := with_pet p a]> accts))]>
      (localStorage w) ->
  saves w' = saves w ->
  Inv w' (<[i := with_pet p a]> accts).
Proof.
  intros [H1 H2 H3 H4] Hi Hu Hs. split.
  - unfold stored. now rewrite Hu, lookup_insert_eq.
  - rewrite list_fmap_insert. simpl.
    rewrite list_insert_id; [exact H2|]. rewrite list_lookup_fmap, Hi. reflexivity.
  - apply Forall_insert; [exact H3|].
    rewrite Forall_forall in H3. apply (H3 a). eapply list_elem_of_lookup_2; eauto.
  - now rewrite Hs.
Qed.

(** The callback of a save, on the stored accounts: its result when the
    user of the save is the account number [i]. *)
Lemma save_callback_found w accts job vet photos i a :
  Inv w accts ->
  job_vetObj job = encode_vet vet -> job_photos job = encode_file <$> photos ->
  prop_of (job_user job) "email" = Some (VStr (acc_email a)) ->
  accts !! i = Some a ->
  exists w', final_world (save_callback job w) = Some w' /\
    localStorage w' =
      <["users" := JSON.stringify
          (VArr (encode_account <$> <[i := with_pet (job_pet job vet photos) a]> accts))]>
        (localStorage w) /\
    saves w' = saves w.
Proof.
  intros Hinv Hv Hp Hu Hi. destruct Hinv as [H1 H2 H3 H4].
  unfold save_callback.
  rewrite (bind_ok _ _ _ _ _ (getUsers_stored w accts H1 H3)).
  rewrite bind_eq. cbn [as_array]. rewrite mret_eq.
  rewrite (bind_ok _ _ _ _ _ (array_findIndex_accounts _ _ accts w Hu 0%nat)).
  rewrite (index_of_first accts a i H2 Hi 0%nat). cbn [Nat.add].
  rewrite list_lookup_fmap, Hi. cbn [fmap option_fmap option_map default].
  rewrite Hv, Hp.
  change (pet_object (job_name job) (job_desc job) (encode_vet vet) (encode_file <$> photos))
    with (encode_pet (job_pet job vet photos)).
  cbn [id]. rewrite bind_eq, set_pet_account. rewrite <- list_fmap_insert.
  set (accts' := <[i := with_pet (job_pet job vet photos) a]> accts).
  rewrite bind_eq. unfold setUsers at 1, setItem at 1, modify at 1. cbv beta iota.
  set (w1 := set_localStorage _ w).
  rewrite bind_eq, displayPetInfo_pet.
  destruct (document w1 !! "pet-info") as [el|]; rewrite update_element_eq;
    match goal with |- context [document ?x !! "pet-form"] =>
      destruct (document x !! "pet-form") end;
    (eexists; split; [reflexivity|]; split; reflexivity).
Qed.

End PreservesScript.

Section PreservesSaves.

Lemma index_of_None mine accts :
  forall i, index_of mine accts i = None ->
  forall a, a ∈ accts -> mine <> VStr (acc_email a).
Proof.
  induction accts as [|b accts IH]; intros i H a Ha; [now apply elem_of_nil in Ha|].
  cbn [index_of] in H. destruct (strict_eq (VStr (acc_email b)) mine) eqn:E; [discriminate|].
  apply elem_of_cons in Ha as [->|Ha]; [|eapply IH; eauto].
  intros ->. cbn [strict_eq] in E. now rewrite String.eqb_refl in E.
Qed.

(** When the user of the save is none of the stored accounts, the
    callback throws before it writes. *)
Lemma save_callback_not_found w accts job :
  Inv w accts ->
  (forall a, a ∈ accts -> prop_of (job_user job) "email" <> Some (VStr (acc_email a))) ->
  save_callback job w = Throw TypeError w.
Proof.
  intros [H1 H2 H3 H4] Hno. unfold save_callback.
  rewrite (bind_ok _ _ _ _ _ (getUsers_stored w accts H1 H3)).
  rewrite bind_eq. cbn [as_array]. rewrite mret_eq.
  destruct (prop_of (job_user job) "email") as [mine|] eqn:Hu.
  - rewrite (bind_ok _ _ _ _ _ (array_findIndex_accounts _ _ accts w Hu 0%nat)).
    destruct (index_of mine accts 0) as [k|] eqn:Hk.
    + exfalso. apply index_of_Some in Hk as (a & Ha & _ & ->).
      apply (Hno a); [eapply list_elem_of_lookup_2; eauto | reflexivity].
    + reflexivity.
  - destruct accts as [|a accts]; [reflexivity|].
    now rewrite (bind_throw _ _ _ _ _ (array_findIndex_throw _ accts a w Hu 0%nat)).
Qed.

Lemma preserves_save_callback job : job_ok job -> preserves (save_callback job).
Proof.
  intros (vet & photos & Hv & Hp) w accts w' Hinv Hw.
  destruct (prop_of (job_user job) "email") as [mine|] eqn:Hu.
  - destruct (index_of mine accts 0) as [k|] eqn:Hk.
    + apply index_of_Some in Hk as (a & Ha & _ & ->). rewrite Nat.sub_0_r in Ha.
      destruct (save_callback_found w accts job vet photos k a Hinv Hv Hp Hu Ha)
        as (w2 & Hw2 & Hst & Hsv).
      rewrite Hw in Hw2. injection Hw2 as <-.
      eexists. eapply Inv_with_pet; eauto.
    + rewrite (save_callback_not_found w accts job Hinv) in Hw.
      * injection Hw as <-. eauto.
      * intros a Ha. rewrite Hu. intros [= ->].
        eapply index_of_None in Hk; eauto.
  - rewrite (save_callback_not_found w accts job Hinv) in Hw.
    + injection Hw as <-. eauto.
    + intros a Ha. rewrite Hu. discriminate.
Qed.

Lemma job_ok_with_done job : job_ok job -> job_ok (with_done job).
Proof. exact id. Qed.

Lemma preserves_settle j : preserves (settle j).
Proof.
  unfold settle. apply preserves_saves. intros js Hjs.
  destruct (js !! j) as [job|] eqn:Hj; [|apply preserves_framed, framed_ret].
  assert (Hjob : job_ok job).
  { rewrite Forall_forall in Hjs. apply Hjs. eapply list_elem_of_lookup_2; eauto. }
  destruct (forallb is_loaded (job_tasks job) && negb (job_done job));
    [|apply preserves_framed, framed_ret].
  apply preserves_bind.
  - apply preserves_set_saves. intros js' Hjs'. now apply Forall_insert.
  - intros _. now apply preserves_unhandled, preserves_save_callback.
Qed.

Lemma preserves_savePetInfo user : preserves (savePetInfo user).
Proof.
  unfold savePetInfo.
  apply preserves_bind; [apply preserves_framed, framed_input_value | intros rawName].
  apply preserves_bind; [apply preserves_framed, framed_input_value | intros rawDesc].
  apply preserves_bind; [apply preserves_framed, framed_getElementById | intros errorEl].
  apply preserves_bind.
  { destruct errorEl; apply preserves_framed;
      [apply framed_set_textContent | apply framed_ret]. }
  intros _. destruct (is_empty (trim rawName) || is_empty (trim rawDesc)).
  { destruct errorEl; apply preserves_framed;
      [apply framed_set_textContent | apply framed_ret]. }
  apply preserves_bind; [apply preserves_framed, framed_input_files | intros vetFiles].
  apply preserves_bind; [apply preserves_framed, framed_input_files | intros photoFiles].
  apply preserves_set_saves. intros js' Hjs'. apply Forall_app. split; [exact Hjs'|].
  constructor; [|constructor]. exists None, []. split; reflexivity.
Qed.

Lemma preserves_submit_pet user : preserves (submit_pet user).
Proof.
  unfold submit_pet. apply preserves_saves. intros js Hjs.
  apply preserves_bind; [apply preserves_savePetInfo | intros _; apply preserves_settle].
Qed.

Lemma preserves_file_loaded j i : preserves (file_loaded j i).
Proof.
  unfold file_loaded. apply preserves_saves. intros js Hjs.
  destruct (js !! j) as [job|] eqn:Hj; [|apply preserves_framed, framed_ret].
  assert (Hjob : job_ok job).
  { rewrite Forall_forall in Hjs. apply Hjs. eapply list_elem_of_lookup_2; eauto. }
  destruct (job_tasks job !! i) as [t|]; [|apply preserves_framed, framed_ret].
  destruct (task_state t); try apply preserves_framed, framed_ret.
  apply preserves_bind; [|intros _; apply preserves_settle].
  apply preserves_set_saves. intros js' Hjs'. apply Forall_insert; [exact Hjs'|].
  destruct Hjob as (vet & photos & Hv & Hp). destruct (task_kind t).
  - exists (Some (task_file t)), photos. split; [reflexivity | exact Hp].
  - exists vet, (photos ++ [task_file t])%list. split; [exact Hv|].
    cbn [job_photos with_tasks with_photos]. rewrite Hp, fmap_app. reflexivity.
Qed.

Lemma preserves_file_failed j i : preserves (file_failed j i).
Proof.
  unfold file_failed. apply preserves_saves. intros js Hjs.
  destruct (js !! j) as [job|] eqn:Hj; [|apply preserves_framed, framed_ret].
  assert (Hjob : job_ok job).
  { rewrite Forall_forall in Hjs. apply Hjs. eapply list_elem_of_lookup_2; eauto. }
  destruct (job_tasks job !! i) as [t|]; [|apply preserves_framed, framed_ret].
  destruct (task_state t); try apply preserves_framed, framed_ret.
  apply preserves_set_saves. intros js' Hjs'. now apply Forall_insert.
Qed.

End PreservesSaves.

End Profiles.

(** ** Registration *)

Section Registration.

Context {engine : Engine}.

Lemma handleSignup_eq :
  handleSignup =
  (raw ← input_value "signup-email";
   let email := toLowerCase (trim raw) in
   password ← input_value "signup-password";
   confirm ← input_value "signup-confirm";
   set_textContent "signup-error" EmptyString;;
   if is_empty email || is_empty password || is_empty confirm then
     set_textContent "signup-error" msg_fields_required
   else if negb (String.eqb password confirm) then
     set_textContent "signup-error" msg_mismatch
   else register email password).
Proof. reflexivity. Qed.

Lemma register_eq w accts email password :
  stored w accts -> Forall account_ok accts ->
  register email password w =
  if existsb (fun a => String.eqb (acc_email a) email) accts
  then set_textContent "signup-error" msg_exists w
  else Ok tt (signed_up email password accts w).
Proof.
  intros Hst Hok. unfold register.
  rewrite (bind_ok _ _ _ _ _ (getUsers_stored w accts Hst Hok)).
  rewrite bind_eq. cbn [as_array]. rewrite mret_eq.
  rewrite (bind_ok _ _ _ _ _ (array_some_accounts email accts w)).
  destruct (existsb _ accts); [reflexivity|].
  change (new_user email password) with (encode_account (registered email password)).
  change [encode_account (registered email password)]
    with (encode_account <$> [registered email password]).
  rewrite <- fmap_app. reflexivity.
Qed.

Lemma Inv_signed_up w accts email password :
  Inv w accts -> normalized email -> email <> EmptyString ->
  existsb (fun a => String.eqb (acc_email a) email) accts = false ->
  Inv (signed_up email password accts w) (accts ++ [registered email password]).
Proof.
  intros [H1 H2 H3 H4] Hn He Hfresh. split.
  - unfold stored, signed_up. cbn [localStorage set_navigations set_localStorage].
    rewrite lookup_insert_ne by discriminate. now rewrite lookup_insert_eq.
  - rewrite fmap_app. apply NoDup_app. split; [exact H2|]. split.
    + intros x Hx Hx'. apply list_elem_of_singleton in Hx'. subst x.
      cbn [registered acc_email] in Hx. apply existsb_email in Hx. congruence.
    + apply NoDup_singleton.
  - apply Forall_app. split; [exact H3|]. constructor; [|constructor].
    repeat split; try assumption; apply Hn.
  - exact H4.
Qed.

Lemma preserves_register email password :
  normalized email -> email <> EmptyString -> preserves (register email password).
Proof.
  intros Hn He w accts w' Hinv. rewrite (register_eq w accts) by apply Hinv.
  destruct (existsb _ accts) eqn:Hfresh.
  - intros Hw. apply (preserves_framed _ (framed_set_textContent _ _) w accts w' Hinv Hw).
  - intros [= <-]. eexists. now apply Inv_signed_up.
Qed.

Lemma preserves_handleSignup : preserves handleSignup.
Proof.
  rewrite handleSignup_eq.
  apply preserves_bind; [apply preserves_framed, framed_input_value | intros raw].
  cbv zeta.
  apply preserves_bind; [apply preserves_framed, framed_input_value | intros password].
  apply preserves_bind; [apply preserves_framed, framed_input_value | intros confirm].
  apply preserves_bind; [apply preserves_framed, framed_set_textContent | intros _].
  destruct (is_empty (toLowerCase (trim raw))) eqn:He;
    [apply preserves_framed, framed_set_textContent|].
  cbn [orb].
  destruct (is_empty password || is_empty confirm);
    [apply preserves_framed, framed_set_textContent|].
  destruct (negb (String.eqb password confirm));
    [apply preserves_framed, framed_set_textContent|].
  apply preserves_register; [apply normalized_normalize | now apply is_empty_false].
Qed.

End Registration.

(** ** Every reachable world satisfies the invariant *)

Section Reachable.

Context {engine : Engine}.

Lemma preserves_run_listener l : preserves (run_listener l).
Proof.
  destruct l; cbn [run_listener].
  - apply preserves_handleSignup.
  - apply preserves_framed, framed_handleLogin.
  - apply preserves_submit_pet.
  - apply preserves_framed, framed_logout.
Qed.

Lemma preserves_load_page doc : preserves (load_page doc).
Proof.
  unfold load_page. apply preserves_bind.
  - intros w accts w' [H1 H2 H3 H4]. cbn. intros [= <-]. exists accts.
    split; try assumption. constructor.
  - intros _. apply preserves_framed, framed_main.
Qed.

Lemma preserves_handle ev : preserves (handle ev).
Proof.
  destruct ev; cbn [handle].
  - apply preserves_load_page.
  - apply preserves_framed, framed_edit_element.
  - apply preserves_framed, framed_edit_element.
  - unfold fire. apply preserves_bind; [apply preserves_framed, framed_gets|].
    intros ls. destruct (ls !! n) as [[id l]|];
      [apply preserves_run_listener | apply preserves_framed, framed_ret].
  - apply preserves_file_loaded.
  - apply preserves_file_failed.
Qed.

Lemma Inv_initial : Inv initial [].
Proof. split; [reflexivity | constructor | constructor | constructor]. Qed.

(** The invariant of the data model holds in every world the page can
    reach. *)
Lemma reachable_Inv w : reachable w -> exists accts, Inv w accts.
Proof.
  induction 1 as [|w ev w' _ [accts IH] Hstep].
  - exists []. apply Inv_initial.
  - eapply preserves_handle; eauto.
Qed.

End Reachable.

(** ** The forms *)

Section Forms.

Context {engine : Engine}.

Lemma input_value_eq w id v : has_value w id v -> input_value id w = Ok v w.
Proof.
  intros (e & He & <-). unfold input_value. rewrite bind_eq.
  unfold getElementById, gets. now rewrite He.
Qed.

Lemma input_files_eq w id fs : has_files w id fs -> input_files id w = Ok fs w.
Proof.
  intros (e & He & <-). unfold input_files. rewrite bind_eq.
  unfold getElementById, gets. now rewrite He.
Qed.

Lemma set_textContent_eq w id t el :
  document w !! id = Some el -> set_textContent id t w = Ok tt (shows id t el w).
Proof.
  intros He. unfold set_textContent. rewrite update_element_eq, He. reflexivity.
Qed.

Lemma shows_twice id t t' el w :
  set_textContent id t' (shows id t el w) = Ok tt (shows id t' el w).
Proof.
  unfold set_textContent. rewrite update_element_eq. unfold shows.
  cbn [document set_document]. rewrite lookup_insert_eq.
  rewrite set_document_twice. reflexivity.
Qed.

Lemma has_value_shows w id t el id' v :
  id <> id' -> has_value w id' v -> has_value (shows id t el w) id' v.
Proof.
  intros Hne (e & He & Hv). exists e. split; [|exact Hv].
  unfold shows. cbn [document set_document]. now rewrite lookup_insert_ne.
Qed.

Lemma Inv_shows w id t el accts : Inv w accts -> Inv (shows id t el w) accts.
Proof. apply Inv_frame. split; reflexivity. Qed.

Lemma text_of_shows id t el w : text_of (shows id t el w) id = Some t.
Proof.
  unfold text_of, shows. cbn [document set_document]. now rewrite lookup_insert_eq.
Qed.

End Forms.

(** ** Login *)

Section Login.

Context {engine : Engine}.

Lemma handleLogin_eq w accts raw pw el :
  Inv w accts ->
  has_value w "login-email" raw -> has_value w "login-password" pw ->
  document w !! "login-error" = Some el ->
  let email := toLowerCase (trim raw) in
  handleLogin w =
  Ok tt (match find_account email accts with
         | Some a =>
             if String.eqb (acc_password a) pw
             then logged_in email (shows "login-error" EmptyString el w)
             else shows "login-error" msg_invalid el w
         | None => shows "login-error" msg_invalid el w
         end).
Proof.
  intros Hinv Hraw Hpw Hel email. unfold handleLogin.
  rewrite (bind_ok _ _ _ _ _ (input_value_eq _ _ _ Hraw)).
  rewrite (bind_ok _ _ _ _ _ (input_value_eq _ _ _ Hpw)).
  rewrite (bind_ok _ _ _ _ _ (set_textContent_eq _ _ _ _ Hel)).
  pose proof (Inv_shows w "login-error" EmptyString el accts Hinv) as Hinv'.
  rewrite (bind_ok _ _ _ _ _ (findUser_stored _ accts _ (inv_stored _ _ Hinv') (inv_accounts _ _ Hinv'))).
  fold email. destruct (find_account email accts) as [a|]; cbn [from_option].
  - cbn [encode_account truthy]. rewrite bind_eq, bind_eq.
    change (get_prop _ "password" ?w) with (Ok (VStr (acc_password a)) w).
    cbv beta iota. rewrite mret_eq. cbn [strict_eq].
    destruct (String.eqb (acc_password a) pw); cbn [negb].
    + reflexivity.
    + apply shows_twice.
  - cbn [truthy]. rewrite bind_eq, mret_eq. apply shows_twice.
Qed.

End Login.

(** ** Registration, on a filled form *)

Section Signup.

Context {engine : Engine}.

Lemma handleSignup_form w accts raw pw cf el :
  Inv w accts ->
  has_value w "signup-email" raw -> has_value w "signup-password" pw ->
  has_value w "signup-confirm" cf ->
  document w !! "signup-error" = Some el ->
  let email := toLowerCase (trim raw) in
  handleSignup w =
  Ok tt (if is_empty email || is_empty pw || is_empty cf
         then shows "signup-error" msg_fields_required el w
         else if negb (String.eqb pw cf)
         then shows "signup-error" msg_mismatch el w
         else if existsb (fun a => String.eqb (acc_email a) email) accts
         then shows "signup-error" msg_exists el w
         else signed_up email pw accts (shows "signup-error" EmptyString el w)).
Proof.
  intros Hinv Hraw Hpw Hcf Hel email. rewrite handleSignup_eq.
  rewrite (bind_ok _ _ _ _ _ (input_value_eq _ _ _ Hraw)). cbv zeta. fold email.
  rewrite (bind_ok _ _ _ _ _ (input_value_eq _ _ _ Hpw)).
  rewrite (bind_ok _ _ _ _ _ (input_value_eq _ _ _ Hcf)).
  rewrite (bind_ok _ _ _ _ _ (set_textContent_eq _ _ _ _ Hel)).
  destruct (is_empty email || is_empty pw || is_empty cf); [apply shows_twice|].
  destruct (negb (String.eqb pw cf)); [apply shows_twice|].
  pose proof (Inv_shows w "signup-error" EmptyString el accts Hinv) as Hinv'.
  rewrite (register_eq _ accts) by apply Hinv'.
  destruct (existsb _ accts); [apply shows_twice | reflexivity].
Qed.

End Signup.

(** * The claims *)

(** ** C1: reading the accounts *)

Section ClaimC1.

Context {engine : Engine}.

(** C1, as amended.  [getUsers] never throws and never writes to the
    storage.  It returns the empty array when the key [users] is absent
    or holds the empty string; it logs the failure and returns the empty
    array when the stored text is not JSON; and when the text is JSON it
    returns the parsed value as it is, array or not, without logging.
    The JSON reader always ends: a text it rejects is a text with a
    syntax error. *)
Theorem getUsers_never_throws (w : World) :
  (exists v w', getUsers w = Ok v w' /\ localStorage w' = localStorage w /\
     match localStorage w !! "users" with
     | None => v = VArr [] /\ w' = w
     | Some text =>
         if is_empty text then v = VArr [] /\ w' = w
         else match JSON.parse text with
              | Some parsed => v = parsed /\ w' = w
              | None => v = VArr [] /\ w' = parse_error_logged w
              end
     end) /\
  (forall text, JSON.parse_value (2 * String.length text + 1) text <> JSON.POutOfFuel).
Proof.
  split; [|apply parse_fuel_enough].
  unfold getUsers, getItem, gets. rewrite bind_eq.
  destruct (localStorage w !! "users") as [text|]; [|eauto 6].
  destruct (is_empty text); [eauto 6|].
  destruct (JSON.parse text) as [parsed|]; [eauto 6|].
  exists (VArr []), (parse_error_logged w). auto.
Qed.

(** C1 as it is stated fails: the text [42] is JSON but no array of
    accounts, and [getUsers] returns the number 42 without logging
    anything. *)
Lemma getUsers_wrong_structure :
  ~ (forall w text,
       localStorage w !! "users" = Some text ->
       (forall l, JSON.parse text <> Some (VArr l)) ->
       exists w', getUsers w = Ok (VArr []) w' /\
                  console w' = (console w ++ ["Error parsing users from localStorage"])%list).
Proof.
  intros H.
  destruct (H (set_localStorage (insert "users" "42") initial) "42") as (w' & Hw & _).
  - reflexivity.
  - intros l. vm_compute. discriminate.
  - vm_compute in Hw. discriminate.
Qed.

End ClaimC1.

(** ** C2: login *)

Section ClaimC2.

Context {engine : Engine}.

Lemma credentials_match_find accts email pw :
  NoDup (acc_email <$> accts) ->
  credentials_match accts email pw <->
  exists a, find_account email accts = Some a /\ String.eqb (acc_password a) pw = true.
Proof.
  intros Hnd. split.
  - intros (a & Ha & <- & <-). exists a. split; [now apply find_account_unique|].
    apply String.eqb_refl.
  - intros (a & Hf & Hp). apply find_account_Some in Hf as [Ha He].
    apply String.eqb_eq in Hp. exists a. auto.
Qed.

(** C2.  On the login form, with the accounts the storage holds, and
    whatever the engine's [trim] and [toLowerCase] answer: login
    succeeds, that is stores the trimmed, lower-cased identifier as the
    session and asks for the dashboard, exactly when an account has that
    identifier and the password typed; otherwise it shows the one
    message "Identifiants invalides." and leaves the storage and the
    location as they are. *)
Theorem login_iff_credentials (w : World) (accts : list Account) (raw pw : string)
    (el : Element) :
  Inv w accts ->
  has_value w "login-email" raw -> has_value w "login-password" pw ->
  document w !! "login-error" = Some el ->
  let email := toLowerCase (trim raw) in
  exists w', handleLogin w = Ok tt w' /\
    (credentials_match accts email pw ->
       localStorage w' = <["currentUser" := email]> (localStorage w) /\
       navigations w' = (navigations w ++ ["dashboard.html"])%list /\
       text_of w' "login-error" = Some EmptyString) /\
    (~ credentials_match accts email pw ->
       w' = shows "login-error" "Identifiants invalides." el w /\
       localStorage w' = localStorage w /\ navigations w' = navigations w /\
       text_of w' "login-error" = Some "Identifiants invalides.") /\
    (navigations w' = (navigations w ++ ["dashboard.html"])%list <->
     credentials_match accts email pw).
Proof.
  change "Identifiants invalides." with msg_invalid.
  intros Hinv Hraw Hpw Hel email.
  rewrite (handleLogin_eq w accts raw pw el Hinv Hraw Hpw Hel). fold email.
  pose proof (credentials_match_find accts email pw (inv_unique _ _ Hinv)) as Hiff.
  assert (Hne : forall l : list string, l <> (l ++ ["dashboard.html"])%list).
  { intros l Hl. apply (f_equal length) in Hl. rewrite length_app in Hl. simpl in Hl. lia. }
  assert (Hfail : ~ credentials_match accts email pw ->
            let w' := shows "login-error" msg_invalid el w in
            (credentials_match accts email pw ->
               localStorage w' = <["currentUser" := email]> (localStorage w) /\
               navigations w' = (navigations w ++ ["dashboard.html"])%list /\
               text_of w' "login-error" = Some EmptyString) /\
            (~ credentials_match accts email pw ->
               w' = shows "login-error" msg_invalid el w /\
               localStorage w' = localStorage w /\ navigations w' = navigations w /\
               text_of w' "login-error" = Some msg_invalid) /\
            (navigations w' = (navigations w ++ ["dashboard.html"])%list <->
             credentials_match accts email pw)).
  { intros Hm w'. split; [tauto|]. split.
    - intros _. split; [reflexivity|]. split; [reflexivity|]. split; [reflexivity|].
      apply text_of_shows.
    - split; [|tauto]. intros Hn. exfalso. apply (Hne (navigations w)). exact Hn. }
  destruct (find_account email accts) as [a|] eqn:Hf.
  - destruct (String.eqb (acc_password a) pw) eqn:Hp.
    + assert (Hm : credentials_match accts email pw) by (apply Hiff; eauto).
      eexists. split; [reflexivity|]. split; [|split].
      * intros _. split; [reflexivity|]. split; [reflexivity|].
        exact (text_of_shows "login-error" EmptyString el w).
      * tauto.
      * split; [tauto | reflexivity].
    + eexists. split; [reflexivity|]. apply Hfail.
      intros Hm. apply Hiff in Hm as (a' & [= <-] & Hp'). congruence.
  - eexists. split; [reflexivity|]. apply Hfail.
    intros Hm. apply Hiff in Hm as (a' & [=] & _).
Qed.

End ClaimC2.

(** ** C3: registration *)

Section ClaimC3.

Context {engine : Engine}.

(** C3.  On the registration form, whatever the engine's [trim] and
    [toLowerCase] answer, the checks come in the order: a field is empty
    (the identifier once trimmed and lower-cased, the password or the
    confirmation), the confirmation differs, the identifier is taken; the
    first that fails decides the message and the world is otherwise
    unchanged.  When none fails, one account with the trimmed,
    lower-cased identifier, fund 4 and no profile goes at the end of the
    accounts, the array is stored, the session is the new identifier and
    the dashboard is asked for. *)
Theorem signup_validation_order (w : World) (accts : list Account) (raw pw cf : string)
    (el : Element) :
  Inv w accts ->
  has_value w "signup-email" raw -> has_value w "signup-password" pw ->
  has_value w "signup-confirm" cf ->
  document w !! "signup-error" = Some el ->
  let email := toLowerCase (trim raw) in
  exists w', handleSignup w = Ok tt w' /\
    if is_empty email || is_empty pw || is_empty cf
    then rejected "Veuillez remplir tous les champs." el w w'
    else if negb (String.eqb pw cf)
    then rejected "Les mots de passe ne correspondent pas." el w w'
    else if bool_decide (email ∈ acc_email <$> accts)
    then rejected "Un compte avec cet e‑mail existe déjà." el w w'
    else
      let new := mkAccount email pw (of_Z 4) None in
      Inv w' (accts ++ [new]) /\
      localStorage w' =
        <["currentUser" := email]>
          (<["users" := JSON.stringify (VArr (encode_account <$> (accts ++ [new])%list))]>
             (localStorage w)) /\
      getUsers w' = Ok (VArr (encode_account <$> (accts ++ [new])%list)) w' /\
      navigations w' = (navigations w ++ ["dashboard.html"])%list /\
      text_of w' "signup-error" = Some EmptyString.
Proof.
  intros Hinv Hraw Hpw Hcf Hel email.
  rewrite (handleSignup_form w accts raw pw cf el Hinv Hraw Hpw Hcf Hel). fold email.
  eexists. split; [reflexivity|].
  destruct (is_empty email || is_empty pw || is_empty cf) eqn:He; [reflexivity|].
  destruct (negb (String.eqb pw cf)); [reflexivity|].
  destruct (existsb (fun a => String.eqb (acc_email a) email) accts) eqn:Hex.
  - apply existsb_email in Hex. rewrite bool_decide_eq_true_2 by exact Hex. reflexivity.
  - rewrite bool_decide_eq_false_2
      by (intros Hin; apply existsb_email in Hin; congruence).
    apply orb_false_iff in He as [He _]. apply orb_false_iff in He as [He _].
    assert (Hinv' : Inv (signed_up email pw accts (shows "signup-error" EmptyString el w))
                      (accts ++ [registered email pw])).
    { apply Inv_signed_up; [now apply Inv_shows | apply normalized_normalize
                           | now apply is_empty_false | exact Hex]. }
    split; [exact Hinv'|]. split; [reflexivity|].
    split; [apply getUsers_stored; apply Hinv'|]. split; [reflexivity|].
    apply text_of_shows.
Qed.

End ClaimC3.

(** ** C4: registering an identifier twice *)

Section ClaimC4.

Context {engine : Engine}.

(** C4.  When an account is stored under the identifier that the typed
    one becomes once trimmed and lower-cased by the engine, whatever the
    letter case and the surrounding white space it is typed with, a
    registration whose password is filled and confirmed fails with the
    message "Un compte avec cet e‑mail existe déjà."; the stored accounts,
    the session and the location are the same, and only the message has
    changed.  The message is the one of an earlier check exactly when
    that check fails: a field left empty, or a confirmation that
    differs. *)
Theorem signup_twice_rejected (w : World) (accts : list Account) (a : Account)
    (raw pw cf : string) (el : Element) :
  Inv w accts ->
  a ∈ accts -> toLowerCase (trim raw) = acc_email a ->
  has_value w "signup-email" raw -> has_value w "signup-password" pw ->
  has_value w "signup-confirm" cf ->
  document w !! "signup-error" = Some el ->
  let msg := if is_empty pw || is_empty cf then "Veuillez remplir tous les champs."
             else if String.eqb pw cf then "Un compte avec cet e‑mail existe déjà."
             else "Les mots de passe ne correspondent pas." in
  exists w', handleSignup w = Ok tt w' /\
    w' = shows "signup-error" msg el w /\
    localStorage w' = localStorage w /\ stored w' accts /\
    getUsers w' = Ok (VArr (encode_account <$> accts)) w' /\
    navigations w' = navigations w /\
    (pw <> EmptyString -> cf = pw ->
       text_of w' "signup-error" = Some "Un compte avec cet e‑mail existe déjà.").
Proof.
  intros Hinv Ha Hnorm Hraw Hpw Hcf Hel msg.
  rewrite (handleSignup_form w accts raw pw cf el Hinv Hraw Hpw Hcf Hel).
  assert (Hne : is_empty (toLowerCase (trim raw)) = false).
  { rewrite Hnorm. apply is_empty_false. pose proof (inv_accounts _ _ Hinv) as Hok.
    rewrite Forall_forall in Hok. apply (Hok a Ha). }
  assert (Hex : existsb (fun b => String.eqb (acc_email b) (toLowerCase (trim raw))) accts = true).
  { apply existsb_email. rewrite Hnorm. apply list_elem_of_fmap. eauto. }
  rewrite Hne, Hex. cbn [orb].
  assert (Hinv' : Inv (shows "signup-error" msg el w) accts) by now apply Inv_shows.
  exists (shows "signup-error" msg el w). split.
  { f_equal. subst msg. destruct (is_empty pw || is_empty cf); [reflexivity|].
    destruct (String.eqb pw cf); reflexivity. }
  split; [reflexivity|]. split; [reflexivity|]. split; [apply Hinv'|].
  split; [apply getUsers_stored; apply Hinv'|]. split; [reflexivity|].
  intros Hp ->. rewrite text_of_shows. f_equal. subst msg.
  apply is_empty_false in Hp. rewrite Hp. cbn [orb]. now rewrite String.eqb_refl.
Qed.

End ClaimC4.

(** ** C5, C6: saving a profile *)

Section ClaimsC5C6.

Context {engine : Engine}.

Section SaveProfile.

Lemma with_pet_elem (accts : list Account) (i : nat) a p :
  accts !! i = Some a -> with_pet p a ∈ <[i := with_pet p a]> accts.
Proof.
  intros Hi. apply list_elem_of_lookup. exists i.
  apply list_lookup_insert_eq. eapply lookup_lt_Some; eauto.
Qed.

End SaveProfile.

(** C5.  When the callback of a save runs for the account [a], the
    profile made of the name and the description of that save, of its
    certificate record and of its photo records, each record being the
    name and the data URL of the file read, takes the place of whatever
    profile the account had: looking the account up afterwards and
    reading its [pet] gives exactly that object, and nothing of the
    former profile. *)
Theorem save_replaces_profile (w : World) (accts : list Account) (job : SaveJob)
    (vet : option File) (photos : list File) (a : Account) :
  Inv w accts -> a ∈ accts ->
  job_vetObj job = encode_vet vet -> job_photos job = encode_file <$> photos ->
  prop_of (job_user job) "email" = Some (VStr (acc_email a)) ->
  exists w' user,
    final_world (save_callback job w) = Some w' /\
    findUser (acc_email a) w' = Ok user w' /\
    get_prop user "pet" w' =
      Ok (VObj [("name", VStr (job_name job)); ("description", VStr (job_desc job));
                ("vetFile",
                 match vet with
                 | Some f => VObj [("name", VStr (file_name f)); ("data", VStr (file_dataURL f))]
                 | None => VNull
                 end);
                ("photos",
                 VArr ((fun f => VObj [("name", VStr (file_name f));
                                       ("data", VStr (file_dataURL f))]) <$> photos))]) w' /\
    get_prop user "email" w' = Ok (VStr (acc_email a)) w' /\
    get_prop user "password" w' = Ok (VStr (acc_password a)) w'.
Proof.
  intros Hinv Ha Hv Hp Hu. set (submitted := mkPet (job_name job) (job_desc job) vet photos).
  apply list_elem_of_lookup in Ha as [i Hi].
  destruct (save_callback_found w accts job vet photos i a Hinv Hv Hp Hu Hi)
    as (w' & Hw' & Hst & Hsv).
  pose proof (Inv_with_pet w accts i a submitted w' Hinv Hi Hst Hsv) as Hinv'.
  exists w', (encode_account (with_pet submitted a)). split; [exact Hw'|]. split.
  - rewrite (findUser_stored w' _ (acc_email a) (inv_stored _ _ Hinv') (inv_accounts _ _ Hinv')).
    change (acc_email a) with (acc_email (with_pet submitted a)).
    rewrite find_account_unique; [reflexivity | apply Hinv' | now apply with_pet_elem].
  - split; [|split; reflexivity]. destruct vet; reflexivity.
Qed.

(** C6.  When the callback of a save runs for the account at index [i],
    the array stored afterwards is the former one with that account's
    profile replaced: the other accounts are the same, and so are the
    identifier, the password and the fund of the account itself; the
    other keys of the storage are untouched. *)
Theorem save_changes_only_profile (w : World) (accts : list Account) (job : SaveJob)
    (vet : option File) (photos : list File) (i : nat) (a : Account) :
  Inv w accts -> accts !! i = Some a ->
  job_vetObj job = encode_vet vet -> job_photos job = encode_file <$> photos ->
  prop_of (job_user job) "email" = Some (VStr (acc_email a)) ->
  exists w' accts' a',
    final_world (save_callback job w) = Some w' /\
    getUsers w' = Ok (VArr (encode_account <$> accts')) w' /\
    localStorage w' =
      <["users" := JSON.stringify (VArr (encode_account <$> accts'))]> (localStorage w) /\
    length accts' = length accts /\
    accts' !! i = Some a' /\
    acc_email a' = acc_email a /\ acc_password a' = acc_password a /\
    acc_fund a' = acc_fund a /\
    acc_pet a' = Some (mkPet (job_name job) (job_desc job) vet photos) /\
    (forall k, k <> i -> accts' !! k = accts !! k).
Proof.
  intros Hinv Hi Hv Hp Hu.
  destruct (save_callback_found w accts job vet photos i a Hinv Hv Hp Hu Hi)
    as (w' & Hw' & Hst & Hsv).
  pose proof (Inv_with_pet w accts i a _ w' Hinv Hi Hst Hsv) as Hinv'.
  exists w', (<[i := with_pet (job_pet job vet photos) a]> accts),
    (with_pet (job_pet job vet photos) a).
  split; [exact Hw'|]. split; [apply getUsers_stored; apply Hinv'|].
  split; [exact Hst|]. split; [apply length_insert|]. split.
  { apply list_lookup_insert_eq. eapply lookup_lt_Some; eauto. }
  repeat (split; [reflexivity|]).
  intros k Hk. now apply list_lookup_insert_ne.
Qed.

End ClaimsC5C6.

(** ** C9: the listing *)

Section ClaimC9.

Context {engine : Engine}.

Section Listing.

Lemma dog_card_account a p w :
  dog_card (encode_account a) (encode_pet p) w = Ok (pet_card a p) w.
Proof.
  unfold dog_card, card_image, pet_card, card_src. destruct p as [name desc vet photos].
  msimpl. cbn [of_Z mant]. rewrite ltb_length.
  destruct photos as [|f photos]; reflexivity.
Qed.

Lemma with_childNodes_app (c : Element) (xs ys : list Node) :
  with_childNodes (fun l => (l ++ ys)%list) (with_childNodes (fun l => (l ++ xs)%list) c)
  = with_childNodes (fun l => (l ++ xs ++ ys)%list) c.
Proof. unfold with_childNodes. cbn. now rewrite <- app_assoc. Qed.

Lemma with_childNodes_nil (c : Element) :
  with_childNodes (fun l => (l ++ [])%list) c = c.
Proof. destruct c. unfold with_childNodes. cbn. now rewrite app_nil_r. Qed.

(** The loop over the accounts appends the cards of the accounts that
    have a profile and counts them. *)
Lemma dogs_loop_accounts accts :
  forall n w c, document w !! "dogs-container" = Some c ->
  exists w', dogs_loop (encode_account <$> accts) n w = Ok (n + length (dog_cards accts))%nat w' /\
    document w' =
      <["dogs-container" := with_childNodes (fun l => (l ++ dog_cards accts)%list) c]> (document w) /\
    localStorage w' = localStorage w /\ saves w' = saves w /\
    navigations w' = navigations w.
Proof.
  induction accts as [|a accts IH]; intros n w c Hc.
  - exists w. cbn. rewrite Nat.add_0_r. split; [reflexivity|].
    rewrite with_childNodes_nil, insert_id by exact Hc. auto.
  - rewrite fmap_cons. cbn [dogs_loop]. rewrite bind_eq.
    change (get_prop (encode_account a) "pet" w)
      with (Ok (from_option encode_pet VNull (acc_pet a)) w).
    cbv beta iota. unfold dog_cards. cbn [omap list_omap]. fold (dog_cards accts).
    destruct (acc_pet a) as [p|]; cbn [from_option fmap option_fmap option_map].
    + change (truthy (encode_pet p)) with true. cbv iota.
      rewrite bind_eq, dog_card_account.
      rewrite bind_eq. unfold appendChild. rewrite update_element_eq, Hc.
      set (w1 := set_document _ w).
      destruct (IH (S n) w1 (with_childNodes (fun l => (l ++ [pet_card a p])%list) c))
        as (w' & Hrun & Hdoc & Hls & Hsv & Hnav).
      { unfold w1. cbn [document set_document]. apply lookup_insert_eq. }
      exists w'. rewrite Hrun. split; [f_equal; cbn; lia|].
      rewrite Hdoc, Hls, Hsv, Hnav. unfold w1. cbn [document set_document].
      rewrite insert_insert_eq, with_childNodes_app. auto.
    + cbn [truthy]. apply (IH n w c Hc).
Qed.

Lemma dog_cards_nil accts :
  dog_cards accts = [] <-> Forall (fun a => acc_pet a = None) accts.
Proof.
  induction accts as [|a accts IH]; [split; constructor|].
  unfold dog_cards in *. cbn [omap list_omap]. destruct (acc_pet a) as [p|] eqn:Hp; cbn.
  - split; [discriminate|]. intros H. inversion H. congruence.
  - rewrite IH. split; [now constructor|]. intros H. now inversion H.
Qed.

Lemma dog_cards_length accts :
  length (dog_cards accts) = length (filter (fun a => is_Some (acc_pet a)) accts).
Proof.
  induction accts as [|a accts IH]; [reflexivity|].
  unfold dog_cards in *. cbn [omap list_omap]. rewrite filter_cons.
  destruct (acc_pet a) as [p|] eqn:Hp; cbn.
  - rewrite decide_True by eauto. cbn. now rewrite IH.
  - rewrite decide_False by (intros [? ?]; discriminate). exact IH.
Qed.

End Listing.


End ClaimC9.

(** ** C10: identifiers are normalized *)

Section ClaimC10.

Context {engine : Engine}.

Section Identifiers.

Lemma find_ignoring_case_normalized x accts :
  (forall s, toLowerCase (toLowerCase s) = toLowerCase s) ->
  normalized x -> Forall (fun a => normalized (acc_email a)) accts ->
  find_account x accts = find_ignoring_case x accts.
Proof.
  intros Hidem Hx Hall. unfold find_account, find_ignoring_case.
  rewrite (normalized_lower x Hidem Hx).
  induction Hall as [|a accts Ha _ IH]; [reflexivity|].
  cbn [List.find]. rewrite (normalized_lower _ Hidem Ha), IH. reflexivity.
Qed.

Lemma save_callback_identifiers w accts job w' :
  Inv w accts -> job_ok job -> final_world (save_callback job w) = Some w' ->
  exists accts', Inv w' accts' /\ acc_email <$> accts' = acc_email <$> accts.
Proof.
  intros Hinv (vet & photos & Hv & Hp) Hw.
  destruct (prop_of (job_user job) "email") as [mine|] eqn:Hu.
  - destruct (index_of mine accts 0) as [k|] eqn:Hk.
    + apply index_of_Some in Hk as (a & Ha & _ & ->). rewrite Nat.sub_0_r in Ha.
      destruct (save_callback_found w accts job vet photos k a Hinv Hv Hp Hu Ha)
        as (w2 & Hw2 & Hst & Hsv).
      rewrite Hw in Hw2. injection Hw2 as <-.
      eexists. split; [eapply Inv_with_pet; eauto|].
      rewrite list_fmap_insert. apply list_insert_id.
      rewrite list_lookup_fmap, Ha. reflexivity.
    + rewrite (save_callback_not_found w accts job Hinv) in Hw.
      * injection Hw as <-. eauto.
      * intros a Ha. rewrite Hu. intros [= ->]. eapply index_of_None in Hk; eauto.
  - rewrite (save_callback_not_found w accts job Hinv) in Hw.
    + injection Hw as <-. eauto.
    + intros a Ha. rewrite Hu. discriminate.
Qed.

End Identifiers.


End ClaimC10.

(** ** C7, C8: the reads of a save *)

Section ClaimsC7C8.

Context {engine : Engine}.

Section Reads.

Lemma settle_eq w j job :
  saves w !! j = Some job ->
  settle j w =
  if forallb is_loaded (job_tasks job) && negb (job_done job)
  then unhandled (save_callback job) (set_saves (fun js => <[j := with_done job]> js) w)
  else Ok tt w.
Proof.
  intros Hj. unfold settle. rewrite bind_eq. unfold gets. rewrite Hj.
  destruct (forallb is_loaded (job_tasks job) && negb (job_done job)); reflexivity.
Qed.

Lemma file_loaded_reading w j i job t :
  saves w !! j = Some job -> job_tasks job !! i = Some t -> task_state t = Reading ->
  let job2 := load_task i t job in
  let w1 := set_saves (fun js => <[j := job2]> js) w in
  file_loaded j i w =
  if forallb is_loaded (job_tasks job2) && negb (job_done job2)
  then unhandled (save_callback job2) (set_saves (fun js => <[j := with_done job2]> js) w1)
  else Ok tt w1.
Proof.
  intros Hj Hi Ht job2 w1. unfold file_loaded. rewrite bind_eq. unfold gets.
  rewrite Hj, Hi, Ht. rewrite bind_eq. unfold modify at 1.
  fold (load_task i t job). fold job2. fold w1.
  apply settle_eq. unfold w1. cbn [saves set_saves].
  apply list_lookup_insert_eq. eapply lookup_lt_Some; eauto.
Qed.

Lemma file_loaded_idle w j i :
  match saves w !! j with
  | Some job =>
      match job_tasks job !! i with
      | Some t => task_state t <> Reading
      | None => True
      end
  | None => True
  end ->
  file_loaded j i w = Ok tt w.
Proof.
  intros H. unfold file_loaded. rewrite bind_eq. unfold gets.
  destruct (saves w !! j) as [job|]; [|reflexivity].
  destruct (job_tasks job !! i) as [t|]; [|reflexivity].
  destruct (task_state t); [congruence | reflexivity | reflexivity].
Qed.

Lemma file_failed_eq w j i :
  file_failed j i w =
  Ok tt (match saves w !! j with
         | Some job =>
             match job_tasks job !! i with
             | Some t =>
                 match task_state t with
                 | Reading => set_saves (fun js => <[j := fail_task i t job]> js) w
                 | _ => w
                 end
             | None => w
             end
         | None => w
         end).
Proof.
  unfold file_failed. rewrite bind_eq. unfold gets.
  destruct (saves w !! j) as [job|]; [|reflexivity].
  destruct (job_tasks job !! i) as [t|]; [|reflexivity].
  destruct (task_state t); reflexivity.
Qed.

Lemma not_all_loaded (tasks : list ReaderTask) i t :
  tasks !! i = Some t -> task_state t <> Loaded -> forallb is_loaded tasks = false.
Proof.
  revert i. induction tasks as [|x tasks IH]; intros [|i] Hi Ht; try discriminate.
  - injection Hi as ->. cbn [forallb]. unfold is_loaded.
    destruct (task_state t); [reflexivity | congruence | reflexivity].
  - cbn. rewrite (IH i Hi Ht). apply andb_false_r.
Qed.

(** The callback of a save always ends, and leaves the saves alone. *)
Lemma save_callback_defined w accts job :
  Inv w accts -> job_ok job ->
  exists w', final_world (save_callback job w) = Some w' /\ saves w' = saves w /\
             exists accts', Inv w' accts'.
Proof.
  intros Hinv Hjob. pose proof Hjob as (vet & photos & Hv & Hp).
  assert (Hdef : exists w', final_world (save_callback job w) = Some w' /\ saves w' = saves w).
  { destruct (prop_of (job_user job) "email") as [mine|] eqn:Hu.
    - destruct (index_of mine accts 0) as [k|] eqn:Hk.
      + apply index_of_Some in Hk as (a & Ha & _ & ->). rewrite Nat.sub_0_r in Ha.
        destruct (save_callback_found w accts job vet photos k a Hinv Hv Hp Hu Ha)
          as (w2 & Hw2 & _ & Hsv). eauto.
      + rewrite (save_callback_not_found w accts job Hinv); [cbn; eauto|].
        intros a Ha. rewrite Hu. intros [= ->]. eapply index_of_None in Hk; eauto.
    - rewrite (save_callback_not_found w accts job Hinv); [cbn; eauto|].
      intros a Ha. rewrite Hu. discriminate. }
  destruct Hdef as (w' & Hw' & Hsv). exists w'. split; [exact Hw'|]. split; [exact Hsv|].
  eapply preserves_save_callback; eauto.
Qed.

Lemma unhandled_final m w w' :
  final_world (m w) = Some w' -> unhandled m w = Ok tt w' \/ exists x, unhandled m w = Ok x w'.
Proof.
  unfold unhandled. destruct (m w) as [[] w1|e w1|]; cbn; intros [= <-]; eauto.
Qed.

Lemma job_ok_load_task i t job : job_ok job -> job_ok (load_task i t job).
Proof.
  intros (vet & photos & Hv & Hp). unfold load_task. destruct (task_kind t).
  - exists (Some (task_file t)), photos. split; [reflexivity | exact Hp].
  - exists vet, (photos ++ [task_file t])%list. split; [exact Hv|].
    cbn [job_photos with_tasks with_photos]. rewrite Hp, fmap_app. reflexivity.
Qed.

Lemma Inv_set_saves w accts f :
  Inv w accts -> Forall job_ok (f (saves w)) -> Inv (set_saves f w) accts.
Proof. intros [H1 H2 H3 H4] Hf. split; assumption. Qed.

Lemma Inv_job w accts j job : Inv w accts -> saves w !! j = Some job -> job_ok job.
Proof.
  intros Hinv Hj. pose proof (inv_saves _ _ Hinv) as Hs. rewrite Forall_forall in Hs.
  apply Hs. eapply list_elem_of_lookup_2; eauto.
Qed.

Lemma waiting_step w0 job0 j w ev :
  for_save j ev -> waiting w0 job0 j w ->
  exists w', step ev w = Some w' /\ waiting w0 job0 j w'.
Proof.
  intros Hev [[accts Hinv] (job & Hj & Hq & Hfail)]. unfold step.
  destruct ev as [| | | |j' i|j' i]; cbn in Hev; try contradiction; subst j'; cbn [handle].
  - destruct (job_tasks job !! i) as [t|] eqn:Hi.
    2:{ rewrite file_loaded_idle by (rewrite Hj, Hi; exact I).
        eexists. split; [reflexivity|]. split; eauto. }
    destruct (task_state t) eqn:Ht.
    2,3: rewrite file_loaded_idle by (rewrite Hj, Hi, Ht; discriminate);
         eexists; (split; [reflexivity|]); split; eauto.
    rewrite (file_loaded_reading w j i job t Hj Hi Ht). cbv zeta.
    set (job2 := load_task i t job).
    destruct Hq as [Hall|[Hdone Hls]].
    { rewrite (not_all_loaded _ i t Hi) in Hall; [discriminate | rewrite Ht; discriminate]. }
    assert (Hok2 : job_ok job2) by (apply job_ok_load_task; eapply Inv_job; eauto).
    assert (Hfail2 : forall i' t', job_tasks job0 !! i' = Some t' -> task_state t' = Failed ->
                                   job_tasks job2 !! i' = Some t').
    { intros i' t' H1 H2. specialize (Hfail i' t' H1 H2).
      unfold job2, load_task. cbn [job_tasks with_tasks].
      rewrite list_lookup_insert_ne; [destruct (task_kind t); exact Hfail|].
      intros ->. rewrite Hi in Hfail. injection Hfail as ->. congruence. }
    set (w1 := set_saves (fun js => <[j := job2]> js) w).
    assert (Hinv1 : Inv w1 accts).
    { apply Inv_set_saves; [exact Hinv|]. apply Forall_insert; [apply Hinv | exact Hok2]. }
    assert (Hlt : (j < length (saves w))%nat) by (eapply lookup_lt_Some; eauto).
    destruct (forallb is_loaded (job_tasks job2)) eqn:Hall2; cbn [andb].
    + assert (Hd2 : job_done job2 = false).
      { unfold job2, load_task. destruct (task_kind t); exact Hdone. }
      rewrite Hd2. cbn [negb].
      set (w2 := set_saves (fun js => <[j := with_done job2]> js) w1).
      assert (Hinv2 : Inv w2 accts).
      { apply Inv_set_saves; [exact Hinv1|]. apply Forall_insert; [apply Hinv1 | exact Hok2]. }
      destruct (save_callback_defined w2 accts job2 Hinv2 Hok2) as (w' & Hw' & Hsv & Hinv').
      exists w'. split.
      { unfold unhandled. destruct (save_callback job2 w2); cbn in Hw' |- *; congruence. }
      split; [exact Hinv'|]. exists (with_done job2). split.
      { rewrite Hsv. unfold w2, w1. cbn [saves set_saves].
        rewrite list_insert_insert_eq. apply list_lookup_insert_eq. exact Hlt. }
      split; [left; exact Hall2 | exact Hfail2].
    + exists w1. split; [reflexivity|]. split; [eauto|]. exists job2. split.
      { unfold w1. cbn [saves set_saves]. apply list_lookup_insert_eq. exact Hlt. }
      split; [|exact Hfail2]. right. split; [|exact Hls].
      unfold job2, load_task. destruct (task_kind t); exact Hdone.
  - rewrite file_failed_eq, Hj. cbn [final_world].
    destruct (job_tasks job !! i) as [t|] eqn:Hi.
    2:{ eexists. split; [reflexivity|]. split; eauto. }
    destruct (task_state t) eqn:Ht.
    2,3: eexists; (split; [reflexivity|]); split; eauto.
    destruct Hq as [Hall|[Hdone Hls]].
    { rewrite (not_all_loaded _ i t Hi) in Hall; [discriminate | rewrite Ht; discriminate]. }
    assert (Hlt : (j < length (saves w))%nat) by (eapply lookup_lt_Some; eauto).
    eexists. split; [reflexivity|]. split.
    + exists accts. apply Inv_set_saves; [exact Hinv|].
      apply Forall_insert; [apply Hinv|]. exact (Inv_job w accts j job Hinv Hj).
    + exists (fail_task i t job). split.
      { cbn [saves set_saves]. apply list_lookup_insert_eq. exact Hlt. }
      split; [right; split; [exact Hdone | exact Hls]|].
      intros i' t' H1 H2. specialize (Hfail i' t' H1 H2).
      unfold fail_task. cbn [job_tasks with_tasks].
      rewrite list_lookup_insert_ne; [exact Hfail|].
      intros ->. rewrite Hi in Hfail. injection Hfail as ->. congruence.
Qed.

Lemma waiting_run w0 job0 j evs :
  Forall (for_save j) evs ->
  forall w, waiting w0 job0 j w ->
  exists w', run evs w = Some w' /\ waiting w0 job0 j w'.
Proof.
  induction 1 as [|ev evs Hev _ IH]; intros w Hw; [exists w; split; [reflexivity | exact Hw]|].
  destruct (waiting_step w0 job0 j w ev Hev Hw) as (w1 & Hstep & Hw1).
  cbn [run]. rewrite Hstep. apply IH, Hw1.
Qed.

End Reads.

(** C7.  Take a save whose callback has not run, and let the load and
    error events of its readers come in any number and any order.  The
    run ends, and at its end: if some task of the save is not loaded, the
    storage is what it was and the callback has not run; a task that had
    failed is still failed, so that a save with a failed read never
    writes; and the callback has run only if every task is loaded. *)
Theorem save_waits_for_all_reads (w : World) (accts : list Account) (j : nat)
    (job : SaveJob) (evs : list Event) :
  Inv w accts -> saves w !! j = Some job -> job_done job = false ->
  Forall (for_save j) evs ->
  exists w' job', run evs w = Some w' /\ saves w' !! j = Some job' /\
    (forallb is_loaded (job_tasks job') = false ->
       localStorage w' = localStorage w /\ job_done job' = false) /\
    (forall i t, job_tasks job !! i = Some t -> task_state t = Failed ->
       job_tasks job' !! i = Some t /\
       localStorage w' = localStorage w /\ job_done job' = false) /\
    (forall i t, job_tasks job' !! i = Some t -> task_state t = Failed ->
       localStorage w' = localStorage w /\ job_done job' = false) /\
    (job_done job' = true -> forallb is_loaded (job_tasks job') = true).
Proof.
  intros Hinv Hj Hdone Hevs.
  assert (Hw : waiting w job j w).
  { split; [eauto|]. exists job. split; [exact Hj|]. split; [right; auto | auto]. }
  destruct (waiting_run w job j evs Hevs w Hw) as (w' & Hrun & [_ (job' & Hj' & Hq & Hfail)]).
  exists w', job'. split; [exact Hrun|]. split; [exact Hj'|].
  assert (Hpending : forallb is_loaded (job_tasks job') = false ->
                     localStorage w' = localStorage w /\ job_done job' = false).
  { intros Hn. destruct Hq as [Hall|[Hd Hls]]; [congruence | auto]. }
  split; [exact Hpending|]. split; [|split].
  - intros i t Hi Ht. split; [now apply Hfail|]. apply Hpending.
    apply (not_all_loaded _ i t); [now apply Hfail | rewrite Ht; discriminate].
  - intros i t Hi Ht. apply Hpending.
    apply (not_all_loaded _ i t Hi). rewrite Ht. discriminate.
  - intros Hd. destruct Hq as [Hall|[Hd' _]]; [exact Hall | congruence].
Qed.

Section CompletionOrder.

Lemma photo_files_insert tasks i x order :
  i ∉ order -> photo_files (<[i := x]> tasks) order = photo_files tasks order.
Proof.
  induction order as [|k order IH]; intros Hi; [reflexivity|].
  apply not_elem_of_cons in Hi as [Hne Hi]. unfold photo_files in *.
  cbn [omap list_omap]. rewrite IH by exact Hi. unfold photo_of at 1 3.
  rewrite list_lookup_insert_ne by exact Hne. reflexivity.
Qed.

Lemma load_task_photos i t job photos0 :
  job_tasks job !! i = Some t -> job_photos job = encode_file <$> photos0 ->
  job_photos (load_task i t job) = encode_file <$> (photos0 ++ photo_files (job_tasks job) [i])%list.
Proof.
  intros Hi Hp. unfold photo_files, photo_of, load_task. cbn [omap list_omap].
  rewrite Hi. cbn [mbind option_bind]. destruct (task_kind t); cbn.
  - now rewrite app_nil_r.
  - now rewrite Hp, fmap_app.
Qed.

Lemma load_task_vetObj i t job vet0 :
  job_vetObj job = encode_vet vet0 ->
  exists vet, job_vetObj (load_task i t job) = encode_vet vet.
Proof.
  intros Hv. unfold load_task. destruct (task_kind t).
  - exists (Some (task_file t)). reflexivity.
  - exists vet0. exact Hv.
Qed.

(** The loads of a save, one after the other, in any order. *)
Lemma loads_in_order order :
  forall w accts j job photos0 vet0,
  Inv w accts -> saves w !! j = Some job -> job_done job = false ->
  job_photos job = encode_file <$> photos0 -> job_vetObj job = encode_vet vet0 ->
  NoDup order ->
  (forall i, i ∈ order -> exists t, job_tasks job !! i = Some t /\ task_state t = Reading) ->
  exists w' job', run (EvFileLoad j <$> order) w = Some w' /\ saves w' !! j = Some job' /\
    job_photos job' = encode_file <$> (photos0 ++ photo_files (job_tasks job) order)%list /\
    (forallb is_loaded (job_tasks job') = true -> order <> [] ->
     forall k a, accts !! k = Some a ->
       prop_of (job_user job) "email" = Some (VStr (acc_email a)) ->
       exists vet,
         localStorage w' =
           <["users" := JSON.stringify (VArr (encode_account <$>
               <[k := with_pet (mkPet (job_name job) (job_desc job) vet
                                  (photos0 ++ photo_files (job_tasks job) order)%list) a]> accts))]>
             (localStorage w)).
Proof.
  induction order as [|i order IH]; intros w accts j job photos0 vet0 Hinv Hj Hdone Hp Hv Hnd Hrd.
  { exists w, job. split; [reflexivity|]. split; [exact Hj|]. split.
    - unfold photo_files. cbn. now rewrite app_nil_r.
    - intros _ Hne. congruence. }
  apply NoDup_cons in Hnd as [Hi_fresh Hnd].
  destruct (Hrd i) as (t & Hi & Ht); [left|].
  rewrite fmap_cons. cbn [run]. unfold step. cbn [handle].
  rewrite (file_loaded_reading w j i job t Hj Hi Ht). cbv zeta.
  set (job2 := load_task i t job).
  set (w1 := set_saves (fun js => <[j := job2]> js) w).
  assert (Hok2 : job_ok job2) by (apply job_ok_load_task; eapply Inv_job; eauto).
  assert (Hinv1 : Inv w1 accts).
  { apply Inv_set_saves; [exact Hinv|]. apply Forall_insert; [apply Hinv | exact Hok2]. }
  assert (Hlt : (j < length (saves w))%nat) by (eapply lookup_lt_Some; eauto).
  assert (Hd2 : job_done job2 = false).
  { unfold job2, load_task. destruct (task_kind t); exact Hdone. }
  assert (Hp2 : job_photos job2 = encode_file <$> (photos0 ++ photo_files (job_tasks job) [i])%list).
  { now apply load_task_photos. }
  destruct (load_task_vetObj i t job vet0 Hv) as [vet2 Hv2]. fold job2 in Hv2.
  assert (Hu2 : job_user job2 = job_user job /\ job_name job2 = job_name job /\
                job_desc job2 = job_desc job).
  { unfold job2, load_task. destruct (task_kind t); auto. }
  destruct Hu2 as (Hu2 & Hn2 & Hde2).
  assert (Hrest : forall i', i' ∈ order ->
            exists t', job_tasks job2 !! i' = Some t' /\ task_state t' = Reading).
  { intros i' Hi'. destruct (Hrd i') as (t' & H1 & H2); [now right|].
    exists t'. split; [|exact H2]. unfold job2, load_task. cbn [job_tasks with_tasks].
    rewrite list_lookup_insert_ne; [destruct (task_kind t); exact H1|].
    intros ->. contradiction. }
  assert (Hfiles : photo_files (job_tasks job) (i :: order)
                   = (photo_files (job_tasks job) [i] ++ photo_files (job_tasks job2) order)%list).
  { unfold job2, load_task. cbn [job_tasks with_tasks].
    replace (job_tasks (match task_kind t with
                        | Certificate => with_vetObj (encode_file (task_file t)) job
                        | Photo => with_photos (job_photos job ++ [encode_file (task_file t)])%list job
                        end)) with (job_tasks job) by (destruct (task_kind t); reflexivity).
    rewrite photo_files_insert by exact Hi_fresh.
    unfold photo_files. cbn [omap list_omap]. destruct (photo_of (job_tasks job) i); reflexivity. }
  destruct (forallb is_loaded (job_tasks job2)) eqn:Hall2; cbn [andb].
  - rewrite Hd2. cbn [negb].
    assert (Horder : order = []).
    { destruct order as [|i' order]; [reflexivity|]. exfalso.
      destruct (Hrest i') as (t' & H1 & H2); [left|].
      rewrite (not_all_loaded _ i' t' H1) in Hall2; [discriminate | rewrite H2; discriminate]. }
    subst order. cbn [fmap list_fmap run].
    set (w2 := set_saves (fun js => <[j := with_done job2]> js) w1).
    assert (Hinv2 : Inv w2 accts).
    { apply Inv_set_saves; [exact Hinv1|]. apply Forall_insert; [apply Hinv1 | exact Hok2]. }
    destruct (save_callback_defined w2 accts job2 Hinv2 Hok2) as (w' & Hw' & Hsv & _).
    exists w', (with_done job2). split.
    { unfold unhandled. destruct (save_callback job2 w2); cbn in Hw' |- *; congruence. }
    split.
    { rewrite Hsv. unfold w2, w1. cbn [saves set_saves].
      rewrite list_insert_insert_eq. apply list_lookup_insert_eq. exact Hlt. }
    split; [exact Hp2|].
    intros _ _ k a Hk Hu. exists vet2.
    destruct (save_callback_found w2 accts job2 vet2
                (photos0 ++ photo_files (job_tasks job) [i])%list k a Hinv2 Hv2 Hp2)
      as (w'' & Hw'' & Hst & _); [now rewrite Hu2 | exact Hk|].
    rewrite Hw' in Hw''. injection Hw'' as <-. rewrite Hst.
    unfold job_pet. rewrite Hn2, Hde2. reflexivity.
  - destruct (IH w1 accts j job2 (photos0 ++ photo_files (job_tasks job) [i])%list vet2 Hinv1)
      as (w' & job' & Hrun & Hj' & Hp' & Hst'); auto.
    { unfold w1. cbn [saves set_saves]. apply list_lookup_insert_eq. exact Hlt. }
    exists w', job'. split; [exact Hrun|]. split; [exact Hj'|].
    rewrite Hfiles, app_assoc. split; [exact Hp'|].
    intros Hall _ k a Hk Hu.
    destruct order as [|i' order].
    { cbn in Hrun. injection Hrun as <-. unfold w1 in Hj'. cbn [saves set_saves] in Hj'.
      rewrite list_lookup_insert_eq in Hj' by exact Hlt. injection Hj' as <-. congruence. }
    destruct (Hst' Hall) with (k := k) (a := a) as [vet Hls]; [discriminate | exact Hk | now rewrite Hu2|].
    exists vet. rewrite Hls, Hn2, Hde2. reflexivity.
Qed.

End CompletionOrder.

(** C8.  Take a save that has just been started and let its reads
    complete in the order [order].  The photo records of the save are
    then the records, name and data URL, of the files of the photo tasks
    among the completed tasks, in the order of completion, one for each;
    and once every task is loaded the profile stored for the account of
    the save carries the photos in that order. *)
Theorem photos_in_completion_order (w : World) (accts : list Account) (j : nat)
    (job : SaveJob) (order : list nat) :
  Inv w accts -> saves w !! j = Some job -> job_done job = false ->
  job_photos job = [] -> job_vetObj job = VNull ->
  NoDup order ->
  (forall i, i ∈ order -> exists t, job_tasks job !! i = Some t /\ task_state t = Reading) ->
  exists w' job', run (EvFileLoad j <$> order) w = Some w' /\ saves w' !! j = Some job' /\
    job_photos job' =
      (fun f => VObj [("name", VStr (file_name f)); ("data", VStr (file_dataURL f))])
        <$> photo_files (job_tasks job) order /\
    length (job_photos job') = length (filter (fun i => is_Some (photo_of (job_tasks job) i)) order) /\
    (forallb is_loaded (job_tasks job') = true -> order <> [] ->
     forall k a, accts !! k = Some a ->
       prop_of (job_user job) "email" = Some (VStr (acc_email a)) ->
       exists vet,
         localStorage w' =
           <["users" := JSON.stringify (VArr (encode_account <$>
               <[k := with_pet (mkPet (job_name job) (job_desc job) vet
                                  (photo_files (job_tasks job) order)) a]> accts))]>
             (localStorage w)).
Proof.
  intros Hinv Hj Hdone Hp Hv Hnd Hrd.
  destruct (loads_in_order order w accts j job [] None Hinv Hj Hdone Hp Hv Hnd Hrd)
    as (w' & job' & Hrun & Hj' & Hp' & Hst).
  exists w', job'. split; [exact Hrun|]. split; [exact Hj'|]. split; [exact Hp'|].
  split; [|exact Hst].
  rewrite Hp', length_fmap. cbn [app]. unfold photo_files. clear.
  induction order as [|i order IH]; [reflexivity|].
  cbn [omap list_omap]. rewrite filter_cons.
  destruct (photo_of (job_tasks job) i) eqn:E; cbn.
  - rewrite decide_True by eauto. cbn. now rewrite IH.
  - rewrite decide_False by (intros [? ?]; discriminate). exact IH.
Qed.

End ClaimsC7C8.

(** ** Starting a save *)

Section Start.

Context {engine : Engine}.

Lemma has_files_shows w id t el id' fs :
  id <> id' -> has_files w id' fs -> has_files (shows id t el w) id' fs.
Proof.
  intros Hne (e & He & Hv). exists e. split; [|exact Hv].
  unfold shows. cbn [document set_document]. now rewrite lookup_insert_ne.
Qed.

(** Submitting the filled pet form starts a save whose variables hold
    the trimmed name and description, no record yet, and one reading task
    for each selected file. *)
Lemma savePetInfo_started w user rawName rawDesc vetFiles photoFiles el :
  has_value w "pet-name" rawName -> has_value w "pet-desc" rawDesc ->
  document w !! "pet-error" = Some el ->
  has_files w "pet-vet" vetFiles -> has_files w "pet-photos" photoFiles ->
  trim rawName <> EmptyString -> trim rawDesc <> EmptyString ->
  savePetInfo user w =
  Ok tt (set_saves (fun js => (js ++ [new_job user rawName rawDesc vetFiles photoFiles])%list)
           (shows "pet-error" EmptyString el w)).
Proof.
  intros Hn Hd Hel Hv Hp Hne Hde. unfold savePetInfo.
  rewrite (bind_ok _ _ _ _ _ (input_value_eq _ _ _ Hn)).
  rewrite (bind_ok _ _ _ _ _ (input_value_eq _ _ _ Hd)).
  rewrite bind_eq. unfold getElementById at 1, gets. rewrite Hel.
  rewrite (bind_ok _ _ _ _ _ (set_textContent_eq _ _ _ _ Hel)).
  apply is_empty_false in Hne, Hde. rewrite Hne, Hde. cbn [orb].
  assert (Hv' := has_files_shows w "pet-error" EmptyString el "pet-vet" vetFiles
                   ltac:(discriminate) Hv).
  assert (Hp' := has_files_shows w "pet-error" EmptyString el "pet-photos" photoFiles
                   ltac:(discriminate) Hp).
  rewrite (bind_ok _ _ _ _ _ (input_files_eq _ _ _ Hv')).
  rewrite (bind_ok _ _ _ _ _ (input_files_eq _ _ _ Hp')).
  reflexivity.
Qed.

(** The submit listener, on the filled pet form: the save is started,
    then its callback runs if it has nothing to read. *)
Lemma submit_pet_started w user rawName rawDesc vetFiles photoFiles el :
  has_value w "pet-name" rawName -> has_value w "pet-desc" rawDesc ->
  document w !! "pet-error" = Some el ->
  has_files w "pet-vet" vetFiles -> has_files w "pet-photos" photoFiles ->
  trim rawName <> EmptyString -> trim rawDesc <> EmptyString ->
  submit_pet user w =
  settle (length (saves w))
    (set_saves (fun js => (js ++ [new_job user rawName rawDesc vetFiles photoFiles])%list)
       (shows "pet-error" EmptyString el w)).
Proof.
  intros Hn Hd Hel Hv Hp Hne Hde. unfold submit_pet. rewrite bind_eq. unfold gets at 1.
  now rewrite (bind_ok _ _ _ _ _ (savePetInfo_started w user rawName rawDesc vetFiles
                                     photoFiles el Hn Hd Hel Hv Hp Hne Hde)).
Qed.

Lemma Inv_world_of accts doc js :
  NoDup (acc_email <$> accts) -> Forall account_ok accts -> Forall job_ok js ->
  Inv (world_of accts doc js) accts.
Proof.
  intros H1 H2 H3. split; [|exact H1|exact H2|exact H3].
  unfold stored, world_of. cbn [localStorage]. now rewrite lookup_insert_eq.
Qed.

Lemma job_ok_new_job user n d vs ps : job_ok (new_job user n d vs ps).
Proof. exists None, []. split; reflexivity. Qed.

Lemma reachable_run evs :
  forall w w', reachable w -> run evs w = Some w' -> reachable w'.
Proof.
  induction evs as [|ev evs IH]; intros w w' Hw; cbn [run].
  - now intros [= <-].
  - destruct (step ev w) as [w1|] eqn:Hs; [|discriminate].
    apply IH. eapply reach_step; eauto.
Qed.

End Start.


(** * Further properties of the script *)

(** ** The storage accessors and the session *)

Section Accessors.

Context {engine : Engine}.

Section Session.

Lemma find_account_absent e accts :
  e ∉ acc_email <$> accts -> find_account e accts = None.
Proof.
  intros Hn. destruct (find_account e accts) as [a|] eqn:Hf; [|reflexivity].
  apply find_account_Some in Hf as [Ha <-]. exfalso. apply Hn.
  apply list_elem_of_fmap. eauto.
Qed.

Lemma Inv_with_session w accts e : Inv w accts -> Inv (with_session e w) accts.
Proof.
  apply Inv_frame. split; [|reflexivity]. unfold with_session.
  cbn [localStorage set_localStorage]. now rewrite lookup_insert_ne.
Qed.

Lemma account_email_not_empty w accts a :
  Inv w accts -> a ∈ accts -> is_empty (acc_email a) = false.
Proof.
  intros Hinv Ha. apply is_empty_false.
  pose proof (inv_accounts _ _ Hinv) as Hok. rewrite Forall_forall in Hok.
  apply (Hok a Ha).
Qed.

Lemma account_fund w accts a : Inv w accts -> a ∈ accts -> acc_fund a = of_Z 4.
Proof.
  intros Hinv Ha.
  pose proof (inv_accounts _ _ Hinv) as Hok. rewrite Forall_forall in Hok.
  apply (Hok a Ha).
Qed.

End Session.

(** X1.  Whatever value [setUsers] stores, provided [JSON.stringify]
    writes it in full, [getUsers] reads the same value back, without
    logging; [setUsers] writes the key [users] and no other. *)
Theorem setUsers_then_getUsers (users : JSVal) (w : World) :
  json_wf users ->
  exists w', setUsers users w = Ok tt w' /\
    localStorage w' = <["users" := JSON.stringify users]> (localStorage w) /\
    getUsers w' = Ok users w' /\
    (forall other, setUsers other w' = setUsers other w).
Proof.
  intros Hwf. eexists. split; [reflexivity|]. split; [reflexivity|]. split.
  - unfold getUsers, getItem, gets. rewrite bind_eq. cbn [localStorage set_localStorage].
    rewrite lookup_insert_eq, stringify_not_empty, parse_stringify by assumption.
    reflexivity.
  - intros other. unfold setUsers, setItem, modify, set_localStorage. cbn.
    now rewrite insert_insert_eq.
Qed.

(** X2.  [logout] removes the session and nothing else from the storage
    and asks for the home page; the dashboard then only redirects to the
    login page, whatever the storage holds. *)
Theorem logout_ends_session (w : World) :
  exists w1, logout w = Ok tt w1 /\
    localStorage w1 = delete "currentUser" (localStorage w) /\
    localStorage w1 !! "users" = localStorage w !! "users" /\
    navigations w1 = (navigations w ++ ["index.html"])%list /\
    getCurrentUserEmail w1 = Ok None w1 /\
    loadDashboard w1 = Ok tt (redirected "login.html" w1).
Proof.
  eexists. split; [reflexivity|]. cbn [localStorage set_localStorage set_navigations navigations].
  split; [reflexivity|]. split; [now rewrite lookup_delete_ne|]. split; [reflexivity|].
  assert (Hs : forall w0 : World,
             getCurrentUserEmail
               (set_navigations (fun l => (l ++ ["index.html"])%list)
                  (set_localStorage (delete "currentUser") w0))
             = Ok None (set_navigations (fun l => (l ++ ["index.html"])%list)
                          (set_localStorage (delete "currentUser") w0))).
  { intros w0. unfold getCurrentUserEmail, getItem, gets.
    cbn [localStorage set_localStorage set_navigations]. now rewrite lookup_delete_eq. }
  split; [apply Hs|].
  unfold loadDashboard. now rewrite (bind_ok _ _ _ _ _ (Hs w)).
Qed.

(** X3.  When the session names no stored account, the dashboard only
    redirects to the login page: nothing is displayed and no listener is
    registered. *)
Theorem dashboard_requires_account (w : World) (accts : list Account) :
  Inv w accts ->
  (forall e, localStorage w !! "currentUser" = Some e -> e ∉ acc_email <$> accts) ->
  loadDashboard w = Ok tt (redirected "login.html" w).
Proof.
  intros Hinv Hs. unfold loadDashboard, getCurrentUserEmail, getItem, gets.
  rewrite bind_eq. destruct (localStorage w !! "currentUser") as [e|]; [|reflexivity].
  destruct (is_empty e); [reflexivity|].
  rewrite (bind_ok _ _ _ _ _
             (findUser_stored w accts e (inv_stored _ _ Hinv) (inv_accounts _ _ Hinv))).
  rewrite (find_account_absent e accts) by now apply Hs. reflexivity.
Qed.

(** The dashboard of the stored account [a], on a page that has the
    elements the function fills. *)
Lemma loadDashboard_account (w : World) (accts : list Account) (a : Account)
    (fundEl info form btn : Element) :
  Inv w accts -> a ∈ accts ->
  localStorage w !! "currentUser" = Some (acc_email a) ->
  document w !! "fund-value" = Some fundEl ->
  document w !! "pet-info" = Some info ->
  document w !! "pet-form" = Some form ->
  document w !! "logout-btn" = Some btn ->
  exists w', loadDashboard w = Ok tt w' /\
    document w' =
      <["pet-info" := with_childNodes (fun l => from_option render_pet l (acc_pet a)) info]>
        (<["fund-value" := with_textContent "4.00 €" fundEl]> (document w)) /\
    listeners w' =
      (listeners w ++ [("pet-form", OnSubmitPet (encode_account a));
                       ("logout-btn", OnLogout)])%list /\
    navigations w' = navigations w /\ localStorage w' = localStorage w /\
    saves w' = saves w.
Proof.
  intros Hinv Ha Hs Hfund Hinfo Hform Hbtn.
  unfold loadDashboard, getCurrentUserEmail, getItem, gets.
  rewrite bind_eq, Hs. rewrite (account_email_not_empty w accts a Hinv Ha).
  rewrite (bind_ok _ _ _ _ _
             (findUser_stored w accts _ (inv_stored _ _ Hinv) (inv_accounts _ _ Hinv))).
  rewrite (find_account_unique accts a (inv_unique _ _ Hinv) Ha).
  cbn [from_option]. change (truthy (encode_account a)) with true. cbn [negb].
  rewrite bind_eq. unfold getElementById at 1, gets. rewrite Hfund.
  rewrite bind_eq, bind_eq.
  change (get_prop (encode_account a) "fund" w) with (Ok (VNum (acc_fund a)) w).
  cbv beta iota. rewrite (account_fund w accts a Hinv Ha).
  rewrite bind_eq. change (call_toFixed (VNum (of_Z 4)) w) with (Ok "4.00" w).
  cbv beta iota. rewrite (set_textContent_eq _ _ _ _ Hfund).
  set (w1 := shows "fund-value" _ fundEl w).
  assert (Hd1 : forall id, id <> "fund-value" -> document w1 !! id = document w !! id).
  { intros id Hid. unfold w1, shows. cbn [document set_document].
    now rewrite lookup_insert_ne. }
  rewrite bind_eq.
  change (get_prop (encode_account a) "pet" w1)
    with (Ok (from_option encode_pet VNull (acc_pet a)) w1).
  cbv beta iota. rewrite bind_eq.
  assert (Hpet : exists w2,
             (if truthy (from_option encode_pet VNull (acc_pet a))
              then displayPetInfo (from_option encode_pet VNull (acc_pet a))
              else mret tt) w1 = Ok tt w2 /\
             document w2 =
               <["pet-info" := with_childNodes
                   (fun l => from_option render_pet l (acc_pet a)) info]> (document w1) /\
             listeners w2 = listeners w1 /\ navigations w2 = navigations w1 /\
             localStorage w2 = localStorage w1 /\ saves w2 = saves w1).
  { destruct (acc_pet a) as [p|]; cbn [from_option].
    - change (truthy (encode_pet p)) with true. cbv iota.
      rewrite displayPetInfo_pet, Hd1, Hinfo by discriminate.
      eexists. split; [reflexivity|]. repeat split; reflexivity.
    - cbn [truthy]. exists w1. split; [reflexivity|].
      split; [|repeat split; reflexivity].
      rewrite insert_id; [reflexivity|]. rewrite Hd1, Hinfo by discriminate.
      destruct info; reflexivity. }
  destruct Hpet as (w2 & -> & Hd2 & Hl2 & Hn2 & Hs2 & Hv2).
  rewrite bind_eq. unfold getElementById at 1, gets.
  rewrite Hd2, lookup_insert_ne, Hd1, Hform by discriminate.
  rewrite bind_eq. unfold addEventListener at 1, modify. cbv beta iota.
  rewrite bind_eq. unfold getElementById at 1, gets.
  cbn [document set_listeners].
  rewrite Hd2, lookup_insert_ne, Hd1, Hbtn by discriminate.
  eexists. split; [reflexivity|].
  cbn [document localStorage navigations listeners saves set_listeners].
  split; [rewrite Hd2; reflexivity|].
  split. { rewrite Hl2. unfold w1, shows. cbn. now rewrite <- app_assoc. }
  rewrite Hn2, Hs2, Hv2. repeat split; reflexivity.
Qed.

(** X4.  When the session names the stored account [a], the dashboard
    shows its fund as [4.00 €], shows its pet if it has one, registers
    the submit handler of the pet form for this account and the logout
    handler, and neither redirects nor writes to the storage. *)
Theorem dashboard_shows_account (w : World) (accts : list Account) (a : Account)
    (fundEl info form btn : Element) :
  Inv w accts -> a ∈ accts ->
  localStorage w !! "currentUser" = Some (acc_email a) ->
  document w !! "fund-value" = Some fundEl ->
  document w !! "pet-info" = Some info ->
  document w !! "pet-form" = Some form ->
  document w !! "logout-btn" = Some btn ->
  exists w', loadDashboard w = Ok tt w' /\
    text_of w' "fund-value" = Some "4.00 €" /\
    childNodes <$> document w' !! "pet-info"
      = Some (from_option render_pet (childNodes info) (acc_pet a)) /\
    listeners w' =
      (listeners w ++ [("pet-form", OnSubmitPet (encode_account a));
                       ("logout-btn", OnLogout)])%list /\
    navigations w' = navigations w /\ localStorage w' = localStorage w /\
    saves w' = saves w.
Proof.
  intros Hinv Ha Hs Hfund Hinfo Hform Hbtn.
  destruct (loadDashboard_account w accts a fundEl info form btn Hinv Ha Hs Hfund Hinfo
              Hform Hbtn) as (w' & Hrun & Hdoc & Hl & Hn & Hls & Hsv).
  exists w'. split; [exact Hrun|]. unfold text_of. rewrite Hdoc.
  rewrite lookup_insert_ne by discriminate. rewrite !lookup_insert_eq.
  split; [reflexivity|]. split; [|auto].
  cbn. destruct (acc_pet a); reflexivity.
Qed.

End Accessors.

(** ** The pet of the dashboard *)

Section PetForm.

Context {engine : Engine}.

(** X5.  [displayPetInfo] clears the element [pet-info] before it fills
    it: what is shown is the pet just given and nothing of what was shown
    before.  On a page without the element it does nothing, whatever it
    is given. *)
Theorem displayPetInfo_shows_latest (p q : Pet) (w : World) (info : Element) :
  document w !! "pet-info" = Some info ->
  (exists w1 w2,
     displayPetInfo (encode_pet q) w = Ok tt w1 /\
     displayPetInfo (encode_pet p) w1 = Ok tt w2 /\
     displayPetInfo (encode_pet p) w = Ok tt w2 /\
     childNodes <$> document w2 !! "pet-info" = Some (render_pet p) /\
     length (render_pet p) = render_size p /\
     localStorage w2 = localStorage w) /\
  (forall pet w0, document w0 !! "pet-info" = None -> displayPetInfo pet w0 = Ok tt w0).
Proof.
  intros Hinfo. split.
  - rewrite !displayPetInfo_pet, Hinfo. eexists. eexists. split; [reflexivity|].
    rewrite displayPetInfo_pet. cbn [document set_document]. rewrite lookup_insert_eq.
    rewrite set_document_twice. split; [reflexivity|]. split; [reflexivity|].
    cbn [document set_document]. rewrite lookup_insert_eq. split; [reflexivity|].
    split; [|reflexivity].
    unfold render_pet, render_size. destruct (pet_vetFile p), (pet_photos p); reflexivity.
  - intros pet w0 Hnone. unfold displayPetInfo. rewrite bind_eq.
    unfold getElementById, gets. now rewrite Hnone.
Qed.

Lemma settle_none j w : saves w !! j = None -> settle j w = Ok tt w.
Proof. intros Hj. unfold settle. rewrite bind_eq. unfold gets. now rewrite Hj. Qed.

(** X6.  Submitting the pet form with a name or a description that is
    empty once trimmed by the engine starts no save and reads no file:
    [savePetInfo] shows the message "Veuillez indiquer le nom et la
    description du chien." when the page has the element [pet-error] and
    changes nothing otherwise, and nothing follows the listener. *)
Theorem savePetInfo_requires_name_and_description (w : World) (user : JSVal)
    (rawName rawDesc : string) :
  has_value w "pet-name" rawName -> has_value w "pet-desc" rawDesc ->
  trim rawName = EmptyString \/ trim rawDesc = EmptyString ->
  exists w', savePetInfo user w = Ok tt w' /\
    run_listener (OnSubmitPet user) w = Ok tt w' /\
    w' = match document w !! "pet-error" with
         | Some el =>
             shows "pet-error" "Veuillez indiquer le nom et la description du chien." el w
         | None => w
         end /\
    localStorage w' = localStorage w /\ saves w' = saves w /\
    navigations w' = navigations w.
Proof.
  intros Hn Hd Hempty.
  assert (Hrun : exists w', savePetInfo user w = Ok tt w' /\
            w' = match document w !! "pet-error" with
                 | Some el => shows "pet-error" msg_pet_required el w
                 | None => w
                 end).
  { unfold savePetInfo.
    rewrite (bind_ok _ _ _ _ _ (input_value_eq _ _ _ Hn)).
    rewrite (bind_ok _ _ _ _ _ (input_value_eq _ _ _ Hd)).
    rewrite bind_eq. unfold getElementById at 1, gets.
    assert (He : is_empty (trim rawName) || is_empty (trim rawDesc) = true).
    { destruct Hempty as [-> | ->]; [reflexivity | apply orb_true_r]. }
    rewrite He. destruct (document w !! "pet-error") as [el|] eqn:Hel.
    - rewrite (bind_ok _ _ _ _ _ (set_textContent_eq _ _ _ _ Hel)).
      rewrite shows_twice. eexists. split; reflexivity.
    - rewrite bind_eq, mret_eq. eexists. split; reflexivity. }
  destruct Hrun as (w' & Hrun & Hw'). exists w'.
  assert (Hsv : saves w' = saves w) by (rewrite Hw'; destruct (document w !! "pet-error"); reflexivity).
  split; [exact Hrun|]. split.
  { cbn [run_listener]. unfold submit_pet. rewrite bind_eq. unfold gets at 1.
    rewrite (bind_ok _ _ _ _ _ Hrun). apply settle_none.
    rewrite Hsv. apply lookup_ge_None. lia. }
  split; [exact Hw'|]. rewrite Hw'.
  destruct (document w !! "pet-error"); repeat split; reflexivity.
Qed.

(** X7.  Submitting the pet form with files to read stores nothing yet.
    [savePetInfo] starts one save, under the name and the description
    trimmed by the engine, with a reading task for the first certificate
    selected, and only the first, followed by one for each photo in the
    order of the selection; when the listener has been run to its end
    the save is still waiting for its reads. *)
Theorem submit_with_files_waits (w : World) (user : JSVal) (rawName rawDesc : string)
    (vetFiles photoFiles : list File) (el : Element) :
  has_value w "pet-name" rawName -> has_value w "pet-desc" rawDesc ->
  document w !! "pet-error" = Some el ->
  has_files w "pet-vet" vetFiles -> has_files w "pet-photos" photoFiles ->
  trim rawName <> EmptyString -> trim rawDesc <> EmptyString ->
  vetFiles <> [] \/ photoFiles <> [] ->
  exists w' job, savePetInfo user w = Ok tt w' /\
    run_listener (OnSubmitPet user) w = Ok tt w' /\
    localStorage w' = localStorage w /\
    saves w' = (saves w ++ [job])%list /\
    job_user job = user /\
    job_name job = trim rawName /\ job_desc job = trim rawDesc /\
    job_done job = false /\ job_vetObj job = VNull /\ job_photos job = [] /\
    job_tasks job =
      (from_option (fun f => [mkTask Certificate f Reading]) [] (head vetFiles)
       ++ ((fun f => mkTask Photo f Reading) <$> photoFiles))%list /\
    text_of w' "pet-error" = Some EmptyString.
Proof.
  intros Hn Hd Hel Hv Hp Hne Hde Hfiles.
  set (job := new_job user rawName rawDesc vetFiles photoFiles).
  eexists. exists job.
  split; [apply (savePetInfo_started w user rawName rawDesc vetFiles photoFiles el); assumption|].
  split.
  { cbn [run_listener].
    rewrite (submit_pet_started w user rawName rawDesc vetFiles photoFiles el) by assumption.
    fold job. rewrite (settle_eq _ _ job).
    2:{ cbn [saves set_saves shows set_document]. rewrite lookup_app_r by reflexivity.
        now rewrite Nat.sub_diag. }
    assert (Hpending : forallb is_loaded (job_tasks job) = false).
    { unfold job, new_job, reader_tasks. cbn [job_tasks].
      destruct vetFiles as [|f vs]; [|reflexivity].
      destruct photoFiles as [|f ps]; [|reflexivity]. now destruct Hfiles. }
    rewrite Hpending. reflexivity. }
  split; [reflexivity|]. split; [reflexivity|].
  split; [reflexivity|]. split; [reflexivity|]. split; [reflexivity|].
  split; [reflexivity|]. split; [reflexivity|]. split; [reflexivity|]. split.
  - unfold job, new_job, reader_tasks. cbn [job_tasks]. destruct vetFiles; reflexivity.
  - unfold text_of. cbn [document set_saves shows set_document]. now rewrite lookup_insert_eq.
Qed.

(** The callback of a save for the stored account number [i], step by
    step: the array is stored, the pet displayed, the form reset. *)
Lemma save_callback_run w accts job vet photos i a :
  Inv w accts ->
  job_vetObj job = encode_vet vet -> job_photos job = encode_file <$> photos ->
  prop_of (job_user job) "email" = Some (VStr (acc_email a)) ->
  accts !! i = Some a ->
  let p := job_pet job vet photos in
  let w1 := set_localStorage
              (insert "users"
                 (JSON.stringify (VArr (encode_account <$> <[i := with_pet p a]> accts)))) w in
  let w2 := match document w !! "pet-info" with
            | Some info =>
                set_document (insert "pet-info" (with_childNodes (fun _ => render_pet p) info)) w1
            | None => w1
            end in
  save_callback job w =
  match document w !! "pet-form" with
  | Some form => Ok tt (set_document (insert "pet-form" form) w2)
  | None => Throw TypeError w2
  end.
Proof.
  intros Hinv Hv Hp Hu Hi p w1 w2. destruct Hinv as [H1 H2 H3 H4].
  unfold save_callback.
  rewrite (bind_ok _ _ _ _ _ (getUsers_stored w accts H1 H3)).
  rewrite bind_eq. cbn [as_array]. rewrite mret_eq.
  rewrite (bind_ok _ _ _ _ _ (array_findIndex_accounts _ _ accts w Hu 0%nat)).
  rewrite (index_of_first accts a i H2 Hi 0%nat). cbn [Nat.add].
  rewrite list_lookup_fmap, Hi. cbn [fmap option_fmap option_map default].
  rewrite Hv, Hp.
  change (pet_object (job_name job) (job_desc job) (encode_vet vet) (encode_file <$> photos))
    with (encode_pet p).
  cbn [id]. rewrite bind_eq, set_pet_account. rewrite <- list_fmap_insert.
  rewrite bind_eq. unfold setUsers at 1, setItem at 1, modify at 1. cbv beta iota.
  fold w1. rewrite bind_eq, displayPetInfo_pet.
  change (document w1) with (document w). subst w2.
  destruct (document w !! "pet-info") as [info|]; rewrite update_element_eq;
    cbn [document set_document]; rewrite ?lookup_insert_ne by discriminate;
    change (document w1) with (document w);
    destruct (document w !! "pet-form"); reflexivity.
Qed.

(** X8.  Submitting the pet form without any file saves within the
    submit event.  When [savePetInfo] returns, the save is started and
    nothing is stored yet; the callback of its [Promise.all] then runs as
    a microtask, and once the listener has been run to its end the stored
    account that has the identifier of [user], the account the dashboard
    was opened for, is stored with the pet of the name and description
    trimmed by the engine, no certificate and no photo; the pet is what
    [pet-info] shows. *)
Theorem submit_without_files_saves_at_once (w : World) (accts : list Account) (i : nat)
    (a : Account) (user : JSVal) (rawName rawDesc : string) (el info form : Element) :
  Inv w accts -> accts !! i = Some a ->
  prop_of user "email" = Some (VStr (acc_email a)) ->
  has_value w "pet-name" rawName -> has_value w "pet-desc" rawDesc ->
  document w !! "pet-error" = Some el ->
  document w !! "pet-info" = Some info ->
  document w !! "pet-form" = Some form ->
  has_files w "pet-vet" [] -> has_files w "pet-photos" [] ->
  trim rawName <> EmptyString -> trim rawDesc <> EmptyString ->
  let p := mkPet (trim rawName) (trim rawDesc) None [] in
  exists w0 w',
    savePetInfo user w = Ok tt w0 /\ localStorage w0 = localStorage w /\
    run_listener (OnSubmitPet user) w = Ok tt w' /\
    localStorage w' =
      <["users" := JSON.stringify (VArr (encode_account <$> <[i := with_pet p a]> accts))]>
        (localStorage w) /\
    Inv w' (<[i := with_pet p a]> accts) /\
    saves w' = (saves w ++ [done_job user rawName rawDesc])%list /\
    childNodes <$> document w' !! "pet-info" = Some (render_pet p).
Proof.
  intros Hinv Hi Hu Hn Hd Hel Hinfo Hform Hv Hp Hne Hde p.
  eexists. eexists.
  split; [apply (savePetInfo_started w user rawName rawDesc [] [] el); assumption|].
  split; [reflexivity|].
  cbn [run_listener].
  rewrite (submit_pet_started w user rawName rawDesc [] [] el) by assumption.
  set (job := new_job user rawName rawDesc [] []).
  set (w0 := shows "pet-error" EmptyString el w).
  rewrite (settle_eq _ _ job).
  2:{ cbn [saves set_saves]. rewrite lookup_app_r by reflexivity.
      now rewrite Nat.sub_diag. }
  change (forallb is_loaded (job_tasks job) && negb (job_done job)) with true. cbv iota.
  set (w1 := set_saves _ (set_saves _ w0)).
  assert (Hsv : saves w1 = (saves w ++ [done_job user rawName rawDesc])%list).
  { unfold w1. cbn [saves set_saves]. change (saves w0) with (saves w).
    rewrite insert_app_r_alt by reflexivity. now rewrite Nat.sub_diag. }
  assert (Hdoc : document w1 = <["pet-error" := with_textContent EmptyString el]> (document w))
    by reflexivity.
  assert (Hinv1 : Inv w1 accts).
  { destruct Hinv as [H1 H2 H3 H4]. split; try assumption. rewrite Hsv.
    apply Forall_app. split; [exact H4|]. constructor; [|constructor].
    exists None, []. split; reflexivity. }
  unfold unhandled.
  rewrite (save_callback_run w1 accts job None [] i a Hinv1) by (reflexivity || assumption).
  rewrite Hdoc, !lookup_insert_ne, Hinfo, Hform by discriminate.
  split; [reflexivity|].
  cbn [localStorage set_document set_localStorage document saves].
  split; [reflexivity|]. split; [|split; [exact Hsv|]].
  - eapply Inv_with_pet; [exact Hinv1 | exact Hi | reflexivity | reflexivity].
  - rewrite lookup_insert_ne by discriminate. now rewrite lookup_insert_eq.
Qed.

End PetForm.

(** ** Storage that the script did not write *)

Section ForeignStorage.

Context {engine : Engine}.

(** X9.  When the account of a save is no longer among the stored
    accounts, as when the storage is cleared while the files are read,
    the callback throws before it writes or displays anything. *)
Theorem save_for_unknown_account_writes_nothing (w : World) (accts : list Account)
    (job : SaveJob) :
  Inv w accts ->
  (forall a, a ∈ accts -> prop_of (job_user job) "email" <> Some (VStr (acc_email a))) ->
  save_callback job w = Throw TypeError w /\
  unhandled (save_callback job) w = Ok tt w.
Proof.
  intros Hinv Hno. pose proof (save_callback_not_found w accts job Hinv Hno) as H.
  split; [exact H|]. unfold unhandled. now rewrite H.
Qed.

Lemma getUsers_unreadable w text :
  localStorage w !! "users" = Some text -> text <> EmptyString -> JSON.parse text = None ->
  getUsers w = Ok (VArr []) (parse_error_logged w).
Proof.
  intros Ht Hne Hp. unfold getUsers, getItem, gets. rewrite bind_eq, Ht.
  apply is_empty_false in Hne. now rewrite Hne, Hp.
Qed.

(** X10.  When the key [users] holds a text that is not JSON, a
    registration with valid fields, the identifier not being empty once
    trimmed and lower-cased by the engine, logs the failure and
    succeeds: the stored array becomes the new account alone, whatever
    the text was. *)
Theorem signup_over_unreadable_storage (w : World) (text raw pw : string) (el : Element) :
  localStorage w !! "users" = Some text -> text <> EmptyString -> JSON.parse text = None ->
  has_value w "signup-email" raw -> has_value w "signup-password" pw ->
  has_value w "signup-confirm" pw ->
  document w !! "signup-error" = Some el ->
  toLowerCase (trim raw) <> EmptyString -> pw <> EmptyString ->
  let email := toLowerCase (trim raw) in
  exists w', handleSignup w = Ok tt w' /\
    localStorage w' =
      <["currentUser" := email]>
        (<["users" :=
             JSON.stringify
               (VArr [VObj [("email", VStr email); ("password", VStr pw);
                            ("fund", VNum (of_Z 4)); ("pet", VNull)]])]> (localStorage w)) /\
    stored w' [registered email pw] /\
    getUsers w' = Ok (VArr [VObj [("email", VStr email); ("password", VStr pw);
                                  ("fund", VNum (of_Z 4)); ("pet", VNull)]]) w' /\
    console w' = (console w ++ ["Error parsing users from localStorage"])%list /\
    navigations w' = (navigations w ++ ["dashboard.html"])%list.
Proof.
  intros Ht Hne Hp Hraw Hpw Hcf Hel He Hpne email. subst email.
  set (email := toLowerCase (trim raw)) in *. rewrite handleSignup_eq.
  rewrite (bind_ok _ _ _ _ _ (input_value_eq _ _ _ Hraw)). cbv zeta. fold email.
  rewrite (bind_ok _ _ _ _ _ (input_value_eq _ _ _ Hpw)).
  rewrite (bind_ok _ _ _ _ _ (input_value_eq _ _ _ Hcf)).
  rewrite (bind_ok _ _ _ _ _ (set_textContent_eq _ _ _ _ Hel)).
  apply is_empty_false in He, Hpne. rewrite He, Hpne, String.eqb_refl. cbn [orb negb].
  unfold register.
  rewrite (bind_ok _ _ _ _ _
             (getUsers_unreadable (shows "signup-error" EmptyString el w) text Ht Hne Hp)).
  rewrite bind_eq. cbn [as_array]. rewrite mret_eq.
  eexists. split; [reflexivity|].
  cbn [localStorage console navigations set_navigations set_localStorage
       parse_error_logged set_console shows set_document app].
  split; [reflexivity|]. split.
  { unfold stored. cbn [localStorage set_navigations set_localStorage].
    rewrite lookup_insert_ne by discriminate. now rewrite lookup_insert_eq. }
  split; [|split; reflexivity].
  unfold getUsers, getItem, gets. rewrite bind_eq.
  cbn [localStorage set_navigations set_localStorage].
  rewrite lookup_insert_ne by discriminate. rewrite lookup_insert_eq.
  assert (Hwf : json_wf (VArr [new_user email pw])).
  { apply (encode_accounts_wf [registered email pw]).
    constructor; [|constructor]. split; [apply normalized_normalize|].
    split; [now apply is_empty_false | reflexivity]. }
  now rewrite (stringify_not_empty _ Hwf), (parse_stringify _ Hwf).
Qed.

Lemma getUsers_parsed w text v :
  localStorage w !! "users" = Some text -> JSON.parse text = Some v ->
  getUsers w = Ok v w.
Proof.
  intros Ht Hp. unfold getUsers, getItem, gets. rewrite bind_eq, Ht.
  destruct text as [|c text]; [vm_compute in Hp; discriminate|].
  cbn [is_empty]. now rewrite Hp.
Qed.

(** X11.  When the key [users] holds JSON that is not an array, every
    lookup of an account throws: login clears its error message and
    stops there, with no message and no redirection, and the listing
    shows nothing. *)
Theorem non_array_storage_stops_handlers (w : World) (text : string) (v : JSVal) :
  localStorage w !! "users" = Some text -> JSON.parse text = Some v ->
  (forall l, v <> VArr l) ->
  (forall e, findUser e w = Throw TypeError w) /\
  (forall raw pw el,
     has_value w "login-email" raw -> has_value w "login-password" pw ->
     document w !! "login-error" = Some el ->
     handleLogin w = Throw TypeError (shows "login-error" EmptyString el w)) /\
  (forall c, document w !! "dogs-container" = Some c -> loadDogsPage w = Throw TypeError w).
Proof.
  intros Ht Hp Hv.
  assert (Harr : forall w0 : World, as_array v w0 = Throw TypeError w0).
  { intros w0. destruct v; try reflexivity. now destruct (Hv elems). }
  assert (Hfind : forall w0 e, localStorage w0 = localStorage w ->
                               findUser e w0 = Throw TypeError w0).
  { intros w0 e Hw0. unfold findUser.
    rewrite (bind_ok _ _ _ _ _ (getUsers_parsed w0 text v ltac:(now rewrite Hw0) Hp)).
    now rewrite bind_eq, Harr. }
  split; [intros e; now apply Hfind|]. split.
  - intros raw pw el Hraw Hpw Hel. unfold handleLogin.
    rewrite (bind_ok _ _ _ _ _ (input_value_eq _ _ _ Hraw)).
    rewrite (bind_ok _ _ _ _ _ (input_value_eq _ _ _ Hpw)).
    rewrite (bind_ok _ _ _ _ _ (set_textContent_eq _ _ _ _ Hel)).
    now rewrite bind_eq, Hfind.
  - intros c Hc. unfold loadDogsPage. rewrite bind_eq.
    unfold getElementById, gets. rewrite Hc.
    rewrite (bind_ok _ _ _ _ _ (getUsers_parsed w text v Ht Hp)).
    now rewrite bind_eq, Harr.
Qed.

End ForeignStorage.

(** ** Pages *)

Section PageLoads.

Context {engine : Engine}.

Section Pages.

(** The listing of the stored accounts, on a page that has the container
    and the message. *)
Lemma loadDogsPage_run w accts c m :
  Inv w accts ->
  document w !! "dogs-container" = Some c ->
  document w !! "no-dogs-message" = Some m ->
  exists w', loadDogsPage w = Ok tt w' /\
    document w' =
      <["no-dogs-message" := with_display (if dog_cards accts is [] then "block" else "none") m]>
        (<["dogs-container" := with_childNodes (fun l => (l ++ dog_cards accts)%list) c]>
           (document w)) /\
    localStorage w' = localStorage w /\ saves w' = saves w /\
    navigations w' = navigations w.
Proof.
  intros Hinv Hc Hm. unfold loadDogsPage. rewrite bind_eq.
  unfold getElementById at 1, gets. rewrite Hc.
  rewrite (bind_ok _ _ _ _ _ (getUsers_stored w accts (inv_stored _ _ Hinv) (inv_accounts _ _ Hinv))).
  rewrite bind_eq. cbn [as_array]. rewrite mret_eq.
  destruct (dogs_loop_accounts accts 0%nat w c Hc) as (w1 & Hrun & Hdoc & Hls & Hsv & Hnav).
  rewrite (bind_ok _ _ _ _ _ Hrun). rewrite bind_eq.
  unfold getElementById, gets. rewrite Hdoc.
  rewrite lookup_insert_ne by discriminate. rewrite Hm.
  rewrite update_element_eq, Hdoc. rewrite lookup_insert_ne by discriminate. rewrite Hm.
  eexists. split; [reflexivity|]. cbn [document set_document localStorage saves navigations].
  rewrite Hdoc. split; [|auto].
  destruct (dog_cards accts); reflexivity.
Qed.

Lemma when_present_eq id m w :
  when_present id m w = if document w !! id is Some _ then m w else Ok tt w.
Proof.
  unfold when_present. rewrite bind_eq. unfold getElementById, gets.
  destruct (document w !! id); reflexivity.
Qed.

(** [main] on a page that is neither the dashboard nor the listing
    registers the handlers of the forms the page has. *)
Lemma main_forms w :
  document w !! "dashboard-page" = None -> document w !! "dogs-page" = None ->
  main w = Ok tt (set_listeners (fun ls => (ls ++ form_listeners (document w))%list) w).
Proof.
  intros Hd Hg. unfold main, form_listeners.
  assert (Hnil : forall w0 : World, set_listeners (fun ls => (ls ++ [])%list) w0 = w0).
  { intros [? ? ? ? ls ?]. unfold set_listeners. cbn. now rewrite app_nil_r. }
  rewrite bind_eq, when_present_eq.
  destruct (document w !! "signup-form") as [e1|] eqn:H1;
    [unfold addEventListener at 1, modify|];
    rewrite bind_eq, when_present_eq; cbn [document set_listeners];
    (destruct (document w !! "login-form") as [e2|] eqn:H2;
     [unfold addEventListener at 1, modify|]);
    rewrite bind_eq, when_present_eq; cbn [document set_listeners]; rewrite Hd;
    rewrite when_present_eq; cbn [document set_listeners]; rewrite Hg;
    unfold set_listeners; cbn [listeners localStorage document console navigations saves app].
  - now rewrite <- app_assoc.
  - reflexivity.
  - reflexivity.
  - rewrite app_nil_r. now destruct w.
Qed.

(** [main] on the listing page runs [loadDogsPage] and nothing else. *)
Lemma main_listing w e :
  document w !! "signup-form" = None -> document w !! "login-form" = None ->
  document w !! "dashboard-page" = None -> document w !! "dogs-page" = Some e ->
  main w = loadDogsPage w.
Proof.
  intros H1 H2 H3 H4. unfold main.
  rewrite bind_eq, when_present_eq, H1.
  rewrite bind_eq, when_present_eq, H2.
  rewrite bind_eq, when_present_eq, H3.
  now rewrite when_present_eq, H4.
Qed.

Lemma Inv_opened w accts doc : Inv w accts -> Inv (opened doc w) accts.
Proof. intros [H1 H2 H3 H4]. split; try assumption. constructor. Qed.

Lemma dog_cards_insert accts i a p :
  accts !! i = Some a ->
  dog_cards (<[i := with_pet p a]> accts)
  = (dog_cards (take i accts) ++ pet_card (with_pet p a) p :: dog_cards (drop (S i) accts))%list.
Proof.
  intros Hi. rewrite insert_take_drop by (eapply lookup_lt_Some; eauto).
  unfold dog_cards. rewrite omap_app. reflexivity.
Qed.

End Pages.

(** X12.  Once the callback of a save has run, opening the listing page
    shows the saved pet: the card of the account stands at the place of
    the account among the cards, the other cards are those of the other
    accounts, the image of the card is the first photo of the save, in
    the order the reads completed, or the placeholder when the save has
    no photo, and the message of the empty list is hidden. *)
Theorem saved_pet_is_listed (w : World) (accts : list Account) (job : SaveJob)
    (vet : option File) (photos : list File) (i : nat) (a : Account)
    (doc : gmap string Element) (page c m : Element) :
  Inv w accts -> accts !! i = Some a ->
  job_vetObj job = encode_vet vet -> job_photos job = encode_file <$> photos ->
  prop_of (job_user job) "email" = Some (VStr (acc_email a)) ->
  doc !! "signup-form" = None -> doc !! "login-form" = None ->
  doc !! "dashboard-page" = None -> doc !! "dogs-page" = Some page ->
  doc !! "dogs-container" = Some c -> doc !! "no-dogs-message" = Some m ->
  let p := mkPet (job_name job) (job_desc job) vet photos in
  exists w1 w2,
    final_world (save_callback job w) = Some w1 /\
    load_page doc w1 = Ok tt w2 /\
    childNodes <$> document w2 !! "dogs-container" =
      Some (childNodes c ++ dog_cards (take i accts)
              ++ pet_card (with_pet p a) p :: dog_cards (drop (S i) accts))%list /\
    card_src p = from_option file_dataURL placeholder (head photos) /\
    style_display <$> document w2 !! "no-dogs-message" = Some "none" /\
    localStorage w2 = localStorage w1.
Proof.
  intros Hinv Hi Hv Hp Hu H1 H2 H3 H4 Hc Hm p.
  destruct (save_callback_found w accts job vet photos i a Hinv Hv Hp Hu Hi)
    as (w1 & Hw1 & Hst & Hsv).
  pose proof (Inv_with_pet w accts i a p w1 Hinv Hi Hst Hsv) as Hinv1.
  exists w1. unfold load_page. rewrite bind_eq. unfold modify at 1. cbv beta iota.
  fold (opened doc w1).
  pose proof (Inv_opened w1 _ doc Hinv1) as Hinv2.
  rewrite (main_listing (opened doc w1) page) by assumption.
  destruct (loadDogsPage_run (opened doc w1) _ c m Hinv2 Hc Hm)
    as (w2 & Hrun & Hdoc & Hls & _).
  exists w2. split; [exact Hw1|]. split; [exact Hrun|].
  rewrite Hdoc, (dog_cards_insert accts i a p Hi).
  split. { rewrite lookup_insert_ne by discriminate. now rewrite lookup_insert_eq. }
  split. { unfold card_src, p. cbn [pet_photos]. destruct photos; reflexivity. }
  split; [|exact Hls].
  rewrite lookup_insert_eq. cbn.
  destruct (dog_cards (take i accts)); reflexivity.
Qed.

Lemma signup_page_filled raw pw cf f w :
  let w1 := set_listeners f (opened (signup_page raw pw cf) w) in
  has_value w1 "signup-email" raw /\ has_value w1 "signup-password" pw /\
  has_value w1 "signup-confirm" cf /\ document w1 !! "signup-error" = Some blank.
Proof.
  intros w1. repeat split;
    first [ vm_compute; reflexivity
          | eexists; split; [vm_compute; reflexivity | reflexivity] ].
Qed.

Lemma login_page_filled raw pw f w :
  let w1 := set_listeners f (opened (login_page raw pw) w) in
  has_value w1 "login-email" raw /\ has_value w1 "login-password" pw /\
  document w1 !! "login-error" = Some blank.
Proof.
  intros w1. repeat split;
    first [ vm_compute; reflexivity
          | eexists; split; [vm_compute; reflexivity | reflexivity] ].
Qed.

Lemma open_signup_page raw pw cf w :
  step (EvLoad (signup_page raw pw cf)) w
  = Some (set_listeners (fun ls => (ls ++ [("signup-form", OnSignup)])%list)
            (opened (signup_page raw pw cf) w)).
Proof.
  unfold step, handle, load_page. rewrite bind_eq. unfold modify at 1. cbv beta iota.
  fold (opened (signup_page raw pw cf) w).
  rewrite main_forms by (vm_compute; reflexivity). reflexivity.
Qed.

Lemma open_login_page raw pw w :
  step (EvLoad (login_page raw pw)) w
  = Some (set_listeners (fun ls => (ls ++ [("login-form", OnLogin)])%list)
            (opened (login_page raw pw) w)).
Proof.
  unfold step, handle, load_page. rewrite bind_eq. unfold modify at 1. cbv beta iota.
  fold (opened (login_page raw pw) w).
  rewrite main_forms by (vm_compute; reflexivity). reflexivity.
Qed.

Lemma run_app evs1 evs2 w :
  run (evs1 ++ evs2) w = match run evs1 w with
                         | Some w1 => run evs2 w1
                         | None => None
                         end.
Proof.
  revert w. induction evs1 as [|ev evs1 IH]; intros w; [reflexivity|].
  cbn [app run]. destruct (step ev w); [apply IH | reflexivity].
Qed.

Lemma register_steps w accts raw pw :
  Inv w accts ->
  toLowerCase (trim raw) ∉ acc_email <$> accts ->
  toLowerCase (trim raw) <> EmptyString -> pw <> EmptyString ->
  run [EvLoad (signup_page raw pw pw); EvFire 0] w = Some (just_registered raw pw accts w) /\
  Inv (just_registered raw pw accts w) (accts ++ [registered (toLowerCase (trim raw)) pw]).
Proof.
  intros Hinv Hfresh He Hpne. unfold just_registered.
  set (email := toLowerCase (trim raw)) in *. cbn [run].
  set (w1 := set_listeners (fun ls => (ls ++ [("signup-form", OnSignup)])%list)
               (opened (signup_page raw pw pw) w)).
  assert (H1 : step (EvLoad (signup_page raw pw pw)) w = Some w1)
    by apply open_signup_page.
  rewrite H1.
  assert (Hinv1 : Inv w1 accts).
  { apply (Inv_frame (opened (signup_page raw pw pw) w));
      [split; reflexivity | apply Inv_opened, Hinv]. }
  assert (Hex : existsb (fun b => String.eqb (acc_email b) email) accts = false).
  { destruct (existsb _ accts) eqn:E; [|reflexivity].
    apply existsb_email in E. now destruct Hfresh. }
  split.
  - unfold step, handle, fire. rewrite bind_eq. unfold gets at 1.
    change (listeners w1 !! 0%nat) with (Some ("signup-form", OnSignup)).
    cbv beta iota. cbn [run_listener].
    destruct (signup_page_filled raw pw pw
                (fun ls => (ls ++ [("signup-form", OnSignup)])%list) w) as (Ha & Hb & Hc & Hd).
    rewrite (handleSignup_form w1 accts raw pw pw blank Hinv1 Ha Hb Hc Hd).
    fold email. apply is_empty_false in He, Hpne. rewrite He, Hpne, String.eqb_refl.
    cbn [orb negb]. now rewrite Hex.
  - apply Inv_signed_up; [now apply Inv_shows | apply normalized_normalize
                         | exact He | exact Hex].
Qed.

(** X13.  Registering and then logging in: after a registration that
    succeeds, the login form filled with an identifier that the engine
    trims and lower-cases to the same one, whatever its letter case and
    the white space around it, and with the same password, opens the
    session of the new account. *)
Theorem register_then_login (w : World) (accts : list Account) (raw pw raw2 : string) :
  Inv w accts ->
  toLowerCase (trim raw) ∉ acc_email <$> accts ->
  toLowerCase (trim raw) <> EmptyString -> pw <> EmptyString ->
  toLowerCase (trim raw2) = toLowerCase (trim raw) ->
  let email := toLowerCase (trim raw) in
  exists w',
    run [EvLoad (signup_page raw pw pw); EvFire 0;
         EvLoad (login_page raw2 pw); EvFire 0] w = Some w' /\
    Inv w' (accts ++ [registered email pw]) /\
    localStorage w' !! "currentUser" = Some email /\
    navigations w' = (navigations w ++ ["dashboard.html"; "dashboard.html"])%list /\
    text_of w' "login-error" = Some EmptyString.
Proof.
  intros Hinv Hfresh He Hpne Hsame email.
  destruct (register_steps w accts raw pw Hinv Hfresh He Hpne) as [H12 Hinv2].
  change [EvLoad (signup_page raw pw pw); EvFire 0; EvLoad (login_page raw2 pw); EvFire 0]
    with ([EvLoad (signup_page raw pw pw); EvFire 0]
          ++ [EvLoad (login_page raw2 pw); EvFire 0])%list.
  rewrite run_app, H12. fold email in Hinv2.
  assert (Hnav : navigations (just_registered raw pw accts w)
                 = (navigations w ++ ["dashboard.html"])%list) by reflexivity.
  revert Hinv2 Hnav. generalize (just_registered raw pw accts w). intros w2 Hinv2 Hnav.
  cbn [run].
  set (w3 := set_listeners (fun ls => (ls ++ [("login-form", OnLogin)])%list)
               (opened (login_page raw2 pw) w2)).
  assert (H3 : step (EvLoad (login_page raw2 pw)) w2 = Some w3)
    by apply open_login_page.
  rewrite H3.
  assert (Hinv3 : Inv w3 (accts ++ [registered email pw])).
  { apply (Inv_frame (opened (login_page raw2 pw) w2));
      [split; reflexivity | apply Inv_opened, Hinv2]. }
  unfold step, handle, fire. rewrite bind_eq. unfold gets at 1.
  change (listeners w3 !! 0%nat) with (Some ("login-form", OnLogin)).
  cbv beta iota. cbn [run_listener].
  destruct (login_page_filled raw2 pw
              (fun ls => (ls ++ [("login-form", OnLogin)])%list) w2) as (Ha & Hb & Hc).
  rewrite (handleLogin_eq w3 _ raw2 pw blank Hinv3 Ha Hb Hc).
  rewrite Hsame. fold email.
  change email with (acc_email (registered email pw)) at 1.
  rewrite (find_account_unique _ (registered email pw) (inv_unique _ _ Hinv3))
    by (apply elem_of_app; right; apply list_elem_of_singleton; reflexivity).
  cbn [acc_password registered]. rewrite String.eqb_refl. cbn [final_world].
  eexists. split; [reflexivity|]. split.
  { apply (Inv_frame w3); [|exact Hinv3]. split; [|reflexivity].
    unfold logged_in. cbn [localStorage set_navigations set_localStorage shows set_document].
    rewrite lookup_insert_ne by discriminate. reflexivity. }
  unfold logged_in.
  cbn [localStorage navigations set_navigations set_localStorage shows set_document].
  split; [apply lookup_insert_eq|]. split.
  { unfold w3. cbn [navigations set_listeners opened]. rewrite Hnav.
    now rewrite <- app_assoc. }
  unfold text_of. cbn [document set_navigations set_localStorage shows set_document].
  now rewrite lookup_insert_eq.
Qed.

End PageLoads.

(** ** What a handler never writes *)

Create HintDb quiet.
Create HintDb defined.

Section QuietMonad.

Context {engine : Engine}.

Section Quiet.

Context {A B : Type}.

Lemma quiet_ret (a : A) : quiet (mret a).
Proof. intros w. split; reflexivity. Qed.

Lemma quiet_throw e : quiet (throw e : M A).
Proof. intros w. split; reflexivity. Qed.

Lemma quiet_beyond : quiet (beyond : M A).
Proof. intros w. exact I. Qed.

Lemma quiet_gets (f : World -> A) : quiet (gets f).
Proof. intros w. split; reflexivity. Qed.

Lemma quiet_bind (m : M A) (f : A -> M B) :
  quiet m -> (forall a, quiet (f a)) -> quiet (m ≫= f).
Proof.
  intros Hm Hf w. rewrite bind_eq. specialize (Hm w).
  destruct (m w) as [a w1|e w1|]; [|exact Hm|exact I].
  specialize (Hf a w1). destruct (f a w1); try exact I;
    destruct Hm, Hf; split; congruence.
Qed.

Lemma quiet_modify (f : World -> World) :
  (forall w, localStorage (f w) = localStorage w /\ saves (f w) = saves w) ->
  quiet (modify f).
Proof. intros H w. apply H. Qed.

Lemma defined_ret (a : A) : defined (mret a).
Proof. intros w. discriminate. Qed.

Lemma defined_throw e : defined (throw e : M A).
Proof. intros w. discriminate. Qed.

Lemma defined_gets (f : World -> A) : defined (gets f).
Proof. intros w. discriminate. Qed.

Lemma defined_bind (m : M A) (f : A -> M B) :
  defined m -> (forall a, defined (f a)) -> defined (m ≫= f).
Proof.
  intros Hm Hf w. rewrite bind_eq. specialize (Hm w).
  destruct (m w) as [a w1|e w1|]; [apply Hf | discriminate | congruence].
Qed.

(** The same, when what runs first is known to return [a]. *)
Lemma defined_bind_at (m : M A) (f : A -> M B) w :
  m w <> Beyond -> (forall a w1, m w = Ok a w1 -> f a w1 <> Beyond) ->
  (m ≫= f) w <> Beyond.
Proof.
  intros Hm Hf. rewrite bind_eq.
  destruct (m w) as [a w1|e w1|]; [now apply Hf | discriminate | congruence].
Qed.

End Quiet.

Lemma defined_modify (f : World -> World) : defined (modify f).
Proof. intros w. discriminate. Qed.

End QuietMonad.

#[local] Hint Resolve quiet_ret quiet_throw quiet_beyond quiet_gets : quiet.
#[local] Hint Resolve defined_ret defined_throw defined_gets defined_modify : defined.

Ltac quiet_step :=
  match goal with
  | |- quiet (mbind _ _) => apply quiet_bind; [|intros ?]
  | |- quiet (match ?x with _ => _ end) => destruct x
  | |- quiet (modify _) => apply quiet_modify; intros ?; split; reflexivity
  | |- quiet _ => solve [auto with quiet]
  end.

Ltac quiet_all := repeat quiet_step.

Ltac defined_step :=
  match goal with
  | |- defined (mbind _ _) => apply defined_bind; [|intros ?]
  | |- defined (match ?x with _ => _ end) => destruct x
  | |- defined _ => solve [auto with defined]
  end.

Ltac defined_all := repeat defined_step.

Section QuietHandlers.

Context {engine : Engine}.

Section QuietScript.

Lemma quiet_getItem k : quiet (getItem k).
Proof. apply quiet_gets. Qed.

Lemma quiet_console_error msg : quiet (console_error msg).
Proof. unfold console_error. quiet_all. Qed.

Lemma quiet_navigate url : quiet (navigate url).
Proof. unfold navigate. quiet_all. Qed.

Lemma quiet_getElementById id : quiet (getElementById id).
Proof. apply quiet_gets. Qed.

Hint Resolve quiet_getItem quiet_console_error quiet_navigate quiet_getElementById : quiet.

Lemma quiet_input_value id : quiet (input_value id).
Proof. unfold input_value. quiet_all. Qed.

Lemma quiet_input_files id : quiet (input_files id).
Proof. unfold input_files. quiet_all. Qed.

Lemma quiet_update_element id f : quiet (update_element id f).
Proof. unfold update_element. quiet_all. Qed.

Hint Resolve quiet_input_value quiet_input_files quiet_update_element : quiet.

Lemma quiet_set_textContent id t : quiet (set_textContent id t).
Proof. unfold set_textContent. quiet_all. Qed.

Lemma quiet_appendChild id n : quiet (appendChild id n).
Proof. unfold appendChild. quiet_all. Qed.

Lemma quiet_get_prop v k : quiet (get_prop v k).
Proof. unfold get_prop. quiet_all. Qed.

Lemma quiet_get_first v : quiet (get_first v).
Proof. unfold get_first. quiet_all. Qed.

Lemma quiet_gt_zero v : quiet (gt_zero v).
Proof. unfold gt_zero. quiet_all. Qed.

Lemma quiet_as_array v : quiet (as_array v).
Proof. unfold as_array. quiet_all. Qed.

Lemma quiet_call_toFixed v : quiet (call_toFixed v).
Proof. unfold call_toFixed. quiet_all. Qed.

Lemma quiet_addEventListener id l : quiet (addEventListener id l).
Proof. unfold addEventListener. quiet_all. Qed.

Hint Resolve quiet_set_textContent quiet_appendChild quiet_get_prop quiet_get_first
  quiet_gt_zero quiet_as_array quiet_call_toFixed quiet_addEventListener : quiet.

Lemma quiet_array_find p l : (forall u, quiet (p u)) -> quiet (array_find p l).
Proof. intros Hp. induction l; simpl; quiet_all. Qed.

Lemma quiet_getUsers : quiet getUsers.
Proof. unfold getUsers. quiet_all. Qed.

Hint Resolve quiet_getUsers : quiet.

Lemma quiet_findUser e : quiet (findUser e).
Proof.
  unfold findUser. quiet_all. apply quiet_array_find. intros u. unfold email_is. quiet_all.
Qed.

Lemma quiet_getCurrentUserEmail : quiet getCurrentUserEmail.
Proof. apply quiet_gets. Qed.

Hint Resolve quiet_findUser quiet_getCurrentUserEmail : quiet.

Lemma quiet_photo_imgs l : quiet (photo_imgs l).
Proof. induction l; simpl; unfold photo_img; quiet_all. Qed.

Hint Resolve quiet_photo_imgs : quiet.

Lemma quiet_displayPetInfo pet : quiet (displayPetInfo pet).
Proof. unfold displayPetInfo. quiet_all. Qed.

Hint Resolve quiet_displayPetInfo : quiet.

Lemma quiet_loadDashboard : quiet loadDashboard.
Proof. unfold loadDashboard. quiet_all. Qed.

Lemma quiet_dog_card user pet : quiet (dog_card user pet).
Proof. unfold dog_card, card_image. quiet_all. Qed.

Hint Resolve quiet_dog_card : quiet.

Lemma quiet_dogs_loop l : forall n, quiet (dogs_loop l n).
Proof. induction l; intros n; simpl; quiet_all. Qed.

Hint Resolve quiet_dogs_loop : quiet.

Lemma quiet_loadDogsPage : quiet loadDogsPage.
Proof. unfold loadDogsPage. quiet_all. Qed.

Hint Resolve quiet_loadDashboard quiet_loadDogsPage : quiet.

Lemma quiet_main : quiet main.
Proof. unfold main, when_present. quiet_all. Qed.

Lemma quiet_edit_element id f : quiet (edit_element id f).
Proof. unfold edit_element. quiet_all. Qed.

End QuietScript.

Section DefinedScript.

Lemma defined_getItem k : defined (getItem k).
Proof. apply defined_gets. Qed.

Lemma defined_console_error msg : defined (console_error msg).
Proof. apply defined_modify. Qed.

Lemma defined_navigate url : defined (navigate url).
Proof. apply defined_modify. Qed.

Lemma defined_getElementById id : defined (getElementById id).
Proof. apply defined_gets. Qed.

Lemma defined_addEventListener id l : defined (addEventListener id l).
Proof. apply defined_modify. Qed.

Hint Resolve defined_getItem defined_console_error defined_navigate defined_getElementById
  defined_addEventListener : defined.

Lemma defined_input_value id : defined (input_value id).
Proof. unfold input_value. defined_all. Qed.

Lemma defined_input_files id : defined (input_files id).
Proof. unfold input_files. defined_all. Qed.

Lemma defined_update_element id f : defined (update_element id f).
Proof. unfold update_element. defined_all. Qed.

Hint Resolve defined_input_value defined_input_files defined_update_element : defined.

Lemma defined_set_textContent id t : defined (set_textContent id t).
Proof. unfold set_textContent. defined_all. Qed.

Lemma defined_appendChild id n : defined (appendChild id n).
Proof. unfold appendChild. defined_all. Qed.

Lemma defined_get_prop v k : defined (get_prop v k).
Proof. unfold get_prop. defined_all. Qed.

Lemma defined_call_toFixed v : defined (call_toFixed v).
Proof. unfold call_toFixed. defined_all. Qed.

Lemma defined_as_array v : defined (as_array v).
Proof. unfold as_array. defined_all. Qed.

Hint Resolve defined_set_textContent defined_appendChild defined_get_prop defined_call_toFixed
  defined_as_array : defined.

Lemma defined_when_present id m : defined m -> defined (when_present id m).
Proof. intros Hm. unfold when_present. defined_all. Qed.

Lemma defined_get_first v : defined (get_first v).
Proof. unfold get_first. defined_all. Qed.

Lemma defined_gt_zero v : defined (gt_zero v).
Proof. unfold gt_zero. defined_all. Qed.

Hint Resolve defined_get_first defined_gt_zero : defined.

Lemma defined_array_find p l : (forall u, defined (p u)) -> defined (array_find p l).
Proof. intros Hp. induction l; simpl; defined_all. Qed.

Lemma defined_getUsers : defined getUsers.
Proof. unfold getUsers. defined_all. Qed.

Hint Resolve defined_getUsers : defined.

Lemma defined_findUser e : defined (findUser e).
Proof.
  unfold findUser. defined_all. apply defined_array_find. intros u. unfold email_is. defined_all.
Qed.

Lemma defined_getCurrentUserEmail : defined getCurrentUserEmail.
Proof. apply defined_gets. Qed.

Hint Resolve defined_findUser defined_getCurrentUserEmail : defined.

Lemma defined_photo_imgs l : defined (photo_imgs l).
Proof. induction l; simpl; unfold photo_img; defined_all. Qed.

Hint Resolve defined_photo_imgs : defined.

Lemma defined_displayPetInfo pet : defined (displayPetInfo pet).
Proof. unfold displayPetInfo. defined_all. Qed.

Hint Resolve defined_displayPetInfo : defined.

Lemma defined_loadDashboard : defined loadDashboard.
Proof. unfold loadDashboard. defined_all. Qed.

Lemma defined_dog_card user pet : defined (dog_card user pet).
Proof. unfold dog_card, card_image. defined_all. Qed.

Hint Resolve defined_dog_card : defined.

Lemma defined_dogs_loop l : forall n, defined (dogs_loop l n).
Proof. induction l; intros n; simpl; defined_all. Qed.

Hint Resolve defined_dogs_loop : defined.

Lemma defined_loadDogsPage : defined loadDogsPage.
Proof. unfold loadDogsPage. defined_all. Qed.

Hint Resolve defined_loadDashboard defined_loadDogsPage : defined.

(** The DOMContentLoaded listener always ends: with [Ok] or with a
    thrown exception. *)
Lemma defined_main : defined main.
Proof. unfold main, when_present. defined_all. Qed.

Lemma defined_load_page doc : defined (load_page doc).
Proof. unfold load_page. apply defined_bind; [apply defined_modify | intros _; apply defined_main]. Qed.

End DefinedScript.

End QuietHandlers.

(** ** The session and the accounts, event after event *)

Section EventAfterEvent.

Context {engine : Engine}.

Section Keeps.

Context {A B : Type}.

Lemma grows_refl accts : grows accts accts.
Proof. unfold grows. reflexivity. Qed.

Lemma grows_trans a b c : grows a b -> grows b c -> grows a c.
Proof. unfold grows. intros H1 H2. etransitivity; eauto. Qed.

Lemma Sound_quiet w w' accts :
  localStorage w' = localStorage w -> saves w' = saves w ->
  Sound w accts -> Sound w' accts.
Proof.
  intros Hl Hs [Hinv Hses]. split.
  - apply (Inv_frame w); [|exact Hinv]. split; [now rewrite Hl | exact Hs].
  - intros e He. apply Hses. now rewrite <- Hl.
Qed.

Lemma keeps_quiet (m : M A) : quiet m -> defined m -> keeps m.
Proof.
  intros Hq Ht w accts Hs. specialize (Hq w). specialize (Ht w).
  destruct (m w) as [a w1|e w1|]; [| |congruence];
    exists w1, accts; destruct Hq as [Hl Hv];
    (split; [reflexivity|]; split; [now apply (Sound_quiet w) | apply grows_refl]).
Qed.

Lemma keeps_bind (m : M A) (f : A -> M B) :
  keeps m -> (forall a, keeps (f a)) -> keeps (m ≫= f).
Proof.
  intros Hm Hf w accts Hs. rewrite bind_eq.
  destruct (Hm w accts Hs) as (w1 & accts1 & Hw1 & Hs1 & Hg1).
  destruct (m w) as [a w2|e w2|]; cbn in Hw1; [| |discriminate]; injection Hw1 as ->.
  - destruct (Hf a w1 accts1 Hs1) as (w' & accts' & Hw' & Hs' & Hg').
    exists w', accts'. split; [exact Hw'|]. split; [exact Hs'|].
    eapply grows_trans; eauto.
  - exists w1, accts1. auto.
Qed.

(** What follows [gets saves] may rely on the saves being in order. *)
Lemma keeps_saves (f : list SaveJob -> M B) :
  (forall js, Forall job_ok js -> keeps (f js)) -> keeps (gets saves ≫= f).
Proof.
  intros Hf w accts Hs. rewrite bind_eq. unfold gets.
  apply (Hf (saves w)); [apply Hs | exact Hs].
Qed.

End Keeps.

Section KeepsScript.

Lemma keeps_ret {A : Type} (a : A) : keeps (mret a).
Proof. apply keeps_quiet; [apply quiet_ret | apply defined_ret]. Qed.

Lemma keeps_input_value id : keeps (input_value id).
Proof. apply keeps_quiet; [apply quiet_input_value | apply defined_input_value]. Qed.

Lemma keeps_input_files id : keeps (input_files id).
Proof. apply keeps_quiet; [apply quiet_input_files | apply defined_input_files]. Qed.

Lemma keeps_getElementById id : keeps (getElementById id).
Proof. apply keeps_quiet; [apply quiet_getElementById | apply defined_getElementById]. Qed.

Lemma keeps_set_textContent id t : keeps (set_textContent id t).
Proof. apply keeps_quiet; [apply quiet_set_textContent | apply defined_set_textContent]. Qed.

Lemma keeps_addEventListener id l : keeps (addEventListener id l).
Proof. apply keeps_quiet; [apply quiet_addEventListener | apply defined_addEventListener]. Qed.

Lemma keeps_unhandled m : keeps m -> keeps (unhandled m).
Proof.
  intros Hm w accts Hs. destruct (Hm w accts Hs) as (w' & accts' & Hw' & Hs' & Hg).
  exists w', accts'. split; [|auto]. unfold unhandled.
  destruct (m w) as [a w1|e w1|]; cbn in *; congruence.
Qed.

Lemma keeps_set_saves f :
  (forall js, Forall job_ok js -> Forall job_ok (f js)) ->
  keeps (modify (set_saves f)).
Proof.
  intros Hf w accts [[H1 H2 H3 H4] Hses]. eexists. exists accts.
  split; [reflexivity|]. split; [|apply grows_refl].
  split; [|exact Hses]. split; try assumption. cbn. now apply Hf.
Qed.

Lemma grows_with_pet (accts : list Account) (i : nat) a p :
  accts !! i = Some a -> grows accts (<[i := with_pet p a]> accts).
Proof.
  intros Hi. unfold grows. rewrite list_fmap_insert.
  rewrite list_insert_id; [reflexivity|]. now rewrite list_lookup_fmap, Hi.
Qed.

Lemma emails_with_pet (accts : list Account) (i : nat) a p :
  accts !! i = Some a -> acc_email <$> <[i := with_pet p a]> accts = acc_email <$> accts.
Proof.
  intros Hi. rewrite list_fmap_insert.
  rewrite list_insert_id; [reflexivity|]. now rewrite list_lookup_fmap, Hi.
Qed.

Lemma keeps_save_callback job : job_ok job -> keeps (save_callback job).
Proof.
  intros (vet & photos & Hv & Hp) w accts [Hinv Hses].
  assert (Hnone : (forall a, a ∈ accts ->
                     prop_of (job_user job) "email" <> Some (VStr (acc_email a))) ->
                  exists w' accts', final_world (save_callback job w) = Some w' /\
                    Sound w' accts' /\ grows accts accts').
  { intros Hno. rewrite (save_callback_not_found w accts job Hinv Hno).
    exists w, accts. split; [reflexivity|]. split; [now split | apply grows_refl]. }
  destruct (prop_of (job_user job) "email") as [mine|] eqn:Hu.
  - destruct (index_of mine accts 0) as [k|] eqn:Hk.
    + apply index_of_Some in Hk as (a & Ha & _ & ->). rewrite Nat.sub_0_r in Ha.
      destruct (save_callback_found w accts job vet photos k a Hinv Hv Hp Hu Ha)
        as (w2 & Hw2 & Hst & Hsv).
      exists w2, (<[k := with_pet (job_pet job vet photos) a]> accts).
      split; [exact Hw2|]. split; [|now apply grows_with_pet].
      split; [eapply Inv_with_pet; eauto|].
      intros e He. rewrite emails_with_pet by exact Ha. apply Hses.
      rewrite Hst in He. now rewrite lookup_insert_ne in He.
    + apply Hnone. intros a Ha [= ->]. eapply index_of_None in Hk; eauto.
  - apply Hnone. intros a Ha. discriminate.
Qed.

Lemma keeps_settle j : keeps (settle j).
Proof.
  unfold settle. apply keeps_saves. intros js Hjs.
  destruct (js !! j) as [job|] eqn:Hj; [|apply keeps_ret].
  assert (Hjob : job_ok job).
  { rewrite Forall_forall in Hjs. apply Hjs. eapply list_elem_of_lookup_2; eauto. }
  destruct (forallb is_loaded (job_tasks job) && negb (job_done job)); [|apply keeps_ret].
  apply keeps_bind.
  - apply keeps_set_saves. intros js' Hjs'. now apply Forall_insert.
  - intros _. now apply keeps_unhandled, keeps_save_callback.
Qed.

Lemma keeps_savePetInfo user : keeps (savePetInfo user).
Proof.
  unfold savePetInfo.
  apply keeps_bind; [apply keeps_input_value | intros rawName].
  apply keeps_bind; [apply keeps_input_value | intros rawDesc].
  apply keeps_bind; [apply keeps_getElementById | intros errorEl].
  apply keeps_bind.
  { destruct errorEl; [apply keeps_set_textContent | apply keeps_ret]. }
  intros _. destruct (is_empty (trim rawName) || is_empty (trim rawDesc)).
  { destruct errorEl; [apply keeps_set_textContent | apply keeps_ret]. }
  apply keeps_bind; [apply keeps_input_files | intros vetFiles].
  apply keeps_bind; [apply keeps_input_files | intros photoFiles].
  apply keeps_set_saves. intros js' Hjs'. apply Forall_app. split; [exact Hjs'|].
  constructor; [|constructor]. exists None, []. split; reflexivity.
Qed.

Lemma keeps_submit_pet user : keeps (submit_pet user).
Proof.
  unfold submit_pet. apply keeps_saves. intros js Hjs.
  apply keeps_bind; [apply keeps_savePetInfo | intros _; apply keeps_settle].
Qed.

Lemma keeps_file_loaded j i : keeps (file_loaded j i).
Proof.
  unfold file_loaded. apply keeps_saves. intros js Hjs.
  destruct (js !! j) as [job|] eqn:Hj; [|apply keeps_ret].
  assert (Hjob : job_ok job).
  { rewrite Forall_forall in Hjs. apply Hjs. eapply list_elem_of_lookup_2; eauto. }
  destruct (job_tasks job !! i) as [t|]; [|apply keeps_ret].
  destruct (task_state t); try apply keeps_ret.
  apply keeps_bind; [|intros _; apply keeps_settle].
  apply keeps_set_saves. intros js' Hjs'. apply Forall_insert; [exact Hjs'|].
  apply (job_ok_load_task i t job Hjob).
Qed.

Lemma keeps_file_failed j i : keeps (file_failed j i).
Proof.
  unfold file_failed. apply keeps_saves. intros js Hjs.
  destruct (js !! j) as [job|] eqn:Hj; [|apply keeps_ret].
  assert (Hjob : job_ok job).
  { rewrite Forall_forall in Hjs. apply Hjs. eapply list_elem_of_lookup_2; eauto. }
  destruct (job_tasks job !! i) as [t|]; [|apply keeps_ret].
  destruct (task_state t); try apply keeps_ret.
  apply keeps_set_saves. intros js' Hjs'. now apply Forall_insert.
Qed.

Lemma keeps_register email password :
  normalized email -> email <> EmptyString -> keeps (register email password).
Proof.
  intros Hn He w accts [Hinv Hses]. rewrite (register_eq w accts) by apply Hinv.
  destruct (existsb _ accts) eqn:Hfresh.
  - apply keeps_set_textContent. now split.
  - eexists. exists (accts ++ [registered email password])%list.
    split; [reflexivity|]. split.
    + split; [now apply Inv_signed_up|]. intros e.
      unfold signed_up. cbn [localStorage set_navigations set_localStorage].
      rewrite lookup_insert_eq. intros [= <-]. rewrite fmap_app.
      apply elem_of_app. right. apply list_elem_of_singleton. reflexivity.
    + unfold grows. rewrite fmap_app. now apply prefix_app_r.
Qed.

Lemma keeps_handleSignup : keeps handleSignup.
Proof.
  rewrite handleSignup_eq.
  apply keeps_bind; [apply keeps_input_value | intros raw]. cbv zeta.
  apply keeps_bind; [apply keeps_input_value | intros password].
  apply keeps_bind; [apply keeps_input_value | intros confirm].
  apply keeps_bind; [apply keeps_set_textContent | intros _].
  destruct (is_empty (toLowerCase (trim raw))) eqn:He; [apply keeps_set_textContent|].
  cbn [orb].
  destruct (is_empty password || is_empty confirm); [apply keeps_set_textContent|].
  destruct (negb (String.eqb password confirm)); [apply keeps_set_textContent|].
  apply keeps_register; [apply normalized_normalize | now apply is_empty_false].
Qed.

Lemma keeps_handleLogin : keeps handleLogin.
Proof.
  unfold handleLogin.
  apply keeps_bind; [apply keeps_input_value | intros raw]. cbv zeta.
  apply keeps_bind; [apply keeps_input_value | intros password].
  apply keeps_bind; [apply keeps_set_textContent | intros _].
  intros w accts [Hinv Hses].
  rewrite (bind_ok _ _ _ _ _
             (findUser_stored w accts _ (inv_stored _ _ Hinv) (inv_accounts _ _ Hinv))).
  destruct (find_account (toLowerCase (trim raw)) accts) as [a|] eqn:Hf; cbn [from_option].
  - apply find_account_Some in Hf as [Ha He].
    change (truthy (encode_account a)) with true. cbv iota.
    rewrite bind_eq, bind_eq.
    change (get_prop (encode_account a) "password" w) with (Ok (VStr (acc_password a)) w).
    cbv beta iota. rewrite mret_eq. cbn [strict_eq].
    destruct (String.eqb (acc_password a) password); cbn [negb].
    + eexists. exists accts. split; [reflexivity|]. split; [|apply grows_refl]. split.
      * apply (Inv_frame w); [|exact Hinv]. split; [|reflexivity].
        cbn [localStorage set_navigations set_localStorage].
        now rewrite lookup_insert_ne.
      * intros e. cbn [localStorage set_navigations set_localStorage].
        rewrite lookup_insert_eq. intros [= <-]. rewrite <- He.
        apply list_elem_of_fmap. eauto.
    + apply keeps_set_textContent. now split.
  - cbn [truthy]. rewrite bind_eq, mret_eq. apply keeps_set_textContent. now split.
Qed.

Lemma keeps_logout : keeps logout.
Proof.
  intros w accts [Hinv Hses]. eexists. exists accts.
  split; [reflexivity|]. split; [|apply grows_refl]. split.
  - apply (Inv_frame w); [|exact Hinv]. split; [|reflexivity].
    cbn [localStorage set_navigations set_localStorage]. now rewrite lookup_delete_ne.
  - intros e. cbn [localStorage set_navigations set_localStorage].
    now rewrite lookup_delete_eq.
Qed.

Lemma keeps_when_present id m : keeps m -> keeps (when_present id m).
Proof.
  intros Hm. unfold when_present. apply keeps_bind; [apply keeps_getElementById|].
  intros [e|]; [exact Hm | apply keeps_ret].
Qed.

Lemma keeps_main : keeps main.
Proof.
  unfold main.
  apply keeps_bind; [apply keeps_when_present, keeps_addEventListener | intros _].
  apply keeps_bind; [apply keeps_when_present, keeps_addEventListener | intros _].
  apply keeps_bind; [|intros _]; apply keeps_when_present.
  - apply keeps_quiet; [apply quiet_loadDashboard | apply defined_loadDashboard].
  - apply keeps_quiet; [apply quiet_loadDogsPage | apply defined_loadDogsPage].
Qed.

Lemma keeps_load_page doc : keeps (load_page doc).
Proof.
  unfold load_page. apply keeps_bind; [|intros _; apply keeps_main].
  intros w accts [[H1 H2 H3 H4] Hses]. eexists. exists accts.
  split; [reflexivity|]. split; [|apply grows_refl].
  split; [|exact Hses]. split; try assumption. constructor.
Qed.

Lemma keeps_run_listener l : keeps (run_listener l).
Proof.
  destruct l; cbn [run_listener].
  - apply keeps_handleSignup.
  - apply keeps_handleLogin.
  - apply keeps_submit_pet.
  - apply keeps_logout.
Qed.

Lemma keeps_handle ev : keeps (handle ev).
Proof.
  destruct ev; cbn [handle].
  - apply keeps_load_page.
  - apply keeps_quiet; [apply quiet_edit_element | apply defined_modify].
  - apply keeps_quiet; [apply quiet_edit_element | apply defined_modify].
  - unfold fire. apply keeps_bind; [apply keeps_quiet; [apply quiet_gets | apply defined_gets]|].
    intros ls. destruct (ls !! n) as [[id l]|]; [apply keeps_run_listener | apply keeps_ret].
  - apply keeps_file_loaded.
  - apply keeps_file_failed.
Qed.

Lemma keeps_run evs :
  forall w accts, Sound w accts ->
  exists w' accts', run evs w = Some w' /\ Sound w' accts' /\ grows accts accts'.
Proof.
  induction evs as [|ev evs IH]; intros w accts Hs; cbn [run].
  - exists w, accts. split; [reflexivity|]. split; [exact Hs | apply grows_refl].
  - destruct (keeps_handle ev w accts Hs) as (w1 & accts1 & Hw1 & Hs1 & Hg1).
    unfold step. rewrite Hw1.
    destruct (IH w1 accts1 Hs1) as (w' & accts' & Hrun & Hs' & Hg').
    exists w', accts'. split; [exact Hrun|]. split; [exact Hs'|].
    eapply grows_trans; eauto.
Qed.

Lemma Sound_initial : Sound initial [].
Proof. split; [apply Inv_initial|]. intros e. cbn. now rewrite lookup_empty. Qed.

Lemma reachable_Sound w : reachable w -> exists accts, Sound w accts.
Proof.
  induction 1 as [|w ev w' _ [accts IH] Hstep].
  - exists []. apply Sound_initial.
  - destruct (keeps_handle ev w accts IH) as (w1 & accts1 & Hw1 & Hs1 & _).
    unfold step in Hstep. rewrite Hw1 in Hstep. injection Hstep as <-. eauto.
Qed.

End KeepsScript.

(** X14.  Opening a page never writes to the storage, whatever the
    storage holds, whatever the page contains and whatever the engine
    answers when a length that is no number is compared with zero: the
    DOMContentLoaded listener, the dashboard and the listing only read
    the storage.  The listener always ends, by returning or by throwing,
    and the storage is then the one it started with; [main] leaves the
    saves as they are too. *)
Theorem page_load_never_writes (doc : gmap string Element) (w : World) :
  (exists w', final_world (load_page doc w) = Some w' /\ localStorage w' = localStorage w) /\
  (exists w', final_world (main w) = Some w' /\
     localStorage w' = localStorage w /\ saves w' = saves w).
Proof.
  assert (Hmain : forall w0, exists w', final_world (main w0) = Some w' /\
                    localStorage w' = localStorage w0 /\ saves w' = saves w0).
  { intros w0. pose proof (quiet_main w0) as Hq. pose proof (defined_main w0) as Hd.
    destruct (main w0) as [a w1|e w1|]; [| |congruence]; exists w1; split; auto. }
  split; [|apply Hmain].
  unfold load_page. rewrite bind_eq. unfold modify at 1. cbv beta iota.
  destruct (Hmain (mkWorld (localStorage w) doc (console w) (navigations w) [] []))
    as (w' & Hw' & Hl & _).
  exists w'. split; [exact Hw' | exact Hl].
Qed.

(** X15.  In every world the page can reach, the session, when there is
    one, is the identifier of a stored account: [findUser] finds that
    account, so that the dashboard has an account to show. *)
Theorem session_names_account (w : World) :
  reachable w ->
  exists accts, Inv w accts /\
    forall e, localStorage w !! "currentUser" = Some e ->
      exists a, a ∈ accts /\ acc_email a = e /\ e <> EmptyString /\
                findUser e w = Ok (encode_account a) w.
Proof.
  intros Hr. destruct (reachable_Sound w Hr) as [accts [Hinv Hses]].
  exists accts. split; [exact Hinv|]. intros e He.
  apply Hses in He. apply list_elem_of_fmap in He as (a & -> & Ha).
  exists a. split; [exact Ha|]. split; [reflexivity|]. split.
  - apply is_empty_false. apply (account_email_not_empty w accts a Hinv Ha).
  - rewrite (findUser_stored w accts) by apply Hinv.
    now rewrite (find_account_unique accts a (inv_unique _ _ Hinv) Ha).
Qed.

(** X16.  From a world the page can reach, any further events run to a
    world, and the accounts stored there are the accounts stored before,
    each with the identifier, the password and the fund it had, followed
    by the accounts registered since: no handler deletes an account or
    changes its credentials. *)
Theorem accounts_only_grow (w : World) (evs : list Event) :
  reachable w ->
  exists accts w' accts',
    getUsers w = Ok (VArr (encode_account <$> accts)) w /\
    run evs w = Some w' /\
    getUsers w' = Ok (VArr (encode_account <$> accts')) w' /\
    credentials <$> accts `prefix_of` credentials <$> accts' /\
    (forall a, a ∈ accts ->
       exists a', a' ∈ accts' /\ acc_email a' = acc_email a /\
                  acc_password a' = acc_password a /\ acc_fund a' = of_Z 4).
Proof.
  intros Hr. destruct (reachable_Sound w Hr) as [accts Hs].
  destruct (keeps_run evs w accts Hs) as (w' & accts' & Hrun & Hs' & Hg).
  exists accts, w', accts'.
  split; [apply getUsers_stored; apply Hs|]. split; [exact Hrun|].
  split; [apply getUsers_stored; apply Hs'|]. split; [exact Hg|].
  intros a Ha. destruct Hg as [k Hk].
  assert (Hin : credentials a ∈ credentials <$> accts').
  { rewrite Hk. apply elem_of_app. left. apply list_elem_of_fmap. eauto. }
  apply list_elem_of_fmap in Hin as (a' & Hc & Ha'). exists a'.
  injection Hc as He Hp Hf. split; [exact Ha'|]. split; [now symmetry|].
  split; [now symmetry|].
  apply (account_fund w' accts' a' (sound_inv _ _ Hs') Ha').
Qed.

(** X17.  The registration and login handlers assign to the error
    element without testing that the page has one: on a page without it
    they throw once the fields are read, before any check, and change
    nothing, whatever the fields hold. *)
Theorem forms_need_their_error_element (w : World) :
  (forall raw pw cf,
     document w !! "signup-error" = None ->
     has_value w "signup-email" raw -> has_value w "signup-password" pw ->
     has_value w "signup-confirm" cf ->
     handleSignup w = Throw TypeError w) /\
  (forall raw pw,
     document w !! "login-error" = None ->
     has_value w "login-email" raw -> has_value w "login-password" pw ->
     handleLogin w = Throw TypeError w).
Proof.
  split.
  - intros raw pw cf Hel Hraw Hpw Hcf. rewrite handleSignup_eq.
    rewrite (bind_ok _ _ _ _ _ (input_value_eq _ _ _ Hraw)). cbv zeta.
    rewrite (bind_ok _ _ _ _ _ (input_value_eq _ _ _ Hpw)).
    rewrite (bind_ok _ _ _ _ _ (input_value_eq _ _ _ Hcf)).
    rewrite bind_eq. unfold set_textContent at 1. now rewrite update_element_eq, Hel.
  - intros raw pw Hel Hraw Hpw. unfold handleLogin.
    rewrite (bind_ok _ _ _ _ _ (input_value_eq _ _ _ Hraw)). cbv zeta.
    rewrite (bind_ok _ _ _ _ _ (input_value_eq _ _ _ Hpw)).
    rewrite bind_eq. unfold set_textContent at 1. now rewrite update_element_eq, Hel.
Qed.

Section Dashboard.

(** [main] on the dashboard page runs [loadDashboard], then looks for
    the listing. *)
Lemma main_dashboard w e :
  document w !! "signup-form" = None -> document w !! "login-form" = None ->
  document w !! "dashboard-page" = Some e ->
  main w = (loadDashboard;; when_present "dogs-page" loadDogsPage) w.
Proof.
  intros H1 H2 H3. unfold main.
  rewrite bind_eq, when_present_eq, H1.
  rewrite bind_eq, when_present_eq, H2.
  rewrite bind_eq, when_present_eq, H3. now rewrite bind_eq.
Qed.

Lemma dashboard_page_elements :
  dashboard_page !! "signup-form" = None /\ dashboard_page !! "login-form" = None /\
  dashboard_page !! "dashboard-page" = Some blank /\ dashboard_page !! "dogs-page" = None /\
  dashboard_page !! "fund-value" = Some blank /\ dashboard_page !! "pet-info" = Some blank /\
  dashboard_page !! "pet-form" = Some blank /\ dashboard_page !! "logout-btn" = Some blank.
Proof. repeat split; vm_compute; reflexivity. Qed.

(** Opening the dashboard page with the session of the stored account
    [a]. *)
Lemma open_dashboard_page w accts a :
  Inv w accts -> a ∈ accts -> localStorage w !! "currentUser" = Some (acc_email a) ->
  exists w', step (EvLoad dashboard_page) w = Some w' /\
    document w' =
      <["pet-info" := with_childNodes (fun l => from_option render_pet l (acc_pet a)) blank]>
        (<["fund-value" := with_textContent "4.00 €" blank]> dashboard_page) /\
    listeners w' = [("pet-form", OnSubmitPet (encode_account a)); ("logout-btn", OnLogout)] /\
    navigations w' = navigations w /\ localStorage w' = localStorage w /\ saves w' = [].
Proof.
  intros Hinv Ha Hs.
  destruct dashboard_page_elements as (H1 & H2 & H3 & H4 & H5 & H6 & H7 & H8).
  unfold step, handle, load_page. rewrite bind_eq. unfold modify at 1. cbv beta iota.
  fold (opened dashboard_page w).
  rewrite (main_dashboard _ blank) by assumption.
  destruct (loadDashboard_account (opened dashboard_page w) accts a blank blank blank blank)
    as (w' & Hrun & Hdoc & Hl & Hn & Hls & Hsv); try assumption.
  { now apply Inv_opened. }
  rewrite (bind_ok _ _ _ _ _ Hrun), when_present_eq, Hdoc.
  cbn [document opened]. rewrite !lookup_insert_ne by discriminate. rewrite H4.
  exists w'. split; [reflexivity|]. auto.
Qed.

End Dashboard.

(** X18.  Registering, with an identifier that is free and not empty
    once trimmed and lower-cased by the engine, and then opening the
    dashboard: the session of the new account is open, the dashboard
    shows the fund [4.00 €] and no pet, registers the submit handler of
    the pet form for the new account and the logout handler, and does
    not redirect to the login page. *)
Theorem register_then_dashboard (w : World) (accts : list Account) (raw pw : string) :
  Inv w accts ->
  toLowerCase (trim raw) ∉ acc_email <$> accts ->
  toLowerCase (trim raw) <> EmptyString -> pw <> EmptyString ->
  let email := toLowerCase (trim raw) in
  exists w',
    run [EvLoad (signup_page raw pw pw); EvFire 0; EvLoad dashboard_page] w = Some w' /\
    localStorage w' !! "currentUser" = Some email /\
    text_of w' "fund-value" = Some "4.00 €" /\
    childNodes <$> document w' !! "pet-info" = Some [] /\
    listeners w' =
      [("pet-form", OnSubmitPet (VObj [("email", VStr email); ("password", VStr pw);
                                       ("fund", VNum (of_Z 4)); ("pet", VNull)]));
       ("logout-btn", OnLogout)] /\
    navigations w' = (navigations w ++ ["dashboard.html"])%list.
Proof.
  intros Hinv Hfresh He Hpne email.
  destruct (register_steps w accts raw pw Hinv Hfresh He Hpne) as [H12 Hinv2].
  change [EvLoad (signup_page raw pw pw); EvFire 0; EvLoad dashboard_page]
    with ([EvLoad (signup_page raw pw pw); EvFire 0] ++ [EvLoad dashboard_page])%list.
  rewrite run_app, H12. fold email in Hinv2.
  assert (Hnav : navigations (just_registered raw pw accts w)
                 = (navigations w ++ ["dashboard.html"])%list) by reflexivity.
  assert (Hses : localStorage (just_registered raw pw accts w) !! "currentUser" = Some email).
  { unfold just_registered, signed_up.
    cbn [localStorage set_navigations set_localStorage]. apply lookup_insert_eq. }
  revert Hinv2 Hnav Hses. generalize (just_registered raw pw accts w).
  intros w2 Hinv2 Hnav Hses. cbn [run].
  destruct (open_dashboard_page w2 _ (registered email pw) Hinv2)
    as (w' & Hstep & Hdoc & Hl & Hn & Hls & _).
  { apply elem_of_app. right. apply list_elem_of_singleton. reflexivity. }
  { exact Hses. }
  rewrite Hstep. exists w'. split; [reflexivity|].
  rewrite Hls, Hn, Hnav, Hl. split; [exact Hses|].
  unfold text_of. rewrite Hdoc.
  rewrite lookup_insert_ne by discriminate. rewrite !lookup_insert_eq.
  repeat split; reflexivity.
Qed.

(** X19.  The listing needs only its container: on a page without the
    message element the cards are appended all the same and nothing else
    changes; on a page without the container nothing is read and nothing
    changes, whatever the storage holds. *)
Theorem listing_needs_only_its_container (w : World) (accts : list Account) (c : Element) :
  Inv w accts ->
  document w !! "dogs-container" = Some c ->
  document w !! "no-dogs-message" = None ->
  (exists w', loadDogsPage w = Ok tt w' /\
     document w' =
       <["dogs-container" := with_childNodes (fun l => (l ++ dog_cards accts)%list) c]>
         (document w) /\
     localStorage w' = localStorage w /\ navigations w' = navigations w) /\
  (forall w0, document w0 !! "dogs-container" = None -> loadDogsPage w0 = Ok tt w0).
Proof.
  intros Hinv Hc Hm. split.
  - unfold loadDogsPage. rewrite bind_eq.
    unfold getElementById at 1, gets. rewrite Hc.
    rewrite (bind_ok _ _ _ _ _
               (getUsers_stored w accts (inv_stored _ _ Hinv) (inv_accounts _ _ Hinv))).
    rewrite bind_eq. cbn [as_array]. rewrite mret_eq.
    destruct (dogs_loop_accounts accts 0%nat w c Hc) as (w1 & Hrun & Hdoc & Hls & Hsv & Hnav).
    rewrite (bind_ok _ _ _ _ _ Hrun). rewrite bind_eq.
    unfold getElementById, gets. rewrite Hdoc.
    rewrite lookup_insert_ne by discriminate. rewrite Hm, mret_eq.
    exists w1. auto.
  - intros w0 Hnone. unfold loadDogsPage. rewrite bind_eq.
    unfold getElementById, gets. now rewrite Hnone.
Qed.

End EventAfterEvent.

(** ** A save, from the submit to the storage *)

Section SubmitToStorage.

Context {engine : Engine}.

Section WholeSave.

Lemma load_task_tasks i t job :
  job_tasks (load_task i t job)
  = <[i := mkTask (task_kind t) (task_file t) Loaded]> (job_tasks job).
Proof. unfold load_task. destruct (task_kind t); reflexivity. Qed.

Lemma load_task_kept i t job :
  job_user (load_task i t job) = job_user job /\
  job_name (load_task i t job) = job_name job /\
  job_desc (load_task i t job) = job_desc job /\
  job_done (load_task i t job) = job_done job.
Proof. unfold load_task. destruct (task_kind t); auto. Qed.

Lemma load_task_vet i t job vet0 :
  job_tasks job !! i = Some t -> job_vetObj job = encode_vet vet0 ->
  job_vetObj (load_task i t job) = encode_vet (vet_after (job_tasks job) vet0 [i]).
Proof.
  intros Hi Hv. unfold vet_after, vet_file, load_task. cbn [foldl]. rewrite Hi.
  cbn [mbind option_bind]. destruct (task_kind t); cbn; [reflexivity | exact Hv].
Qed.

Lemma vet_after_insert tasks i x vet0 order :
  i ∉ order -> vet_after (<[i := x]> tasks) vet0 order = vet_after tasks vet0 order.
Proof.
  revert vet0. induction order as [|k order IH]; intros vet0 Hi; [reflexivity|].
  apply not_elem_of_cons in Hi as [Hne Hi]. unfold vet_after in *. cbn [foldl].
  rewrite list_lookup_insert_ne by exact Hne. now apply IH.
Qed.

Lemma photo_files_cons tasks i order :
  photo_files tasks (i :: order)
  = (photo_files tasks [i] ++ photo_files tasks order)%list.
Proof.
  unfold photo_files. cbn [omap list_omap]. destruct (photo_of tasks i); reflexivity.
Qed.

Lemma all_loaded (tasks : list ReaderTask) :
  (forall i t, tasks !! i = Some t -> task_state t = Loaded) ->
  forallb is_loaded tasks = true.
Proof.
  induction tasks as [|t tasks IH]; intros H; [reflexivity|]. cbn [forallb].
  unfold is_loaded at 1. rewrite (H 0%nat t eq_refl). cbn [andb].
  apply IH. intros i t' Hi. apply (H (S i) t' Hi).
Qed.

(** The loads of all the pending tasks of a save, one after the other in
    any order: the last one runs the callback, which stores the pet. *)
Lemma loads_complete order :
  forall w accts j job photos0 vet0 k a,
  Inv w accts -> saves w !! j = Some job -> job_done job = false ->
  job_photos job = encode_file <$> photos0 -> job_vetObj job = encode_vet vet0 ->
  NoDup order -> order <> [] ->
  (forall i, i ∈ order ->
     exists t, job_tasks job !! i = Some t /\ task_state t = Reading) ->
  (forall i t, job_tasks job !! i = Some t -> i ∉ order -> task_state t = Loaded) ->
  accts !! k = Some a -> prop_of (job_user job) "email" = Some (VStr (acc_email a)) ->
  exists w', run (EvFileLoad j <$> order) w = Some w' /\
    localStorage w' =
      <["users" := JSON.stringify (VArr (encode_account <$>
          <[k := with_pet (mkPet (job_name job) (job_desc job)
                             (vet_after (job_tasks job) vet0 order)
                             (photos0 ++ photo_files (job_tasks job) order)%list) a]> accts))]>
        (localStorage w).
Proof.
  induction order as [|i order IH];
    intros w accts j job photos0 vet0 k a Hinv Hj Hdone Hp Hv Hnd Hne Hrd Hld Hk Hu;
    [congruence|].
  apply NoDup_cons in Hnd as [Hi_fresh Hnd].
  destruct (Hrd i) as (t & Hi & Ht); [left|].
  rewrite fmap_cons. cbn [run]. unfold step. cbn [handle].
  rewrite (file_loaded_reading w j i job t Hj Hi Ht). cbv zeta.
  set (job2 := load_task i t job).
  set (w1 := set_saves (fun js => <[j := job2]> js) w).
  assert (Hok2 : job_ok job2) by (apply job_ok_load_task; eapply Inv_job; eauto).
  assert (Hinv1 : Inv w1 accts).
  { apply Inv_set_saves; [exact Hinv|]. apply Forall_insert; [apply Hinv | exact Hok2]. }
  assert (Hlt : (j < length (saves w))%nat) by (eapply lookup_lt_Some; eauto).
  destruct (load_task_kept i t job) as (Hu2 & Hn2 & Hde2 & Hd2). fold job2 in Hu2, Hn2, Hde2, Hd2.
  assert (Hp2 : job_photos job2 = encode_file <$> (photos0 ++ photo_files (job_tasks job) [i])%list)
    by now apply load_task_photos.
  assert (Hv2 : job_vetObj job2 = encode_vet (vet_after (job_tasks job) vet0 [i]))
    by now apply load_task_vet.
  assert (Ht2 : job_tasks job2 = <[i := mkTask (task_kind t) (task_file t) Loaded]> (job_tasks job))
    by apply load_task_tasks.
  destruct order as [|i' order].
  - (* the last read: every task is loaded, the callback runs *)
    assert (Hall : forallb is_loaded (job_tasks job2) = true).
    { apply all_loaded. intros i0 t0. rewrite Ht2.
      destruct (decide (i0 = i)) as [->|Hn].
      - rewrite list_lookup_insert_eq by (eapply lookup_lt_Some; eauto). now intros [= <-].
      - rewrite list_lookup_insert_ne by congruence. intros H0. apply (Hld i0 t0 H0).
        rewrite list_elem_of_singleton. exact Hn. }
    rewrite Hall, Hd2, Hdone. cbn [andb negb fmap list_fmap run].
    set (w2 := set_saves (fun js => <[j := with_done job2]> js) w1).
    assert (Hinv2 : Inv w2 accts).
    { apply Inv_set_saves; [exact Hinv1|]. apply Forall_insert; [apply Hinv1 | exact Hok2]. }
    destruct (save_callback_found w2 accts job2 _ _ k a Hinv2 Hv2 Hp2)
      as (w' & Hw' & Hst & _); [now rewrite Hu2 | exact Hk|].
    exists w'. split.
    { unfold unhandled. destruct (save_callback job2 w2); cbn in Hw' |- *; congruence. }
    rewrite Hst. unfold job_pet. rewrite Hn2, Hde2. reflexivity.
  - (* a read is still pending: nothing is stored yet *)
    assert (Hpending : forallb is_loaded (job_tasks job2) = false).
    { destruct (Hrd i') as (t' & H1 & H2); [right; left|].
      apply (not_all_loaded _ i' t'); [|rewrite H2; discriminate].
      rewrite Ht2, list_lookup_insert_ne; [exact H1|].
      intros ->. apply Hi_fresh. left. }
    rewrite Hpending. cbn [andb final_world].
    destruct (IH w1 accts j job2 (photos0 ++ photo_files (job_tasks job) [i])%list
                (vet_after (job_tasks job) vet0 [i]) k a Hinv1)
      as (w' & Hrun & Hls); try assumption.
    + unfold w1. cbn [saves set_saves]. apply list_lookup_insert_eq. exact Hlt.
    + now rewrite Hd2.
    + discriminate.
    + intros i0 Hi0. destruct (Hrd i0) as (t0 & H1 & H2); [now right|].
      exists t0. split; [|exact H2]. rewrite Ht2, list_lookup_insert_ne; [exact H1|].
      intros ->. contradiction.
    + intros i0 t0. rewrite Ht2. destruct (decide (i0 = i)) as [->|Hn].
      * rewrite list_lookup_insert_eq by (eapply lookup_lt_Some; eauto). now intros [= <-].
      * rewrite list_lookup_insert_ne by congruence. intros H0 Hout. apply (Hld i0 t0 H0).
        rewrite not_elem_of_cons. auto.
    + now rewrite Hu2.
    + exists w'. split; [exact Hrun|]. rewrite Hls, Hn2, Hde2, Ht2.
      rewrite photo_files_insert, vet_after_insert by exact Hi_fresh.
      rewrite (photo_files_cons _ i (i' :: order)), app_assoc. reflexivity.
Qed.

Lemma omap_lookup_seq {A B : Type} (g : A -> option B) (l : list A) :
  forall pre : list A,
  omap (fun i => (pre ++ l)%list !! i ≫= g) (seq (length pre) (length l)) = omap g l.
Proof.
  induction l as [|x l IH]; intros pre; [reflexivity|].
  cbn [length seq omap list_omap]. rewrite list_lookup_middle by reflexivity.
  cbn [mbind option_bind].
  specialize (IH (pre ++ [x])%list). rewrite <- app_assoc in IH. cbn [app] in IH.
  rewrite length_app in IH. cbn [length] in IH. rewrite Nat.add_1_r in IH.
  now rewrite IH.
Qed.

Lemma photo_files_all vetFiles photoFiles :
  photo_files (reader_tasks vetFiles photoFiles)
    (seq 0 (length (reader_tasks vetFiles photoFiles))) = photoFiles.
Proof.
  unfold photo_files.
  transitivity (omap photo_file (reader_tasks vetFiles photoFiles)).
  { exact (omap_lookup_seq photo_file (reader_tasks vetFiles photoFiles) []). }
  unfold reader_tasks. rewrite omap_app.
  replace (omap photo_file (match vetFiles with
                            | [] => []
                            | f :: _ => [mkTask Certificate f Reading]
                            end)) with (@nil File) by (destruct vetFiles; reflexivity).
  cbn [app]. induction photoFiles as [|f fs IH]; [reflexivity|].
  cbn. now rewrite IH.
Qed.

Lemma vet_after_photos photoFiles vet0 order :
  vet_after ((fun f => mkTask Photo f Reading) <$> photoFiles) vet0 order = vet0.
Proof.
  revert vet0. induction order as [|i order IH]; intros vet0; [reflexivity|].
  unfold vet_after in *. cbn [foldl]. rewrite list_lookup_fmap.
  destruct (photoFiles !! i); cbn; apply IH.
Qed.

Lemma vet_after_certificate f photoFiles vet0 order :
  vet_after (mkTask Certificate f Reading :: ((fun f => mkTask Photo f Reading) <$> photoFiles))
    vet0 order
  = if decide (0%nat ∈ order) then Some f else vet0.
Proof.
  revert vet0. induction order as [|i order IH]; intros vet0.
  - rewrite decide_False by apply not_elem_of_nil. reflexivity.
  - unfold vet_after in *. cbn [foldl]. rewrite IH. destruct i as [|i].
    + destruct (decide (0%nat ∈ 0%nat :: order)) as [_|Hn]; [|exfalso; apply Hn; left].
      cbn. destruct (decide (0%nat ∈ order)); reflexivity.
    + rewrite lookup_cons, list_lookup_fmap.
      assert (Hv : from_option Some vet0
                     (((fun f => mkTask Photo f Reading) <$> photoFiles !! i) ≫= vet_file)
                   = vet0) by (destruct (photoFiles !! i); reflexivity).
      rewrite Hv.
      destruct (decide (0%nat ∈ order)) as [H0|H0];
        destruct (decide (0%nat ∈ S i :: order)) as [H1|H1]; try reflexivity.
      * exfalso. apply H1. now right.
      * exfalso. apply elem_of_cons in H1 as [H1|H1]; [discriminate | contradiction].
Qed.

Lemma vet_after_all vetFiles photoFiles order :
  order ≡ₚ seq 0 (length (reader_tasks vetFiles photoFiles)) ->
  vet_after (reader_tasks vetFiles photoFiles) None order = head vetFiles.
Proof.
  intros Hperm. unfold reader_tasks in *. destruct vetFiles as [|f vs]; cbn [app head] in *.
  - exact (vet_after_photos photoFiles None order).
  - etransitivity; [exact (vet_after_certificate f photoFiles None order)|].
    rewrite decide_True; [reflexivity|]. rewrite Hperm. cbn [length seq]. left.
Qed.

End WholeSave.

(** X20.  A save, from the submit to the storage.  When the pet form is
    submitted with files selected and all the reads complete, in any
    order, the stored account that has the identifier of [user], the
    account the dashboard was opened for, is stored with the pet of the
    name and description trimmed by the engine, the first certificate
    selected, and every selected photo exactly once, in the order the
    reads completed; nothing is stored by the submit listener, run to its
    end. *)
Theorem save_with_files_end_to_end (w : World) (accts : list Account) (k : nat)
    (a : Account) (user : JSVal) (rawName rawDesc : string)
    (vetFiles photoFiles : list File) (el : Element) (order : list nat) :
  Inv w accts -> accts !! k = Some a ->
  prop_of user "email" = Some (VStr (acc_email a)) ->
  has_value w "pet-name" rawName -> has_value w "pet-desc" rawDesc ->
  document w !! "pet-error" = Some el ->
  has_files w "pet-vet" vetFiles -> has_files w "pet-photos" photoFiles ->
  trim rawName <> EmptyString -> trim rawDesc <> EmptyString ->
  vetFiles <> [] \/ photoFiles <> [] ->
  order ≡ₚ seq 0 (length (reader_tasks vetFiles photoFiles)) ->
  exists w1 w2 photos,
    savePetInfo user w = Ok tt w1 /\
    run_listener (OnSubmitPet user) w = Ok tt w1 /\
    localStorage w1 = localStorage w /\
    run (EvFileLoad (length (saves w)) <$> order) w1 = Some w2 /\
    photos = photo_files (reader_tasks vetFiles photoFiles) order /\
    photos ≡ₚ photoFiles /\
    localStorage w2 =
      <["users" := JSON.stringify (VArr (encode_account <$>
          <[k := with_pet (mkPet (trim rawName) (trim rawDesc) (head vetFiles) photos) a]>
            accts))]>
        (localStorage w).
Proof.
  intros Hinv Hk Hu Hn Hd Hel Hv Hp Hne Hde Hfiles Hperm.
  set (tasks := reader_tasks vetFiles photoFiles) in *.
  set (job := new_job user rawName rawDesc vetFiles photoFiles).
  set (w1 := set_saves (fun js => (js ++ [job])%list) (shows "pet-error" EmptyString el w)).
  assert (Hreading : forall i t, tasks !! i = Some t -> task_state t = Reading).
  { intros i t. unfold tasks, reader_tasks. intros Hi.
    apply list_elem_of_lookup_2 in Hi. apply elem_of_app in Hi as [Hi|Hi].
    - destruct vetFiles; [now apply elem_of_nil in Hi|].
      apply list_elem_of_singleton in Hi. now subst t.
    - apply list_elem_of_In, in_map_iff in Hi as (f & <- & _). reflexivity. }
  assert (Hnonempty : tasks <> []).
  { unfold tasks, reader_tasks. destruct vetFiles; [|discriminate].
    destruct photoFiles; [now destruct Hfiles | discriminate]. }
  assert (Hin : forall i, i ∈ order <-> (i < length tasks)%nat).
  { intros i. rewrite Hperm, elem_of_seq. lia. }
  assert (Hj : saves w1 !! length (saves w) = Some job).
  { unfold w1. cbn [saves set_saves shows set_document].
    rewrite lookup_app_r by reflexivity. now rewrite Nat.sub_diag. }
  assert (Hstart0 : savePetInfo user w = Ok tt w1).
  { apply (savePetInfo_started w _ rawName rawDesc vetFiles photoFiles el); assumption. }
  assert (Hstart : run_listener (OnSubmitPet user) w = Ok tt w1).
  { cbn [run_listener].
    rewrite (submit_pet_started w _ rawName rawDesc vetFiles photoFiles el) by assumption.
    fold job. fold w1. rewrite (settle_eq _ _ job Hj).
    destruct tasks as [|t ts] eqn:Et; [congruence|].
    assert (Hpending : forallb is_loaded (job_tasks job) = false).
    { change (job_tasks job) with (reader_tasks vetFiles photoFiles). fold tasks. rewrite Et.
      cbn [forallb]. unfold is_loaded at 1. now rewrite (Hreading 0%nat t eq_refl). }
    now rewrite Hpending. }
  assert (Hinv1 : Inv w1 accts).
  { apply Inv_set_saves; [now apply Inv_shows|].
    apply Forall_app. split; [apply Hinv|]. constructor; [|constructor].
    apply job_ok_new_job. }
  destruct (loads_complete order w1 accts (length (saves w)) job [] None k a Hinv1 Hj)
    as (w2 & Hrun & Hls); try reflexivity; try assumption.
  - rewrite Hperm. apply NoDup_seq.
  - intros ->. apply Permutation_nil_l in Hperm.
    destruct tasks; [congruence | discriminate].
  - intros i Hi. apply Hin in Hi. apply lookup_lt_is_Some in Hi as [t Hi].
    exists t. split; [exact Hi | now apply (Hreading i)].
  - intros i t Hi Hout. exfalso. apply Hout, Hin. eapply lookup_lt_Some; eauto.
  - exists w1, w2, (photo_files tasks order).
    split; [exact Hstart0|]. split; [exact Hstart|].
    split; [reflexivity|]. split; [exact Hrun|].
    split; [reflexivity|]. split.
    + unfold photo_files. rewrite Hperm. fold (photo_files tasks (seq 0 (length tasks))).
      unfold tasks. now rewrite photo_files_all.
    + rewrite Hls. change (job_tasks job) with tasks. cbn [app].
      unfold tasks at 1. rewrite (vet_after_all vetFiles photoFiles order Hperm).
      reflexivity.
Qed.

End SubmitToStorage.


(** * The sample engine *)

Section SampleFacts.

Import Sample.

Lemma lower_ascii_idem c : lower_ascii (lower_ascii c) = lower_ascii c.
Proof. each_ascii c; reflexivity. Qed.

Lemma lower_latin1_stable c :
  is_upper_latin1 c = true ->
  let d := ascii_of_N (N_of_ascii c + 32) in
  is_upper_latin1 d = false /\ lower_ascii d = d /\ (N_of_ascii d =? 195) = false.
Proof. each_ascii c; intros H; try discriminate H; repeat split. Qed.

Lemma is_upper_latin1_lower c : is_upper_latin1 (lower_ascii c) = is_upper_latin1 c.
Proof. each_ascii c; reflexivity. Qed.

Lemma is_lead_lower c : (N_of_ascii (lower_ascii c) =? 195) = (N_of_ascii c =? 195).
Proof. each_ascii c; reflexivity. Qed.

Lemma lower_from_idem s : forall b, lower_from b (lower_from b s) = lower_from b s.
Proof.
  induction s as [|c s IH]; intros b; [reflexivity|].
  cbn [lower_from]. destruct (b && is_upper_latin1 c) eqn:E.
  - apply andb_true_iff in E as [_ Hc].
    destruct (lower_latin1_stable c Hc) as (H1 & H2 & H3). cbv zeta in H1, H2, H3.
    cbn [lower_from]. rewrite H1, andb_false_r, H2, H3. now rewrite IH.
  - cbn [lower_from]. rewrite is_upper_latin1_lower, E, lower_ascii_idem, is_lead_lower.
    now rewrite IH.
Qed.

(** Lower-casing twice is lower-casing once. *)
Lemma sample_lower_idem : @lower_idempotent sample_engine.
Proof. intros s. apply (lower_from_idem s false). Qed.

End SampleFacts.


(** * Instances *)

#[local] Existing Instance sample_engine.

(** ** A visit of the site *)

Ltac nodup_emails :=
  repeat (apply NoDup_cons; split;
    [rewrite ?elem_of_cons, ?elem_of_nil; intuition discriminate|]);
  apply NoDup_nil; exact I.

Section Examples.

Lemma account_ok_alice : account_ok alice.
Proof. split; [now exists "a@x.com" | split; [discriminate | reflexivity]]. Qed.

(** After the visit the storage holds alice with her pet: the trimmed
    name, the certificate, and the photos in the order their reads
    completed, the second one first. *)
Example visit_result :
  localStorage visited !! "users" =
    Some (JSON.stringify (VArr [encode_account
      (with_pet (mkPet "Rex" "good dog" (Some certificate) [photo_b; photo_a]) alice)]))
  /\ localStorage visited !! "currentUser" = Some "a@x.com".
Proof. split; vm_compute; reflexivity. Qed.

(** Until the last read completes, the storage holds alice without a
    pet. *)
Example visit_before_last_read :
  (fun w => localStorage w !! "users") <$> run (take 10 visit) initial =
    Some (Some (JSON.stringify (VArr [encode_account alice]))).
Proof. vm_compute. reflexivity. Qed.

Example toFixed_fund : toFixed 2 (of_Z 4) = "4.00".
Proof. reflexivity. Qed.

Example normalize_identifier : toLowerCase (trim "  A@X.com ") = "a@x.com".
Proof. reflexivity. Qed.

End Examples.


Ltac account_ok :=
  match goal with
  | |- account_ok ?a =>
      split; [exists (acc_email a); vm_compute; reflexivity
             | split; [discriminate | reflexivity]]
  end.

Ltac accounts_ok :=
  repeat (apply List.Forall_cons; [account_ok|]); apply List.Forall_nil.

Ltac concrete_inv :=
  apply Inv_world_of;
  [ nodup_emails | accounts_ok
  | repeat (apply List.Forall_cons; [apply job_ok_new_job|]); apply List.Forall_nil ].

Ltac concrete_value := eexists; split; [vm_compute; reflexivity | reflexivity].

Lemma login_iff_credentials_witness :
  let raw := nbsp +:+ " ÉMILE@X.com" +:+ nbsp in
  let w := world_of [alice; emile] (login_page raw "pw3") [] in
  Inv w [alice; emile] /\
  exists w', handleLogin w = Ok tt w' /\
             localStorage w' !! "currentUser" = Some "émile@x.com" /\
             navigations w' = ["dashboard.html"].
Proof.
  intros raw w. assert (Hinv : Inv w [alice; emile]) by concrete_inv.
  split; [exact Hinv|].
  destruct (login_iff_credentials w [alice; emile] raw "pw3" blank Hinv)
    as (w' & Hrun & Hok & _);
    [concrete_value | concrete_value | vm_compute; reflexivity |].
  exists w'. split; [exact Hrun|].
  destruct Hok as (Hls & Hnav & _).
  { exists emile. split; [right; left | split; vm_compute; reflexivity]. }
  rewrite Hls, Hnav. split; [rewrite lookup_insert_eq; vm_compute; reflexivity | reflexivity].
Defined.

(** The same form with a wrong password: the one message, no session. *)
Example login_wrong_password :
  let w := world_of [alice; emile] (login_page "emile@x.com" "pw3") [] in
  exists w', handleLogin w = Ok tt w' /\
             text_of w' "login-error" = Some "Identifiants invalides." /\
             localStorage w' = localStorage w /\ navigations w' = [].
Proof. eexists. split; [vm_compute; reflexivity|]. repeat split; reflexivity. Qed.

Lemma signup_validation_order_witness :
  let raw := " ÉMILE@X.COM" +:+ nbsp in
  let w := world_of [alice] (signup_page raw "pw3" "pw3") [] in
  Inv w [alice] /\
  exists w', handleSignup w = Ok tt w' /\ Inv w' [alice; emile] /\
             localStorage w' !! "currentUser" = Some "émile@x.com".
Proof.
  intros raw w. assert (Hinv : Inv w [alice]) by concrete_inv.
  split; [exact Hinv|].
  destruct (signup_validation_order w [alice] raw "pw3" "pw3" blank Hinv)
    as (w' & Hrun & Hres);
    [concrete_value | concrete_value | concrete_value | vm_compute; reflexivity |].
  exists w'. split; [exact Hrun|].
  assert (He : toLowerCase (trim raw) = "émile@x.com") by (vm_compute; reflexivity).
  rewrite He in Hres. cbv zeta in Hres.
  change (is_empty "émile@x.com" || is_empty "pw3" || is_empty "pw3") with false in Hres.
  change (negb ("pw3" =? "pw3")%string) with false in Hres. cbv iota in Hres.
  rewrite bool_decide_eq_false_2 in Hres
    by (rewrite list_fmap_singleton, list_elem_of_singleton; discriminate).
  destruct Hres as (Hinv' & Hls & _). split; [exact Hinv'|].
  rewrite Hls. apply lookup_insert_eq.
Defined.

(** An identifier made of white space only, here a no-break space, is
    an empty field. *)
Example signup_blank_identifier :
  let w := world_of [alice] (signup_page nbsp "pw3" "pw3") [] in
  exists w', handleSignup w = Ok tt w' /\
             text_of w' "signup-error" = Some "Veuillez remplir tous les champs." /\
             localStorage w' = localStorage w.
Proof. eexists. split; [vm_compute; reflexivity|]. split; reflexivity. Qed.

Lemma signup_twice_rejected_witness :
  let w := world_of [alice; emile] (signup_page "ÉMILE@X.COM" "pw1" "pw1") [] in
  Inv w [alice; emile] /\
  exists w', handleSignup w = Ok tt w' /\
             text_of w' "signup-error" = Some "Un compte avec cet e‑mail existe déjà." /\
             stored w' [alice; emile] /\ localStorage w' = localStorage w.
Proof.
  intros w. assert (Hinv : Inv w [alice; emile]) by concrete_inv.
  split; [exact Hinv|].
  destruct (signup_twice_rejected w [alice; emile] emile "ÉMILE@X.COM" "pw1" "pw1" blank Hinv)
    as (w' & Hrun & _ & Hls & Hst & _ & _ & Hmsg);
    [right; left | vm_compute; reflexivity | concrete_value | concrete_value | concrete_value
    | vm_compute; reflexivity |].
  exists w'. split; [exact Hrun|]. split; [|split; [exact Hst | exact Hls]].
  apply Hmsg; [discriminate | reflexivity].
Defined.

(** Registering alice's identifier again with the password left empty:
    the check of the fields comes first, and its message is shown. *)
Example signup_twice_empty_password :
  let w := world_of [alice] (signup_page "A@X.COM" EmptyString EmptyString) [] in
  exists w', handleSignup w = Ok tt w' /\
             text_of w' "signup-error" = Some "Veuillez remplir tous les champs." /\
             localStorage w' = localStorage w.
Proof. eexists. split; [vm_compute; reflexivity|]. split; reflexivity. Qed.

Lemma save_replaces_profile_witness :
  let w := world_of [bob; alice_with_pet] dashboard_page [new_pet_job] in
  Inv w [bob; alice_with_pet] /\
  exists w' user,
    final_world (save_callback new_pet_job w) = Some w' /\
    findUser "a@x.com" w' = Ok user w' /\
    get_prop user "pet" w' =
      Ok (VObj [("name", VStr "Rex"); ("description", VStr "good dog"); ("vetFile", VNull);
                ("photos", VArr [VObj [("name", VStr "b.png");
                                       ("data", VStr "data:image/png;base64,BBBB")]])]) w'.
Proof.
  intros w.
  assert (Hinv : Inv w [bob; alice_with_pet]).
  { apply Inv_world_of; [nodup_emails | accounts_ok|].
    apply List.Forall_cons; [|apply List.Forall_nil]. exists None, [photo_b]. split; reflexivity. }
  split; [exact Hinv|].
  destruct (save_replaces_profile w [bob; alice_with_pet] new_pet_job None [photo_b]
              alice_with_pet Hinv)
    as (w' & user & Hrun & Hfind & Hpet & _);
    [right; left | reflexivity | reflexivity | reflexivity |].
  exists w', user. auto.
Defined.

Lemma save_changes_only_profile_witness :
  let w := world_of [bob; alice_with_pet] dashboard_page [new_pet_job] in
  Inv w [bob; alice_with_pet] /\
  exists w' accts' a',
    final_world (save_callback new_pet_job w) = Some w' /\
    getUsers w' = Ok (VArr (encode_account <$> accts')) w' /\
    accts' !! 0%nat = Some bob /\ accts' !! 1%nat = Some a' /\
    acc_email a' = "a@x.com" /\ acc_password a' = "pw1" /\ acc_fund a' = of_Z 4.
Proof.
  intros w.
  assert (Hinv : Inv w [bob; alice_with_pet]).
  { apply Inv_world_of; [nodup_emails | accounts_ok|].
    apply List.Forall_cons; [|apply List.Forall_nil]. exists None, [photo_b]. split; reflexivity. }
  split; [exact Hinv|].
  destruct (save_changes_only_profile w [bob; alice_with_pet] new_pet_job None [photo_b]
              1%nat alice_with_pet Hinv)
    as (w' & accts' & a' & Hrun & Hget & _ & _ & Ha' & He & Hp & Hf & _ & Hother);
    [reflexivity | reflexivity | reflexivity | reflexivity |].
  exists w', accts', a'. split; [exact Hrun|]. split; [exact Hget|].
  split; [rewrite Hother by discriminate; reflexivity|]. auto.
Defined.

Lemma save_waits_for_all_reads_witness :
  let w := world_of [alice] dashboard_page [alice_job] in
  let evs := [EvFileLoad 0 2; EvFileError 0 0; EvFileLoad 0 1; EvFileLoad 0 0] in
  Inv w [alice] /\ Forall (for_save 0) evs /\
  exists w', run evs w = Some w' /\ localStorage w' = localStorage w.
Proof.
  intros w evs. assert (Hinv : Inv w [alice]) by concrete_inv.
  split; [exact Hinv|].
  assert (Hevs : Forall (for_save 0) evs).
  { repeat (apply List.Forall_cons; [reflexivity|]). apply List.Forall_nil. }
  split; [exact Hevs|].
  destruct (save_waits_for_all_reads w [alice] 0%nat alice_job evs Hinv)
    as (w' & job' & Hrun & Hj' & Hpending & _);
    [reflexivity | reflexivity | exact Hevs |].
  exists w'. split; [exact Hrun|]. apply Hpending.
  vm_compute in Hrun. injection Hrun as <-.
  vm_compute in Hj'. injection Hj' as <-. reflexivity.
Defined.

Lemma photos_in_completion_order_witness :
  let w := world_of [alice] dashboard_page [alice_job] in
  Inv w [alice] /\ NoDup [2; 1]%nat /\
  exists w' job', run (EvFileLoad 0 <$> [2; 1]%nat) w = Some w' /\
    saves w' !! 0%nat = Some job' /\
    job_photos job' =
      [VObj [("name", VStr "b.png"); ("data", VStr "data:image/png;base64,BBBB")];
       VObj [("name", VStr "a.png"); ("data", VStr "data:image/png;base64,AAAA")]].
Proof.
  intros w. assert (Hinv : Inv w [alice]) by concrete_inv.
  split; [exact Hinv|].
  assert (Hnd : NoDup [2; 1]%nat).
  { repeat (apply NoDup_cons; split;
      [rewrite ?elem_of_cons, ?elem_of_nil; intuition discriminate|]).
    apply NoDup_nil. exact I. }
  split; [exact Hnd|].
  destruct (photos_in_completion_order w [alice] 0%nat alice_job [2; 1]%nat Hinv)
    as (w' & job' & Hrun & Hj' & Hp & _);
    [reflexivity | reflexivity | reflexivity | reflexivity | exact Hnd | |].
  { intros i Hi. apply elem_of_cons in Hi as [->|Hi];
      [eexists; split; reflexivity|].
    apply elem_of_cons in Hi as [->|Hi]; [eexists; split; reflexivity|].
    now apply elem_of_nil in Hi. }
  exists w', job'. split; [exact Hrun|]. split; [exact Hj'|]. exact Hp.
Defined.




(** ** Instances of the further properties *)

Lemma setUsers_then_getUsers_witness :
  json_wf (VArr [encode_account alice_with_pet; encode_account bob]) /\
  exists w', setUsers (VArr [encode_account alice_with_pet; encode_account bob]) initial
             = Ok tt w' /\
    getUsers w' = Ok (VArr [encode_account alice_with_pet; encode_account bob]) w'.
Proof.
  assert (Hwf : json_wf (VArr [encode_account alice_with_pet; encode_account bob])).
  { apply (encode_accounts_wf [alice_with_pet; bob]). accounts_ok. }
  split; [exact Hwf|].
  destruct (setUsers_then_getUsers _ initial Hwf) as (w' & Hset & _ & Hget & _).
  exists w'. split; [exact Hset | exact Hget].
Defined.

Lemma dashboard_requires_account_witness :
  let w := with_session "zoe@x.com" (world_of [alice] dashboard_page []) in
  Inv w [alice] /\ localStorage w !! "currentUser" = Some "zoe@x.com" /\
  loadDashboard w = Ok tt (redirected "login.html" w).
Proof.
  intros w. assert (Hinv : Inv w [alice]) by (apply Inv_with_session; concrete_inv).
  split; [exact Hinv|]. split; [reflexivity|].
  apply (dashboard_requires_account w [alice] Hinv).
  intros e He. vm_compute in He. injection He as <-.
  rewrite list_fmap_singleton, list_elem_of_singleton. discriminate.
Defined.

Lemma dashboard_shows_account_witness :
  let w := with_session "a@x.com" (world_of [bob; alice_with_pet] dashboard_page []) in
  Inv w [bob; alice_with_pet] /\
  exists w', loadDashboard w = Ok tt w' /\
    text_of w' "fund-value" = Some "4.00 €" /\
    childNodes <$> document w' !! "pet-info" = Some (render_pet old_pet) /\
    listeners w' = [("pet-form", OnSubmitPet (encode_account alice_with_pet));
                    ("logout-btn", OnLogout)].
Proof.
  intros w.
  assert (Hinv : Inv w [bob; alice_with_pet]) by (apply Inv_with_session; concrete_inv).
  split; [exact Hinv|].
  destruct (dashboard_shows_account w [bob; alice_with_pet] alice_with_pet
              blank blank blank blank Hinv)
    as (w' & Hrun & Hfund & Hpet & Hl & _);
    [right; left | reflexivity | vm_compute; reflexivity | vm_compute; reflexivity
    | vm_compute; reflexivity | vm_compute; reflexivity |].
  exists w'. split; [exact Hrun|]. split; [exact Hfund|]. split; [exact Hpet | exact Hl].
Defined.

Lemma displayPetInfo_shows_latest_witness :
  let w := world_of [] dashboard_page [] in
  let p := mkPet "Rex" "good dog" None [photo_b] in
  document w !! "pet-info" = Some blank /\
  exists w1 w2,
    displayPetInfo (encode_pet old_pet) w = Ok tt w1 /\
    displayPetInfo (encode_pet p) w1 = Ok tt w2 /\
    childNodes <$> document w2 !! "pet-info" = Some (render_pet p) /\
    length (render_pet p) = 3%nat.
Proof.
  intros w p.
  assert (Hinfo : document w !! "pet-info" = Some blank) by (vm_compute; reflexivity).
  split; [exact Hinfo|].
  destruct (displayPetInfo_shows_latest p old_pet w blank Hinfo)
    as [(w1 & w2 & H1 & H2 & _ & Hc & Hlen & _) _].
  exists w1, w2. split; [exact H1|]. split; [exact H2|]. split; [exact Hc | exact Hlen].
Defined.

Lemma savePetInfo_requires_name_and_description_witness :
  let name := " " +:+ nbsp in
  let w := world_of [alice] (pet_form name "good dog" [certificate] [photo_a]) [] in
  has_value w "pet-name" name /\ has_value w "pet-desc" "good dog" /\
  trim name = EmptyString /\
  exists w', run_listener (OnSubmitPet (encode_account alice)) w = Ok tt w' /\
    text_of w' "pet-error" = Some "Veuillez indiquer le nom et la description du chien." /\
    localStorage w' = localStorage w /\ saves w' = [].
Proof.
  intros name w.
  assert (Hn : has_value w "pet-name" name) by concrete_value.
  assert (Hd : has_value w "pet-desc" "good dog") by concrete_value.
  assert (Ht : trim name = EmptyString) by (vm_compute; reflexivity).
  split; [exact Hn|]. split; [exact Hd|]. split; [exact Ht|].
  destruct (savePetInfo_requires_name_and_description w (encode_account alice)
              name "good dog" Hn Hd (or_introl Ht))
    as (w' & _ & Hrun & Hw' & Hls & Hsv & _).
  exists w'. split; [exact Hrun|]. split; [|split; [exact Hls | exact Hsv]].
  rewrite Hw'. vm_compute. reflexivity.
Defined.

Lemma submit_with_files_waits_witness :
  let w := world_of [alice] (pet_form " Rex " "good dog" [certificate; photo_a]
                               [photo_a; photo_b]) [] in
  exists w' job, run_listener (OnSubmitPet (encode_account alice)) w = Ok tt w' /\
    localStorage w' = localStorage w /\ saves w' = [job] /\
    job_name job = "Rex" /\
    job_tasks job = [mkTask Certificate certificate Reading;
                     mkTask Photo photo_a Reading; mkTask Photo photo_b Reading].
Proof.
  intros w.
  destruct (submit_with_files_waits w (encode_account alice) " Rex " "good dog"
              [certificate; photo_a] [photo_a; photo_b] blank)
    as (w' & job & _ & Hrun & Hls & Hsv & _ & Hname & _ & _ & _ & _ & Htasks & _);
    [concrete_value | concrete_value | vm_compute; reflexivity
    | concrete_value | concrete_value | discriminate | discriminate
    | left; discriminate |].
  exists w', job. split; [exact Hrun|]. split; [exact Hls|]. split; [exact Hsv|].
  split; [exact Hname | exact Htasks].
Defined.

Lemma submit_without_files_saves_at_once_witness :
  let w := world_of [bob; alice_with_pet] (pet_form " Rex " "good dog" [] []) [] in
  Inv w [bob; alice_with_pet] /\
  exists w0 w', savePetInfo (encode_account alice) w = Ok tt w0 /\
    localStorage w0 = localStorage w /\
    run_listener (OnSubmitPet (encode_account alice)) w = Ok tt w' /\
    Inv w' [bob; with_pet (mkPet "Rex" "good dog" None []) alice] /\
    childNodes <$> document w' !! "pet-info"
      = Some (render_pet (mkPet "Rex" "good dog" None [])).
Proof.
  intros w. assert (Hinv : Inv w [bob; alice_with_pet]) by concrete_inv.
  split; [exact Hinv|].
  destruct (submit_without_files_saves_at_once w [bob; alice_with_pet] 1%nat alice_with_pet
              (encode_account alice) " Rex " "good dog" blank blank blank Hinv)
    as (w0 & w' & Hstart & Hls0 & Hrun & _ & Hinv' & _ & Hshown);
    [reflexivity | reflexivity | concrete_value | concrete_value | vm_compute; reflexivity
    | vm_compute; reflexivity | vm_compute; reflexivity
    | concrete_value | concrete_value | discriminate | discriminate |].
  exists w0, w'. split; [exact Hstart|]. split; [exact Hls0|]. split; [exact Hrun|].
  split; [exact Hinv' | exact Hshown].
Defined.

Lemma save_for_unknown_account_writes_nothing_witness :
  let w := world_of [alice] dashboard_page [bob_job] in
  Inv w [alice] /\ save_callback bob_job w = Throw TypeError w.
Proof.
  intros w.
  assert (Hinv : Inv w [alice]).
  { apply Inv_world_of; [nodup_emails | accounts_ok|].
    apply List.Forall_cons; [|apply List.Forall_nil]. exists None, []. split; reflexivity. }
  split; [exact Hinv|].
  apply (save_for_unknown_account_writes_nothing w [alice] bob_job Hinv).
  intros a Ha. apply list_elem_of_singleton in Ha. subst a. discriminate.
Defined.

Lemma signup_over_unreadable_storage_witness :
  let w := world_with_text "[{oops" (signup_page " B@x.com" "pw2" "pw2") in
  JSON.parse "[{oops" = None /\
  exists w', handleSignup w = Ok tt w' /\
    stored w' [bob] /\
    console w' = ["Error parsing users from localStorage"] /\
    localStorage w' !! "currentUser" = Some "b@x.com".
Proof.
  intros w.
  assert (Hp : JSON.parse "[{oops" = None) by (vm_compute; reflexivity).
  split; [exact Hp|].
  destruct (signup_over_unreadable_storage w "[{oops" " B@x.com" "pw2" blank)
    as (w' & Hrun & Hls & Hst & _ & Hlog & _);
    [reflexivity | discriminate | exact Hp | concrete_value | concrete_value
    | concrete_value | vm_compute; reflexivity | discriminate | discriminate |].
  exists w'. split; [exact Hrun|]. split; [exact Hst|]. split; [exact Hlog|].
  rewrite Hls. apply lookup_insert_eq.
Defined.

Lemma non_array_storage_stops_handlers_witness :
  let w := world_with_text "{}" (login_page "a@x.com" "pw1") in
  JSON.parse "{}" = Some (VObj []) /\
  findUser "a@x.com" w = Throw TypeError w /\
  handleLogin w = Throw TypeError (shows "login-error" EmptyString blank w).
Proof.
  intros w.
  assert (Hp : JSON.parse "{}" = Some (VObj [])) by (vm_compute; reflexivity).
  split; [exact Hp|].
  destruct (non_array_storage_stops_handlers w "{}" (VObj [])) as (Hfind & Hlogin & _);
    [reflexivity | exact Hp | discriminate |].
  split; [apply Hfind|].
  apply (Hlogin "a@x.com" "pw1" blank);
    [concrete_value | concrete_value | vm_compute; reflexivity].
Defined.

Lemma saved_pet_is_listed_witness :
  let w := world_of [bob; alice_with_pet] dashboard_page [new_pet_job] in
  let p := mkPet "Rex" "good dog" None [photo_b] in
  Inv w [bob; alice_with_pet] /\
  exists w1 w2,
    final_world (save_callback new_pet_job w) = Some w1 /\
    load_page dogs_page w1 = Ok tt w2 /\
    childNodes <$> document w2 !! "dogs-container" = Some [pet_card (with_pet p alice) p] /\
    card_src p = file_dataURL photo_b /\
    style_display <$> document w2 !! "no-dogs-message" = Some "none".
Proof.
  intros w p.
  assert (Hinv : Inv w [bob; alice_with_pet]).
  { apply Inv_world_of; [nodup_emails | accounts_ok|].
    apply List.Forall_cons; [|apply List.Forall_nil]. exists None, [photo_b]. split; reflexivity. }
  split; [exact Hinv|].
  destruct (saved_pet_is_listed w [bob; alice_with_pet] new_pet_job None [photo_b] 1%nat
              alice_with_pet dogs_page blank blank blank Hinv)
    as (w1 & w2 & H1 & H2 & Hcards & Hsrc & Hmsg & _);
    [reflexivity | reflexivity | reflexivity | reflexivity
    | vm_compute; reflexivity | vm_compute; reflexivity | vm_compute; reflexivity
    | vm_compute; reflexivity | vm_compute; reflexivity | vm_compute; reflexivity |].
  exists w1, w2. split; [exact H1|]. split; [exact H2|]. split; [exact Hcards|].
  split; [exact Hsrc | exact Hmsg].
Defined.

Lemma register_then_login_witness :
  let w := world_of [alice] ∅ [] in
  Inv w [alice] /\
  exists w',
    run [EvLoad (signup_page " Émile@x.com" "pw3" "pw3"); EvFire 0;
         EvLoad (login_page ("ÉMILE@X.COM" +:+ nbsp) "pw3"); EvFire 0] w = Some w' /\
    Inv w' [alice; emile] /\
    localStorage w' !! "currentUser" = Some "émile@x.com".
Proof.
  intros w. assert (Hinv : Inv w [alice]) by concrete_inv.
  split; [exact Hinv|].
  destruct (register_then_login w [alice] " Émile@x.com" "pw3" ("ÉMILE@X.COM" +:+ nbsp) Hinv)
    as (w' & Hrun & Hinv' & Hses & _);
    [| vm_compute; discriminate | discriminate | vm_compute; reflexivity |].
  { rewrite list_fmap_singleton, list_elem_of_singleton. vm_compute. discriminate. }
  exists w'. split; [exact Hrun|]. split; [exact Hinv' | exact Hses].
Defined.

Lemma reachable_visited : reachable visited.
Proof. apply (reachable_run visit initial); [apply reach_initial|]. vm_compute. reflexivity. Qed.

(** A storage that the script did not write: the photos of a pet are
    an object whose [length] is the string [1].  The listing compares
    that string with zero, finds no first photo and throws; the storage
    is as it was. *)
Example page_load_coerced_length :
  let text := JSON.stringify
                (VArr [VObj [("pet", VObj [("photos", VObj [("length", VStr "1")])])]]) in
  let w := world_with_text text dogs_page in
  exists w', load_page dogs_page w = Throw TypeError w' /\
             localStorage w' = localStorage w.
Proof. eexists. split; [vm_compute; reflexivity | reflexivity]. Qed.

Lemma session_names_account_witness :
  reachable visited /\ localStorage visited !! "currentUser" = Some "a@x.com" /\
  exists a, acc_email a = "a@x.com" /\ findUser "a@x.com" visited = Ok (encode_account a) visited.
Proof.
  pose proof reachable_visited as Hr.
  split; [exact Hr|].
  assert (Hs : localStorage visited !! "currentUser" = Some "a@x.com")
    by (vm_compute; reflexivity).
  split; [exact Hs|].
  destruct (session_names_account visited Hr) as (accts & _ & Hses).
  destruct (Hses "a@x.com" Hs) as (a & _ & He & _ & Hfind).
  exists a. split; [exact He | exact Hfind].
Defined.

Lemma accounts_only_grow_witness :
  reachable visited /\
  exists accts w' accts',
    getUsers visited = Ok (VArr (encode_account <$> accts)) visited /\
    run [EvLoad (signup_page "b@x.com" "pw2" "pw2"); EvFire 0] visited = Some w' /\
    getUsers w' = Ok (VArr (encode_account <$> accts')) w' /\
    credentials <$> accts `prefix_of` credentials <$> accts'.
Proof.
  pose proof reachable_visited as Hr.
  split; [exact Hr|].
  destruct (accounts_only_grow visited
              [EvLoad (signup_page "b@x.com" "pw2" "pw2"); EvFire 0] Hr)
    as (accts & w' & accts' & H1 & H2 & H3 & H4 & _).
  exists accts, w', accts'. auto.
Defined.

Lemma forms_need_their_error_element_witness :
  let w := world_of [alice] (delete "login-error" (login_page "a@x.com" "pw1")) [] in
  document w !! "login-error" = None /\ handleLogin w = Throw TypeError w.
Proof.
  intros w.
  assert (Hel : document w !! "login-error" = None) by (vm_compute; reflexivity).
  split; [exact Hel|].
  destruct (forms_need_their_error_element w) as [_ Hlogin].
  apply (Hlogin "a@x.com" "pw1" Hel); concrete_value.
Defined.

Lemma register_then_dashboard_witness :
  let w := world_of [alice] ∅ [] in
  Inv w [alice] /\
  exists w',
    run [EvLoad (signup_page " B@x.com" "pw2" "pw2"); EvFire 0; EvLoad dashboard_page] w
      = Some w' /\
    localStorage w' !! "currentUser" = Some "b@x.com" /\
    text_of w' "fund-value" = Some "4.00 €" /\
    navigations w' = ["dashboard.html"].
Proof.
  intros w. assert (Hinv : Inv w [alice]) by concrete_inv.
  split; [exact Hinv|].
  destruct (register_then_dashboard w [alice] " B@x.com" "pw2" Hinv)
    as (w' & Hrun & Hses & Hfund & _ & _ & Hnav);
    [| discriminate | discriminate |].
  { rewrite list_fmap_singleton, list_elem_of_singleton. discriminate. }
  exists w'. split; [exact Hrun|]. split; [exact Hses|]. split; [exact Hfund | exact Hnav].
Defined.

Lemma listing_needs_only_its_container_witness :
  let w := world_of [alice_with_pet; bob] (delete "no-dogs-message" dogs_page) [] in
  Inv w [alice_with_pet; bob] /\ document w !! "no-dogs-message" = None /\
  exists w', loadDogsPage w = Ok tt w' /\
    childNodes <$> document w' !! "dogs-container" = Some [pet_card alice_with_pet old_pet].
Proof.
  intros w. assert (Hinv : Inv w [alice_with_pet; bob]) by concrete_inv.
  split; [exact Hinv|].
  assert (Hm : document w !! "no-dogs-message" = None) by (vm_compute; reflexivity).
  split; [exact Hm|].
  destruct (listing_needs_only_its_container w [alice_with_pet; bob] blank Hinv)
    as [(w' & Hrun & Hdoc & _) _]; [vm_compute; reflexivity | exact Hm |].
  exists w'. split; [exact Hrun|]. rewrite Hdoc, lookup_insert_eq. reflexivity.
Defined.

Lemma save_with_files_end_to_end_witness :
  let w := world_of [alice] (pet_form " Rex " "good dog" [certificate] [photo_a; photo_b]) [] in
  Inv w [alice] /\ [2; 0; 1]%nat ≡ₚ seq 0 3 /\
  exists w1 w2,
    run_listener (OnSubmitPet (encode_account alice)) w = Ok tt w1 /\
    run (EvFileLoad 0 <$> [2; 0; 1]%nat) w1 = Some w2 /\
    localStorage w2 !! "users" =
      Some (JSON.stringify (VArr [encode_account
        (with_pet (mkPet "Rex" "good dog" (Some certificate) [photo_b; photo_a]) alice)])).
Proof.
  intros w. assert (Hinv : Inv w [alice]) by concrete_inv.
  split; [exact Hinv|].
  assert (Hperm : [2; 0; 1]%nat ≡ₚ seq 0 3) by apply (Permutation_cons_append [0; 1]%nat 2%nat).
  split; [exact Hperm|].
  destruct (save_with_files_end_to_end w [alice] 0%nat alice (encode_account alice)
              " Rex " "good dog" [certificate] [photo_a; photo_b] blank [2; 0; 1]%nat Hinv)
    as (w1 & w2 & photos & _ & Hstart & _ & Hrun & Hphotos & _ & Hls);
    [reflexivity | reflexivity | concrete_value | concrete_value | vm_compute; reflexivity
    | concrete_value | concrete_value | discriminate | discriminate
    | left; discriminate | exact Hperm |].
  exists w1, w2. split; [exact Hstart|]. split; [exact Hrun|].
  rewrite Hls, Hphotos, lookup_insert_eq. reflexivity.
Defined.
